(** * Streaming analytics platform: the stream-processing core

    A shallow embedding of the stateful core of the platform:

    - [services/processor-advanced/processor.py]: the idempotency filter of
      [AdvancedProcessor], [SlidingWindow], the funnel and fraud detectors of
      [ComplexEventProcessor], and the batch loop of [AdvancedProcessor.run];
    - [services/producer-advanced/producer.py]: [CircuitBreaker] and
      [AdaptiveRateLimiter];
    - [services/ml-detector/ml_detector.py]: [AdvancedAnomalyDetector] and the
      per-message body of [MLDetectorService.process_events].

    Conventions.  Python [float]s ([time.time()], scores, amounts, rates) are
    modelled by exact rationals [Q]; epoch-millisecond timestamps and counters
    are [Z]; Python [str] is [string] (a byte string, i.e. already encoded);
    [dict]s are [gmap]s, [set]s are [gset]s.  Every read of the wall clock is
    an explicit argument of the function that performs it. *)

From stdpp Require Import gmap strings list pretty.
From Stdlib Require Import Ascii ZArith QArith Qminmax Lqa Lia.

Local Open Scope Z_scope.

(** ** SHA-256 ([hashlib.sha256(...).hexdigest()]) *)

Module SHA256.

Definition wrap32 (x : Z) : Z := x mod 4294967296.
Definition add32 (x y : Z) : Z := wrap32 (x + y).
Definition rotr (n x : Z) : Z :=
  Z.lor (Z.shiftr x n) (wrap32 (Z.shiftl x (32 - n))).
Definition not32 (x : Z) : Z := Z.lxor x 4294967295.

Definition Ch (x y z : Z) : Z := Z.lxor (Z.land x y) (Z.land (not32 x) z).
Definition Maj (x y z : Z) : Z :=
  Z.lxor (Z.lxor (Z.land x y) (Z.land x z)) (Z.land y z).
Definition bsig0 (x : Z) : Z := Z.lxor (Z.lxor (rotr 2 x) (rotr 13 x)) (rotr 22 x).
Definition bsig1 (x : Z) : Z := Z.lxor (Z.lxor (rotr 6 x) (rotr 11 x)) (rotr 25 x).
Definition ssig0 (x : Z) : Z := Z.lxor (Z.lxor (rotr 7 x) (rotr 18 x)) (Z.shiftr x 3).
Definition ssig1 (x : Z) : Z := Z.lxor (Z.lxor (rotr 17 x) (rotr 19 x)) (Z.shiftr x 10).

(** Round constants: fractional parts of the cube roots of the first 64
    primes, as 32-bit words. *)
Definition round_constants : list Z :=
[ 1116352408; 1899447441; 3049323471; 3921009573; 961987163; 1508970993;
  2453635748; 2870763221; 3624381080; 310598401; 607225278; 1426881987;
  1925078388; 2162078206; 2614888103; 3248222580; 3835390401; 4022224774;
  264347078; 604807628; 770255983; 1249150122; 1555081692; 1996064986;
  2554220882; 2821834349; 2952996808; 3210313671; 3336571891; 3584528711;
  113926993; 338241895; 666307205; 773529912; 1294757372; 1396182291;
  1695183700; 1986661051; 2177026350; 2456956037; 2730485921; 2820302411;
  3259730800; 3345764771; 3516065817; 3600352804; 4094571909; 275423344;
  430227734; 506948616; 659060556; 883997877; 958139571; 1322822218;
  1537002063; 1747873779; 1955562222; 2024104815; 2227730452; 2361852424;
  2428436474; 2756734187; 3204031479; 3329325298 ].

(** The chaining value: eight 32-bit words. *)
Record chain := Chain { ca : Z; cb : Z; cc : Z; cd : Z; ce : Z; cf : Z; cg : Z; ch : Z }.

Definition initial_chain : chain :=
  Chain 1779033703 3144134277 1013904242 2773480762
        1359893119 2600822924 528734635 1541459225.

(** Big-endian encoding of [x] on [n] bytes. *)
Fixpoint be_bytes (n : nat) (x : Z) : list Z :=
  match n with
  | O => []
  | S n' => (Z.shiftr x (8 * Z.of_nat n')) mod 256 :: be_bytes n' x
  end.

Definition be_word (bs : list Z) : Z :=
  fold_left (fun acc b => acc * 256 + b) bs 0.

(** Padding: a 1 bit, zeros up to 56 mod 64 bytes, the bit length on 8 bytes. *)
Definition pad (msg : list Z) : list Z :=
  let l := Z.of_nat (length msg) in
  msg ++ [128] ++ repeat 0 (Z.to_nat ((55 - l) mod 64)) ++ be_bytes 8 (8 * l).

(** [chunks k n l]: the first [n] consecutive slices of length [k] of [l]. *)
Fixpoint chunks {A} (k n : nat) (l : list A) : list (list A) :=
  match n with
  | O => []
  | S n' => take k l :: chunks k n' (drop k l)
  end.

Definition words_of_bytes (bs : list Z) : list Z :=
  be_word <$> chunks 4 (length bs / 4) bs.

(** Message schedule: [n] more words appended to the words so far. *)
Fixpoint extend_schedule (n : nat) (w : list Z) : list Z :=
  match n with
  | O => w
  | S n' =>
      let t := length w in
      let wt := add32 (add32 (ssig1 (nth (t - 2) w 0)) (nth (t - 7) w 0))
                      (add32 (ssig0 (nth (t - 15) w 0)) (nth (t - 16) w 0)) in
      extend_schedule n' (w ++ [wt])
  end.

Definition round (s : chain) (kw : Z * Z) : chain :=
  let t1 := add32 (add32 (add32 (ch s) (bsig1 (ce s))) (Ch (ce s) (cf s) (cg s)))
                  (add32 (fst kw) (snd kw)) in
  let t2 := add32 (bsig0 (ca s)) (Maj (ca s) (cb s) (cc s)) in
  Chain (add32 t1 t2) (ca s) (cb s) (cc s) (add32 (cd s) t1) (ce s) (cf s) (cg s).

Definition compress (h : chain) (block : list Z) : chain :=
  let w := extend_schedule 48 block in
  let s := fold_left round (combine round_constants w) h in
  Chain (add32 (ca h) (ca s)) (add32 (cb h) (cb s)) (add32 (cc h) (cc s))
        (add32 (cd h) (cd s)) (add32 (ce h) (ce s)) (add32 (cf h) (cf s))
        (add32 (cg h) (cg s)) (add32 (ch h) (ch s)).

Definition digest_words (msg : list Z) : list Z :=
  let ws := words_of_bytes (pad msg) in
  let h := fold_left compress (chunks 16 (length ws / 16) ws) initial_chain in
  [ca h; cb h; cc h; cd h; ce h; cf h; cg h; ch h].

Definition hex_digit (d : Z) : ascii :=
  if d <? 10 then ascii_of_nat (Z.to_nat (48 + d))
  else ascii_of_nat (Z.to_nat (87 + d)).

Fixpoint hex_of (n : nat) (x : Z) : string :=
  match n with
  | O => EmptyString
  | S n' => String (hex_digit ((Z.shiftr x (4 * Z.of_nat n')) mod 16)) (hex_of n' x)
  end.

Definition bytes_of_string (s : string) : list Z :=
  (fun c => Z.of_nat (nat_of_ascii c)) <$> String.list_ascii_of_string s.

Definition hexdigest (s : string) : string :=
  fold_right (fun w acc => hex_of 8 w +:+ acc) EmptyString
             (digest_words (bytes_of_string s)).

End SHA256.

(** ** Events

    An event as the consumers read it from the log, with the fields the
    modelled code reads.  [event_type] and [timestamp] are present.
    [user_id] and [session_id] use the empty string for an absent (or empty)
    value: every use in the modelled code is either a truthiness test or a
    [get] with default [''].  [amount] is the numeric [properties['amount']]
    when the property is present. *)

Record Event := {
  event_id : string;
  user_id : string;
  session_id : string;
  event_type : string;
  timestamp : Z;
  amount : option Q
}.

(** ** Idempotency filter ([AdvancedProcessor.generate_idempotency_key] and
    the check at the head of [AdvancedProcessor.process_event]) *)

Section Idempotency.

(** The module-level constant [STAGE] of the processor. *)
Variable STAGE : string.

(** [f"{event_id}:{user_id}:{timestamp}:{STAGE}"] *)
Definition key_data (e : Event) : string :=
  event_id e +:+ ":" +:+ user_id e +:+ ":" +:+ pretty (timestamp e) +:+ ":" +:+ STAGE.

Definition generate_idempotency_key (e : Event) : string :=
  SHA256.hexdigest (key_data e).

(** [idempotency_cache] with the [idempotency_hits] counter. *)
Record IdempotencyFilter := {
  idempotency_cache : gset string;
  idempotency_hits : nat
}.

Definition new_filter : IdempotencyFilter :=
  {| idempotency_cache := ∅; idempotency_hits := 0 |}.

(** The idempotency check: [false] is the early [return None]. *)
Definition should_process (e : Event) (f : IdempotencyFilter) : bool * IdempotencyFilter :=
  let idem_key := generate_idempotency_key e in
  if decide (idem_key ∈ idempotency_cache f) then
    (false, {| idempotency_cache := idempotency_cache f;
               idempotency_hits := S (idempotency_hits f) |})
  else
    (true, {| idempotency_cache := idempotency_cache f ∪ {[ idem_key ]};
              idempotency_hits := idempotency_hits f |}).

(** A filter's lifetime: the answers to a sequence of checks. *)
Fixpoint should_process_all (es : list Event) (f : IdempotencyFilter) : list bool * IdempotencyFilter :=
  match es with
  | [] => ([], f)
  | e :: es' =>
      let '(b, f1) := should_process e f in
      let '(bs, f2) := should_process_all es' f1 in
      (b :: bs, f2)
  end.

End Idempotency.

Arguments idempotency_cache : clear implicits.
Arguments idempotency_hits : clear implicits.

(** The tuple the key is computed from. *)
Definition key_tuple (STAGE : string) (e : Event) : string * string * Z * string :=
  (event_id e, user_id e, timestamp e, STAGE).

Definition mk_event (eid uid sid ty : string) (ts : Z) (am : option Q) : Event :=
  {| event_id := eid; user_id := uid; session_id := sid; event_type := ty;
     timestamp := ts; amount := am |}.

(** ** Consumer batch loop ([AdvancedProcessor.run], one cycle)

    What [orjson.loads(fields['data'])] makes of a message: it raises on an
    unparseable payload, otherwise it yields the event. *)

Inductive Payload :=
| Malformed (raw : string)
| WellFormed (e : Event).

Record Message := {
  msg_id : string;
  data : Payload
}.

(** Python exceptions that matter to the modelled control flow. *)
Inductive Raised (A : Type) :=
| Return (a : A)
| Raise (what : string).
Arguments Return {A} a.
Arguments Raise {A} what.

Section Consumer.

Variable STAGE : string.

(** The stage-specific part of [process_event] (enrichment, aggregation or
    inference, then pattern detection), producing the [ProcessedEvent]; it
    may raise. *)
Context {ProcessedEvent : Type}.
Variable stage_processing : Event → Raised ProcessedEvent.

(** [process_event]: [Return None] for a duplicate. *)
Definition process_event (e : Event) (f : IdempotencyFilter)
  : Raised (option ProcessedEvent) * IdempotencyFilter :=
  let '(fresh, f') := should_process STAGE e f in
  if fresh then
    match stage_processing e with
    | Return p => (Return (Some p), f')
    | Raise what => (Raise what, f')
    end
  else (Return None, f').

(** State of one cycle of the loop: the filter, the local lists
    [processed_events] and [ack_ids], and the error log. *)
Record Cycle := {
  cycle_filter : IdempotencyFilter;
  processed_events : list ProcessedEvent;
  ack_ids : list (string * string);
  error_log : list string
}.

Definition start_cycle (f : IdempotencyFilter) : Cycle :=
  {| cycle_filter := f; processed_events := []; ack_ids := []; error_log := [] |}.

(** Body of [for msg_id, fields in messages]: the [try] block and its
    [except Exception] handler. *)
Definition handle_message (stream_name : string) (m : Message) (c : Cycle) : Cycle :=
  match data m with
  | Malformed _ =>
      {| cycle_filter := cycle_filter c; processed_events := processed_events c;
         ack_ids := ack_ids c;
         error_log := error_log c ++ [msg_id m] |}
  | WellFormed event_data =>
      match process_event event_data (cycle_filter c) with
      | (Return processed, f') =>
          {| cycle_filter := f';
             processed_events :=
               match processed with
               | Some p => processed_events c ++ [p]
               | None => processed_events c
               end;
             ack_ids := ack_ids c ++ [(stream_name, msg_id m)];
             error_log := error_log c |}
      | (Raise _, f') =>
          {| cycle_filter := f'; processed_events := processed_events c;
             ack_ids := ack_ids c;
             error_log := error_log c ++ [msg_id m] |}
      end
  end.

(** Two cycle states that differ at most in their error log. *)
Definition same_work (c1 c2 : Cycle) : Prop :=
  cycle_filter c1 = cycle_filter c2
  ∧ processed_events c1 = processed_events c2
  ∧ ack_ids c1 = ack_ids c2.

Definition handle_messages (stream_name : string) (ms : list Message) (c : Cycle) : Cycle :=
  fold_left (fun c m => handle_message stream_name m c) ms c.

Definition handle_streams (streams : list (string * list Message)) (c : Cycle) : Cycle :=
  fold_left (fun c sm => handle_messages sm.1 sm.2 c) streams c.

(** Effects of one cycle on the log service: what was appended to the
    output stream and which messages were acknowledged. *)
Record CycleEffects := {
  filter_after : IdempotencyFilter;
  appended : list ProcessedEvent;
  acknowledged : list (string * string);
  logged : list string
}.

(** One cycle on a non-empty read.  [pipeline_ok] tells whether
    [pipeline.execute()] succeeds; when it raises, the outer handler logs
    and nothing is acknowledged. *)
Definition run_cycle (pipeline_ok : bool) (streams : list (string * list Message))
           (f : IdempotencyFilter) : CycleEffects :=
  let c := handle_streams streams (start_cycle f) in
  match processed_events c with
  | [] =>
      {| filter_after := cycle_filter c; appended := [];
         acknowledged := ack_ids c; logged := error_log c |}
  | _ :: _ =>
      if pipeline_ok then
        {| filter_after := cycle_filter c; appended := processed_events c;
           acknowledged := ack_ids c; logged := error_log c |}
      else
        {| filter_after := cycle_filter c; appended := [];
           acknowledged := []; logged := error_log c ++ ["Processing loop error"] |}
  end.

End Consumer.

Arguments Cycle : clear implicits.
Arguments CycleEffects : clear implicits.

(** ** Comparisons and aggregates on rationals *)

Definition Qlt_bool (x y : Q) : bool := if Qlt_le_dec x y then true else false.

(** Python's [max(a, b)] and [min(a, b)]: the first argument wins ties. *)
Definition py_max (a b : Q) : Q := if Qlt_le_dec a b then b else a.
Definition py_min (a b : Q) : Q := if Qlt_le_dec b a then b else a.

Definition Qsum (l : list Q) : Q := fold_left Qplus l 0%Q.

(** [np.mean] of a non-empty list. *)
Definition mean (l : list Q) : Q := (Qsum l / inject_Z (Z.of_nat (length l)))%Q.

(** ** Sliding window ([SlidingWindow]) *)

Module Window.

(** [self.aggregates] after [_update_aggregates]: the four inner
    dictionaries ([defaultdict(float)], an absent key reads as 0). *)
Record Aggregates := {
  counts : gmap string Q;
  total : gmap string Q;
  unique_users : gmap string nat;
  revenue : gmap string Q
}.

(** The loop state of [_update_aggregates]; [users] is the dictionary
    [aggregates['unique_users']] before it is replaced by its size. *)
Record Accumulator := {
  acc_counts : gmap string Q;
  acc_total : gmap string Q;
  acc_users : gset string;
  acc_revenue : gmap string Q
}.

(** [d[k] += x] on a [defaultdict(float)]. *)
Definition incr (k : string) (x : Q) (d : gmap string Q) : gmap string Q :=
  <[k := (default 0 (d !! k) + x)%Q]> d.

Definition empty_accumulator : Accumulator :=
  {| acc_counts := ∅; acc_total := ∅; acc_users := ∅; acc_revenue := ∅ |}.

(** Body of [for timestamp, event in self.events]. *)
Definition accumulate (a : Accumulator) (entry : Q * Event) : Accumulator :=
  let event := entry.2 in
  {| acc_counts := incr (event_type event) 1 (acc_counts a);
     acc_total := incr "events" 1 (acc_total a);
     acc_users :=
       if decide (user_id event = "") then acc_users a
       else acc_users a ∪ {[ user_id event ]};
     acc_revenue :=
       match amount event with
       | Some amt => incr (event_type event) amt (incr "total" amt (acc_revenue a))
       | None => acc_revenue a
       end |}.

Definition _update_aggregates (events : list (Q * Event)) : Aggregates :=
  let a := fold_left accumulate events empty_accumulator in
  {| counts := acc_counts a;
     total := acc_total a;
     unique_users := {[ "count" := size (acc_users a) ]};
     revenue := acc_revenue a |}.

Record SlidingWindow := {
  window_size : Z;
  events : list (Q * Event);
  aggregates : Aggregates
}.

(** [SlidingWindow(window_size)] *)
Definition new_window (window_size : Z) : SlidingWindow :=
  {| window_size := window_size; events := [];
     aggregates := {| counts := ∅; total := ∅; unique_users := ∅; revenue := ∅ |} |}.

(** [while self.events and self.events[0][0] < cutoff_time: popleft()] *)
Fixpoint evict (cutoff_time : Q) (events : list (Q * Event)) : list (Q * Event) :=
  match events with
  | [] => []
  | entry :: rest =>
      if Qlt_le_dec entry.1 cutoff_time then evict cutoff_time rest else events
  end.

(** [add_event]; [current_time] is the value of [time.time()]. *)
Definition add_event (current_time : Q) (event : Event) (w : SlidingWindow) : SlidingWindow :=
  let appended := events w ++ [(current_time, event)] in
  let cutoff_time := (current_time - inject_Z (window_size w))%Q in
  let retained := evict cutoff_time appended in
  {| window_size := window_size w;
     events := retained;
     aggregates := _update_aggregates retained |}.

(** An insertion sequence: the clock reading and the event of each call. *)
Definition add_events (calls : list (Q * Event)) (w : SlidingWindow) : SlidingWindow :=
  fold_left (fun w call => add_event call.1 call.2 w) calls w.

(** The entries of [calls] that are not older than [cutoff_time]. *)
Definition retained_from (cutoff_time : Q) (calls : list (Q * Event)) : list (Q * Event) :=
  List.filter (fun entry => Qle_bool cutoff_time entry.1) calls.

(** What the aggregates are meant to summarise: the entries of one event
    type, the distinct (non-empty) user ids, and the amounts present. *)
Definition entries_of_type (ty : string) (entries : list (Q * Event)) : list (Q * Event) :=
  List.filter (fun entry => bool_decide (event_type entry.2 = ty)) entries.

Definition users_of (entries : list (Q * Event)) : gset string :=
  list_to_set (List.filter (fun u => negb (bool_decide (u = ""))) ((fun entry => user_id entry.2) <$> entries)).

Definition amounts_of (entries : list (Q * Event)) : list Q :=
  omap (fun entry => amount entry.2) entries.

(** A [defaultdict(float)] counter that was incremented [n] times by 1. *)
Definition counted (n : nat) : option Q :=
  match n with
  | O => None
  | S _ => Some (inject_Z (Z.of_nat n))
  end.

(** The clock never runs backwards over the calls. *)
Fixpoint clock_monotone (calls : list (Q * Event)) : Prop :=
  match calls with
  | [] => True
  | c :: rest => Forall (fun c' => (c.1 <= c'.1)%Q) rest ∧ clock_monotone rest
  end.

End Window.

(** ** Complex event processor: the funnel and fraud detectors *)

Module CEP.

(** [list.index]: position of the first occurrence. *)
Fixpoint index (x : string) (l : list string) : option nat :=
  match l with
  | [] => None
  | y :: l' => if decide (y = x) then Some O else S <$> index x l'
  end.

Record FunnelResult := {
  funnel_completed : bool;
  conversion_time : Z;
  steps : nat
}.

Definition _detect_purchase_funnel (events : list Event) : option FunnelResult :=
  let event_types := event_type <$> events in
  if bool_decide ("page_view" ∈ event_types)
     && bool_decide ("click" ∈ event_types)
     && bool_decide ("purchase" ∈ event_types)
  then
    view_idx ← index "page_view" event_types;
    click_idx ← index "click" event_types;
    purchase_idx ← index "purchase" event_types;
    if bool_decide (view_idx < click_idx < purchase_idx)%nat then
      purchase ← events !! purchase_idx;
      view ← events !! view_idx;
      Some {| funnel_completed := true;
              conversion_time := timestamp purchase - timestamp view;
              steps := size (list_to_set event_types : gset string) |}
    else None
  else None.

Record FraudResult := {
  rapid_purchases : bool;
  purchase_count : nat;
  avg_time_between : Q
}.

Definition timestamp_at (purchases : list Event) (i : nat) : Z :=
  from_option timestamp 0 (purchases !! i).

(** [for i in range(1, len(purchases))]: the gaps, in seconds. *)
Definition time_diffs (purchases : list Event) : list Q :=
  (fun i => (inject_Z (timestamp_at purchases i - timestamp_at purchases (i - 1)) / 1000)%Q)
    <$> seq 1 (length purchases - 1).

Definition _detect_fraud_pattern (events : list Event) : option FraudResult :=
  if (length events <? 3)%nat then None
  else
    let purchases := filter (fun e => event_type e = "purchase") events in
    if (3 <=? length purchases)%nat then
      let diffs := time_diffs purchases in
      if forallb (fun diff => Qlt_bool diff 60) diffs then
        Some {| rapid_purchases := true;
                purchase_count := length purchases;
                avg_time_between := mean diffs |}
      else None
    else None.

(** The purchases of a buffer, and the gaps (ms) between consecutive ones. *)
Definition purchases_of (events : list Event) : list Event :=
  filter (fun e => event_type e = "purchase") events.

Fixpoint gaps (purchases : list Event) : list Z :=
  match purchases with
  | a :: (b :: _) as rest => (timestamp b - timestamp a) :: gaps rest
  | _ => []
  end.

(** [i] is the position of the first event of type [ty] in the buffer. *)
Definition first_index (ty : string) (events : list Event) (i : nat) : Prop :=
  event_type <$> events !! i = Some ty
  ∧ ∀ j, (j < i)%nat → event_type <$> events !! j ≠ Some ty.

End CEP.

(** ** Circuit breaker ([CircuitBreaker]) *)

Module Breaker.

(** The three values of [self.state]. *)
Inductive State := closed | opened | half_open.

Record CircuitBreaker := {
  failure_threshold : Z;
  timeout : Z;
  failure_count : Z;
  last_failure_time : option Q;
  state : State
}.

(** [CircuitBreaker(failure_threshold, timeout)]; the defaults are 5 and 60. *)
Definition new_breaker (failure_threshold timeout : Z) : CircuitBreaker :=
  {| failure_threshold := failure_threshold; timeout := timeout;
     failure_count := 0; last_failure_time := None; state := closed |}.

Definition default_breaker : CircuitBreaker := new_breaker 5 60.

(** How a call ends. [CircuitOpen] is [Exception("Circuit breaker is open")];
    [NoFailureTime] is the [TypeError] of subtracting [None], on a breaker
    that is open without a recorded failure. *)
Inductive Outcome (R : Type) :=
| Returned (result : R)
| Failed (what : string)
| CircuitOpen
| NoFailureTime.
Arguments Returned {R} result.
Arguments Failed {R} what.
Arguments CircuitOpen {R}.
Arguments NoFailureTime {R}.

(** The test at the head of [call]; [now] is [time.time()]. *)
Inductive Gate :=
| Proceed (cb : CircuitBreaker)
| Reject
| Broken.

Definition with_state (s : State) (cb : CircuitBreaker) : CircuitBreaker :=
  {| failure_threshold := failure_threshold cb; timeout := timeout cb;
     failure_count := failure_count cb;
     last_failure_time := last_failure_time cb; state := s |}.

Definition gate (cb : CircuitBreaker) (now : Q) : Gate :=
  match state cb with
  | opened =>
      match last_failure_time cb with
      | Some t =>
          if Qlt_le_dec (inject_Z (timeout cb)) (now - t) then Proceed (with_state half_open cb)
          else Reject
      | None => Broken
      end
  | _ => Proceed cb
  end.

Definition on_success (cb : CircuitBreaker) : CircuitBreaker :=
  match state cb with
  | half_open =>
      {| failure_threshold := failure_threshold cb; timeout := timeout cb;
         failure_count := 0;
         last_failure_time := last_failure_time cb; state := closed |}
  | _ => cb
  end.

Definition on_failure (cb : CircuitBreaker) (now : Q) : CircuitBreaker :=
  let count := failure_count cb + 1 in
  {| failure_threshold := failure_threshold cb; timeout := timeout cb;
     failure_count := count;
     last_failure_time := Some now;
     state := if failure_threshold cb <=? count then opened else state cb |}.

Section Call.

(** The wrapped function acts on a world [W] and returns or raises. *)
Context {W R : Type}.

(** [call(func)]: [now] is the clock read by the gate, [now_failed] the
    clock read in the exception handler. *)
Definition call (cb : CircuitBreaker) (now : Q) (func : W → Raised R * W)
           (now_failed : Q) (w : W) : Outcome R * CircuitBreaker * W :=
  match gate cb now with
  | Reject => (CircuitOpen, cb, w)
  | Broken => (NoFailureTime, cb, w)
  | Proceed cb1 =>
      match func w with
      | (Return result, w') => (Returned result, on_success cb1, w')
      | (Raise what, w') => (Failed what, on_failure cb1 now_failed, w')
      end
  end.

Record Call := {
  at_time : Q;
  func : W → Raised R * W;
  failed_at : Q
}.

Definition step (s : list (Outcome R) * CircuitBreaker * W) (c : Call)
  : list (Outcome R) * CircuitBreaker * W :=
  let '(outcomes, cb, w) := s in
  let '(o, cb', w') := call cb (at_time c) (func c) (failed_at c) w in
  (outcomes ++ [o], cb', w').

(** A sequence of calls through one breaker. *)
Definition run (cb : CircuitBreaker) (calls : list Call) (w : W)
  : list (Outcome R) * CircuitBreaker * W :=
  fold_left step calls ([], cb, w).

Definition is_failure (o : Outcome R) : bool :=
  match o with Failed _ => true | _ => false end.

(** Number of calls that the wrapped function failed. *)
Definition failures (outcomes : list (Outcome R)) : Z :=
  Z.of_nat (length (List.filter is_failure outcomes)).

(** The wrapped function raises, whatever the world. *)
Definition always_raises (c : Call) : Prop :=
  ∀ w, ∃ what w', func c w = (Raise what, w').

End Call.

Arguments Call : clear implicits.

End Breaker.

(** ** Adaptive rate limiter ([AdaptiveRateLimiter]) *)

Module Limiter.

Record AdaptiveRateLimiter := {
  base_rate : Z;
  current_rate : Q;
  success_count : Z;
  error_count : Z;
  last_adjustment : Q
}.

(** [AdaptiveRateLimiter(base_rate)], created at time [now]. *)
Definition new_limiter (base_rate : Z) (now : Q) : AdaptiveRateLimiter :=
  {| base_rate := base_rate; current_rate := inject_Z base_rate;
     success_count := 0; error_count := 0; last_adjustment := now |}.

Definition _adjust_rate (rl : AdaptiveRateLimiter) : AdaptiveRateLimiter :=
  let rate :=
    if Qlt_le_dec (inject_Z (success_count rl) * 0.1) (inject_Z (error_count rl)) then
      py_max (current_rate rl * 0.8) (inject_Z (base_rate rl) * 0.1)
    else if Qlt_le_dec (inject_Z (error_count rl)) (inject_Z (success_count rl) * 0.01) then
      py_min (current_rate rl * 1.1) (inject_Z (base_rate rl) * 2)
    else current_rate rl in
  {| base_rate := base_rate rl; current_rate := rate;
     success_count := 0; error_count := 0;
     last_adjustment := last_adjustment rl |}.

(** [should_allow]; [now] is [time.time()] and [draw] is [random.random()].
    The division raises when [base_rate] is 0. *)
Definition should_allow (rl : AdaptiveRateLimiter) (now draw : Q)
  : Raised bool * AdaptiveRateLimiter :=
  let rl' :=
    if Qlt_le_dec 10 (now - last_adjustment rl) then
      let adjusted := _adjust_rate rl in
      {| base_rate := base_rate adjusted; current_rate := current_rate adjusted;
         success_count := success_count adjusted; error_count := error_count adjusted;
         last_adjustment := now |}
    else rl in
  if decide (base_rate rl' = 0) then (Raise "ZeroDivisionError", rl')
  else (Return (Qlt_bool draw (current_rate rl' / inject_Z (base_rate rl'))), rl').

(** The producer's bookkeeping between two adjustments: a written batch
    adds its size to [success_count], a failed cycle adds one to
    [error_count]. *)
Definition record_success (batch : Z) (rl : AdaptiveRateLimiter) : AdaptiveRateLimiter :=
  {| base_rate := base_rate rl; current_rate := current_rate rl;
     success_count := success_count rl + batch; error_count := error_count rl;
     last_adjustment := last_adjustment rl |}.

Definition record_error (rl : AdaptiveRateLimiter) : AdaptiveRateLimiter :=
  {| base_rate := base_rate rl; current_rate := current_rate rl;
     success_count := success_count rl; error_count := error_count rl + 1;
     last_adjustment := last_adjustment rl |}.

(** The rate stays between its floor and its ceiling. *)
Definition within_bounds (rl : AdaptiveRateLimiter) : Prop :=
  0 < base_rate rl
  ∧ (inject_Z (base_rate rl) * 0.1 <= current_rate rl)%Q
  ∧ (current_rate rl <= inject_Z (base_rate rl) * 2)%Q.

End Limiter.

(** ** Anomaly detector ([AdvancedAnomalyDetector]) and its service *)

Module Detector.

(** A number as the detector holds it: a Python [float] or [int], or a
    [numpy.float64].  The latter comes out of [np.mean] and of the learned
    model and is passed on by arithmetic; [orjson.dumps] refuses it. *)
Inductive Num :=
| py (q : Q)
| np (q : Q).

Definition value (n : Num) : Q :=
  match n with
  | py q => q
  | np q => q
  end.

Definition is_numpy (n : Num) : bool :=
  match n with
  | py _ => false
  | np _ => true
  end.

(** Python's [max(a, b)] and [min(a, b)] return one of their arguments, the
    first unless the second is strictly greater (smaller). *)
Definition num_max (a b : Num) : Num := if Qlt_le_dec (value a) (value b) then b else a.
Definition num_min (a b : Num) : Num := if Qlt_le_dec (value b) (value a) then b else a.

(** [baseline['avg_purchase_amount']], written by [update_user_baseline]
    alone: the float 25.0 while the user has no purchase, otherwise what
    [np.mean] returns. *)
Inductive Average :=
| no_purchases
| purchase_mean (m : Q).

Definition user_average (a : Average) : Num :=
  match a with
  | no_purchases => py 25
  | purchase_mean m => np m
  end.

(** [self.user_baselines[user_id]]. *)
Record Baseline := {
  baseline_events : list Event;
  sessions : gset string;
  purchases : list Q;
  last_seen : Q;
  avg_session_events : Q;
  avg_purchase_amount : Average;
  sessions_count : nat
}.

(** One entry of the [anomalies] dictionary: its key, its ['score'] and its
    other numeric fields. *)
Record Anomaly := {
  anomaly_name : string;
  score : Num;
  details : list (string * Num)
}.

(** The analysis result; an [AnomalyRecord] once stored.  ['is_anomaly'] is
    the outcome of a comparison with the combined score (a [numpy.bool_]
    when that score is a [numpy.float64]). *)
Record Analysis := {
  analysis_event_id : string;
  analysis_user_id : string;
  analysis_timestamp : Z;
  ml_anomaly_score : Num;
  behavioral_anomalies : list Anomaly;
  combined_anomaly_score : Num;
  is_anomaly : bool;
  analysis_model_version : nat
}.

(** The detector.  Of [feature_buffer] (a [deque(maxlen=10000)] of feature
    vectors) only the length is kept: the vectors are read by the learned
    model alone. *)
Record Detector := {
  feature_buffer : Z;
  anomaly_buffer : list Analysis;
  is_trained : bool;
  model_version : nat;
  user_baselines : gmap string Baseline
}.

Definition new_detector : Detector :=
  {| feature_buffer := 0; anomaly_buffer := []; is_trained := false;
     model_version := 1; user_baselines := ∅ |}.

(** [global_baseline['avg_purchase_amount']] *)
Definition global_avg_purchase_amount : Q := 50.

(** Truthiness of [properties.get('amount', 0)], as a float. *)
Definition amount_of (event : Event) : option Q :=
  match amount event with
  | Some a => if Qeq_bool a 0 then None else Some a
  | None => None
  end.

(** [e.get('timestamp', 0) / 1000 > bound] *)
Definition newer_than (bound : Q) (e : Event) : bool :=
  Qlt_bool bound (inject_Z (timestamp e) / 1000).

(** [update_user_baseline]; [now] is [time.time()]. *)
Definition update_user_baseline (now : Q) (event : Event)
           (baselines : gmap string Baseline) : gmap string Baseline :=
  if decide (user_id event = "") then baselines
  else
    let b :=
      default {| baseline_events := []; sessions := ∅; purchases := [];
                 last_seen := now; avg_session_events := 0;
                 avg_purchase_amount := no_purchases; sessions_count := 0 |}
              (baselines !! user_id event) in
    let events1 := baseline_events b ++ [event] in
    let sessions1 :=
      if decide (session_id event = "") then sessions b
      else sessions b ∪ {[ session_id event ]} in
    let purchases1 :=
      if decide (event_type event = "purchase") then
        match amount_of event with
        | Some a => purchases b ++ [a]
        | None => purchases b
        end
      else purchases b in
    <[ user_id event :=
         {| baseline_events := List.filter (newer_than (now - 7 * 24 * 3600)) events1;
            sessions := sessions1;
            purchases := purchases1;
            last_seen := now;
            avg_session_events :=
              (inject_Z (Z.of_nat (length events1))
               / inject_Z (Z.of_nat (Nat.max 1 (size sessions1))))%Q;
            avg_purchase_amount :=
              match purchases1 with
              | [] => no_purchases
              | _ :: _ => purchase_mean (mean purchases1)
              end;
            sessions_count := size sessions1 |} ]> baselines.

(** UTC hour of an epoch-millisecond timestamp. *)
Definition hour_of (ts : Z) : Z := (ts / 3600000) mod 24.

(** [min(1.0, amount / (user_avg * 10))].  With a [numpy.float64] average
    the quotient is one too, and a zero divisor yields infinity (the amount
    is positive there), so that the minimum is the float 1.0. *)
Definition unusual_purchase_score (a : Q) (avg : Average) : Num :=
  match avg with
  | no_purchases => num_min (py 1) (py (a / (25 * 10)))
  | purchase_mean m =>
      if Qeq_bool (m * 10) 0 then py 1 else num_min (py 1) (np (a / (m * 10)))
  end.

(** [detect_behavioral_anomalies]; the list is the dictionary in insertion
    order. *)
Definition detect_behavioral_anomalies (now : Q) (event : Event)
           (baselines : gmap string Baseline) : list Anomaly :=
  let rapid_fire :=
    match baselines !! user_id event with
    | Some b =>
        let recent_events := List.filter (newer_than (now - 60)) (baseline_events b) in
        let n := inject_Z (Z.of_nat (length recent_events)) in
        if (20 <? length recent_events)%nat then
          [ {| anomaly_name := "rapid_fire"; score := num_min (py 1) (py (n / 50));
               details := [("events_per_minute"%string, py n)] |} ]
        else []
    | None => []
    end in
  let purchase :=
    if decide (event_type event = "purchase") then
      match amount_of event with
      | Some a =>
          (match baselines !! user_id event with
           | Some b =>
               let user_avg := user_average (avg_purchase_amount b) in
               if Qlt_bool (value user_avg * 5) a then
                 [ {| anomaly_name := "unusual_purchase";
                      score := unusual_purchase_score a (avg_purchase_amount b);
                      details := [("amount"%string, py a);
                                  ("user_average"%string, user_avg)] |} ]
               else []
           | None => []
           end)
          ++ (if Qlt_bool (global_avg_purchase_amount * 10) a then
                [ {| anomaly_name := "high_value_purchase";
                     score := num_min (py 1) (py (a / 1000));
                     details := [("amount"%string, py a)] |} ]
              else [])
      | None => []
      end
    else [] in
  let hour := hour_of (timestamp event) in
  let unusual_time :=
    if (hour <? 6) || (23 <? hour) then
      [ {| anomaly_name := "unusual_time"; score := py 0.3;
           details := [("hour"%string, py (inject_Z hour))] |} ]
    else [] in
  rapid_fire ++ purchase ++ unusual_time.

(** [train_model]; [fit_ok] tells whether scaling and fitting succeed. *)
Definition train_model (fit_ok : bool) (d : Detector) : Detector :=
  if feature_buffer d <? 100 then d
  else if fit_ok then
    {| feature_buffer := feature_buffer d; anomaly_buffer := anomaly_buffer d;
       is_trained := true; model_version := S (model_version d);
       user_baselines := user_baselines d |}
  else d.

(** [max(scores, default=0)] *)
Definition max_default (scores : list Num) : Num :=
  match scores with
  | [] => py 0
  | s :: rest => fold_left num_max rest s
  end.

(** [deque(maxlen=n).append] *)
Definition bounded_append {A} (n : nat) (l : list A) (x : A) : list A :=
  let l' := l ++ [x] in drop (length l' - n) l'.

(** The numbers of an analysis that [orjson.dumps] has to write. *)
Definition numbers_of (analysis : Analysis) : list Num :=
  ml_anomaly_score analysis
  :: flat_map (fun a => score a :: (details a).*2) (behavioral_anomalies analysis)
  ++ [combined_anomaly_score analysis].

(** [orjson.dumps(analysis)]: a [TypeError] on a [numpy.float64] anywhere in
    the dictionary; the stored payload is modelled by the analysis. *)
Definition orjson_dumps (analysis : Analysis) : Raised Analysis :=
  if existsb is_numpy (numbers_of analysis)
  then Raise "Type is not JSON serializable: numpy.float64"
  else Return analysis.

(** The detector once the baseline of the event's user is updated. *)
Definition with_baseline (now : Q) (event : Event) (d : Detector) : Detector :=
  {| feature_buffer := feature_buffer d;
     anomaly_buffer := anomaly_buffer d;
     is_trained := is_trained d; model_version := model_version d;
     user_baselines := update_user_baseline now event (user_baselines d) |}.

(** The detector once the features of the event are buffered as well. *)
Definition with_features (now : Q) (event : Event) (d : Detector) : Detector :=
  {| feature_buffer := Z.min 10000 (feature_buffer d + 1);
     anomaly_buffer := anomaly_buffer d;
     is_trained := is_trained d; model_version := model_version d;
     user_baselines := update_user_baseline now event (user_baselines d) |}.

Section Inference.

(** [extract_features], reading the baselines and the event; it raises on
    what the event may carry outside this model's fields (a null
    [causality_chain], as every [page_view] of the advanced producer has;
    a timestamp that pandas cannot represent). *)
Context {Features : Type}.
Variable extract_features : gmap string Baseline → Event → Raised Features.

(** [isolation_forest.decision_function] on the scaled features of the
    event, for the model and baselines of the detector; inference may
    raise. *)
Variable decision_function : Detector → Event → Raised Q.

Definition get_ml_anomaly_score (d : Detector) (event : Event) : Num :=
  if is_trained d then
    match decision_function d event with
    | Return s => num_max (py 0) (num_min (py 1) (np ((0.5 - s) / 1)))
    | Raise _ => py 0
    end
  else py 0.

(** [analyze_event]; every clock read of one analysis returns [now].  An
    exception of [extract_features] leaves the method after the baseline
    update. *)
Definition analyze_event (now : Q) (event : Event) (d : Detector)
  : Raised Analysis * Detector :=
  match extract_features (update_user_baseline now event (user_baselines d)) event with
  | Raise what => (Raise what, with_baseline now event d)
  | Return _ =>
      let d1 := with_features now event d in
      let ml_score := get_ml_anomaly_score d1 event in
      let anomalies := detect_behavioral_anomalies now event (user_baselines d1) in
      let max_behavioral_score := max_default (score <$> anomalies) in
      let combined_score := num_max ml_score max_behavioral_score in
      let result :=
        {| analysis_event_id := event_id event;
           analysis_user_id := user_id event;
           analysis_timestamp := timestamp event;
           ml_anomaly_score := ml_score;
           behavioral_anomalies := anomalies;
           combined_anomaly_score := combined_score;
           is_anomaly := Qlt_bool 0.7 (value combined_score);
           analysis_model_version := model_version d1 |} in
      (Return result,
       {| feature_buffer := feature_buffer d1;
          anomaly_buffer :=
            if Qlt_bool 0.5 (value combined_score)
            then bounded_append 1000 (anomaly_buffer d1) result
            else anomaly_buffer d1;
          is_trained := is_trained d1; model_version := model_version d1;
          user_baselines := user_baselines d1 |})
  end.

(** The two operations that change the detector: an analysis, and a
    training attempt (made by the service when a read returns nothing). *)
Inductive Op :=
| Analyze (now : Q) (event : Event)
| Train (fit_ok : bool).

Definition apply_op (d : Detector) (op : Op) : Detector :=
  match op with
  | Analyze now event => (analyze_event now event d).2
  | Train fit_ok => train_model fit_ok d
  end.

Definition run_ops (ops : list Op) (d : Detector) : Detector :=
  fold_left apply_op ops d.

(** The external store as the service uses it: hashes, their expiry in
    seconds, and the alert stream. *)
Record Store := {
  hashes : gmap string Analysis;
  expiry : gmap string Z;
  anomaly_alerts : list Analysis;
  acked : list string
}.

Definition empty_store : Store :=
  {| hashes := ∅; expiry := ∅; anomaly_alerts := []; acked := [] |}.

(** [store_anomaly]: [orjson.dumps] for the mapping, then [hset], [expire],
    [xadd], all in a [try] block.  [fails_at] is the position of the first
    store call that raises, if any; the handler logs and returns. *)
Definition store_anomaly (fails_at : option nat) (analysis : Analysis) (s : Store) : Store :=
  match orjson_dumps analysis with
  | Raise _ => s
  | Return stored =>
      let anomaly_key := "anomaly:" +:+ analysis_event_id analysis in
      let reached (k : nat) :=
        match fails_at with Some i => (k <? i)%nat | None => true end in
      {| hashes := if reached 0%nat then <[anomaly_key := stored]> (hashes s) else hashes s;
         expiry := if reached 1%nat then <[anomaly_key := 86400]> (expiry s) else expiry s;
         anomaly_alerts :=
           if reached 2%nat then anomaly_alerts s ++ [stored] else anomaly_alerts s;
         acked := acked s |}
  end.

(** Body of the message loop of [process_events] for one message: an
    exception of the parse or of the analysis is logged by the handler and
    the message is not acknowledged. *)
Definition process_message (now : Q) (fails_at : option nat) (m : Message)
           (ds : Detector * Store) : Detector * Store :=
  match data m with
  | Malformed _ => ds
  | WellFormed original_event =>
      match analyze_event now original_event ds.1 with
      | (Raise _, d') => (d', ds.2)
      | (Return analysis, d') =>
          let s1 := if is_anomaly analysis then store_anomaly fails_at analysis ds.2
                    else ds.2 in
          (d', {| hashes := hashes s1; expiry := expiry s1;
                  anomaly_alerts := anomaly_alerts s1;
                  acked := acked s1 ++ [msg_id m] |})
      end
  end.

End Inference.

End Detector.

(** * Further parts of the code *)

(** ** Consumer: the messages of a read *)

(** The (stream, id) pairs of the messages of a read whose payload parses. *)
Definition well_formed_ids (streams : list (string * list Message)) : list (string * string) :=
  flat_map (fun sm =>
              flat_map (fun m => match data m with
                                 | WellFormed _ => [(sm.1, msg_id m)]
                                 | Malformed _ => []
                                 end) sm.2)
           streams.

(** The events, and the acknowledgeable ids, of the messages of one stream. *)
Definition message_events (ms : list Message) : list Event :=
  flat_map (fun m => match data m with WellFormed e => [e] | Malformed _ => [] end) ms.

Definition message_ids (stream : string) (ms : list Message) : list (string * string) :=
  flat_map (fun m => match data m with
                     | WellFormed _ => [(stream, msg_id m)]
                     | Malformed _ => []
                     end) ms.

(** The events of a read. *)
Definition events_of (streams : list (string * list Message)) : list Event :=
  flat_map (fun sm =>
              flat_map (fun m => match data m with
                                 | WellFormed e => [e]
                                 | Malformed _ => []
                                 end) sm.2)
           streams.

(** ** Complex event processor: churn detector and [process_event] *)

Module Patterns.

Record ChurnResult := {
  churn_risk : bool;
  engagement_decline : Q;
  recent_activity : Q
}.

(** [e.get('timestamp', 0) / 1000 <= bound] *)
Definition not_newer_than (bound : Q) (e : Event) : bool :=
  Qle_bool (inject_Z (timestamp e) / 1000) bound.

(** [_detect_churn_risk]; [now_recent] and [now_older] are the two reads of
    [time.time()], in the two list comprehensions. *)
Definition _detect_churn_risk (now_recent now_older : Q) (events : list Event)
  : option ChurnResult :=
  match events with
  | [] => None
  | _ :: _ =>
      let recent_events := List.filter (Detector.newer_than (now_recent - 86400)) events in
      let older_events := List.filter (not_newer_than (now_older - 86400)) events in
      if (0 <? length older_events)%nat then
        let recent_rate := (inject_Z (Z.of_nat (length recent_events)) / 1)%Q in
        let older_rate :=
          (inject_Z (Z.of_nat (length older_events))
           / py_max 1 (inject_Z (Z.of_nat (length older_events)) / 10))%Q in
        if Qlt_bool recent_rate (older_rate * 0.3) then
          Some {| churn_risk := true;
                  engagement_decline := ((older_rate - recent_rate) / older_rate)%Q;
                  recent_activity := recent_rate |}
        else None
      else None
  end.

(** How an id prints inside an f-string.  The event model's empty string
    stands for an absent id, which prints as [None]; an id that is present
    but empty is not represented apart. *)
Definition id_text (s : string) : string :=
  if decide (s = "") then "None" else s.

(** [f"{user_id}:{session_id}"] *)
Definition buffer_key (event : Event) : string :=
  id_text (user_id event) +:+ ":" +:+ id_text (session_id event).

(** The [detected_patterns] dictionary: a pattern is a key exactly when its
    detector returned a result. *)
Record Detected := {
  purchase_funnel : option CEP.FunnelResult;
  fraud_pattern : option CEP.FraudResult;
  churn : option ChurnResult
}.

(** [ComplexEventProcessor.process_event]; [now] is the clock read for the
    30-minute cutoff, [now_recent] and [now_older] those of the churn
    detector. *)
Definition process_event (now now_recent now_older : Q) (event : Event)
           (pattern_buffer : gmap string (list Event))
  : Detected * gmap string (list Event) :=
  let key := buffer_key event in
  let appended := default [] (pattern_buffer !! key) ++ [event] in
  let cutoff_time := (now - 1800)%Q in
  let kept := List.filter (Detector.newer_than cutoff_time) appended in
  ({| purchase_funnel := CEP._detect_purchase_funnel kept;
      fraud_pattern := CEP._detect_fraud_pattern kept;
      churn := _detect_churn_risk now_recent now_older kept |},
   <[key := kept]> pattern_buffer).

End Patterns.

(** ** The processor's own anomaly model ([MLAnomalyDetector]) *)

Module StageModel.

Section Model.

(** Feature vectors, [extract_features], and the score of the fitted forest
    ([decision_function] after [fit] on a training set). *)
Context {Features : Type}.
Variable extract_features : Event → Features.
Variable decision_function : list Features → Features → Q.

Record MLAnomalyDetector := {
  feature_buffer : list Features;
  is_trained : bool;
  fitted_on : list Features
}.

Definition new_model : MLAnomalyDetector :=
  {| feature_buffer := []; is_trained := false; fitted_on := [] |}.

(** [update_model]: the buffer is a [deque(maxlen=1000)].  Scaling and
    fitting are taken to succeed (an exception of theirs would leave the
    method). *)
Definition update_model (event : Event) (m : MLAnomalyDetector) : MLAnomalyDetector :=
  let buffer := Detector.bounded_append 1000 (feature_buffer m) (extract_features event) in
  if (100 <=? length buffer)%nat && (length buffer mod 50 =? 0)%nat then
    {| feature_buffer := buffer; is_trained := true; fitted_on := buffer |}
  else
    {| feature_buffer := buffer; is_trained := is_trained m; fitted_on := fitted_on m |}.

Definition get_anomaly_score (m : MLAnomalyDetector) (event : Event) : Q :=
  if is_trained m then
    let s := decision_function (fitted_on m) (extract_features event) in
    py_max 0 (py_min 1 ((0.5 - s) / 1))
  else 0.

(** The [ml_inference] stage of [AdvancedProcessor.process_event]: the
    scores it reports, and the model after the update. *)
Definition ml_inference (event : Event) (m : MLAnomalyDetector)
  : (Q * bool) * MLAnomalyDetector :=
  let m' := update_model event m in
  let anomaly_score := get_anomaly_score m' event in
  ((anomaly_score, Qlt_bool 0.7 anomaly_score), m').

Definition update_all (events : list Event) (m : MLAnomalyDetector) : MLAnomalyDetector :=
  fold_left (fun m e => update_model e m) events m.

End Model.

(** The number of updates after which the model was last fitted, once [n]
    updates have been made: none before the 100th, then every 50th, then
    (the buffer being full) every one. *)
Definition last_training (n : nat) : nat :=
  if (n <? 100)%nat then 0%nat
  else if (n <? 1000)%nat then (50 * (n / 50))%nat
  else n.

End StageModel.

(** ** Circuit breaker: the states a breaker can be in between calls *)

Definition breaker_consistent (cb : Breaker.CircuitBreaker) : Prop :=
  match Breaker.state cb with
  | Breaker.closed => Breaker.failure_count cb < Breaker.failure_threshold cb
  | Breaker.opened =>
      Breaker.failure_threshold cb ≤ Breaker.failure_count cb
      ∧ is_Some (Breaker.last_failure_time cb)
  | Breaker.half_open => False
  end.

(** ** Rate limiter: a sequence of operations *)

Inductive LimiterOp :=
| Allow (now draw : Q)
| Succeeded (batch : Z)
| Errored.

Definition limiter_step (rl : Limiter.AdaptiveRateLimiter) (op : LimiterOp)
  : Limiter.AdaptiveRateLimiter :=
  match op with
  | Allow now draw => (Limiter.should_allow rl now draw).2
  | Succeeded batch => Limiter.record_success batch rl
  | Errored => Limiter.record_error rl
  end.

Definition limiter_run (ops : list LimiterOp) (rl : Limiter.AdaptiveRateLimiter)
  : Limiter.AdaptiveRateLimiter :=
  fold_left limiter_step ops rl.

(** An operation that records no error (and a batch of no negative size). *)
Definition error_free (op : LimiterOp) : Prop :=
  match op with
  | Allow _ _ => True
  | Succeeded batch => 0 ≤ batch
  | Errored => False
  end.

(** No error recorded since the last adjustment, and the rate not below the
    base rate. *)
Definition unthrottled (rl : Limiter.AdaptiveRateLimiter) : Prop :=
  Limiter.within_bounds rl ∧ Limiter.error_count rl = 0 ∧ 0 ≤ Limiter.success_count rl
  ∧ (inject_Z (Limiter.base_rate rl) <= Limiter.current_rate rl)%Q.

(** ** The producer loop ([AdvancedEventProducer.run]) *)

Module Producer.

Record AdvancedEventProducer := {
  circuit_breaker : Breaker.CircuitBreaker;
  rate_limiter : Limiter.AdaptiveRateLimiter
}.

(** [AdvancedEventProducer()], created at time [now] with [BASE_RATE]. *)
Definition new_producer (BASE_RATE : Z) (now : Q) : AdvancedEventProducer :=
  {| circuit_breaker := Breaker.default_breaker;
     rate_limiter := Limiter.new_limiter BASE_RATE now |}.

(** What one pass of the loop reads from outside: the clock and the random
    draw of [should_allow], the number of generated events, what awaiting
    the write of the batch yields, and the clock reads of the breaker. *)
Record Pass := {
  now : Q;
  draw : Q;
  batch : Z;
  write : Raised bool;
  breaker_now : Q;
  breaker_failed : Q
}.

(** [self.produce_batch] is a coroutine function: called by the breaker it
    returns a coroutine object, without running anything.  The object is
    modelled by what awaiting it yields. *)
Definition produce_batch (i : Pass) (w : unit) : Raised (Raised bool) * unit :=
  (Return (write i), w).

Definition with_limiter (rl : Limiter.AdaptiveRateLimiter) (p : AdvancedEventProducer)
  : AdvancedEventProducer :=
  {| circuit_breaker := circuit_breaker p; rate_limiter := rl |}.

(** One pass of the [while True] loop, with its [except Exception] handler. *)
Definition pass (p : AdvancedEventProducer) (i : Pass) : AdvancedEventProducer :=
  match Limiter.should_allow (rate_limiter p) (now i) (draw i) with
  | (Raise _, rl) => with_limiter (Limiter.record_error rl) p
  | (Return false, rl) => with_limiter rl p
  | (Return true, rl) =>
      match Breaker.call (circuit_breaker p) (breaker_now i) (produce_batch i)
                         (breaker_failed i) tt with
      | (Breaker.Returned coroutine, cb, _) =>
          match coroutine with
          | Return success =>
              {| circuit_breaker := cb;
                 rate_limiter := if success then Limiter.record_success (batch i) rl else rl |}
          | Raise _ =>
              {| circuit_breaker := cb; rate_limiter := Limiter.record_error rl |}
          end
      | (_, cb, _) =>
          {| circuit_breaker := cb; rate_limiter := Limiter.record_error rl |}
      end
  end.

Definition run (passes : list Pass) (p : AdvancedEventProducer) : AdvancedEventProducer :=
  fold_left pass passes p.

End Producer.

(** ** Anomaly detector: runs and batches *)

(** Whether a computation returned. *)
Definition returns {A} (r : Raised A) : bool :=
  match r with
  | Return _ => true
  | Raise _ => false
  end.

(** The purchases recorded for the user of an event, before its analysis. *)
Definition earlier_purchases (event : Event) (d : Detector.Detector) : list Q :=
  match Detector.user_baselines d !! user_id event with
  | Some b => Detector.purchases b
  | None => []
  end.

(** The events analysed by the operations, in order. *)
Definition analysed (ops : list Detector.Op) : list Event :=
  flat_map (fun op => match op with
                      | Detector.Analyze _ event => [event]
                      | Detector.Train _ => []
                      end) ops.

(** The amounts a user's purchases contribute to the baseline. *)
Definition purchase_amounts (user : string) (events : list Event) : list Q :=
  omap (fun e => if decide (user_id e = user ∧ event_type e = "purchase")
                 then Detector.amount_of e else None) events.

(** The session ids a user's events contribute to the baseline. *)
Definition session_ids (user : string) (events : list Event) : gset string :=
  list_to_set
    (omap (fun e => if decide (user_id e = user ∧ session_id e ≠ "")
                    then Some (session_id e) else None) events).

(** One message of a read of the detector service, with the clock of its
    analysis and the fate of the store writes. *)
Record Delivery := {
  delivered_at : Q;
  store_fails_at : option nat;
  message : Message
}.

Definition ids_of_well_formed (deliveries : list Delivery) : list string :=
  flat_map (fun dl => match data (message dl) with
                      | WellFormed _ => [msg_id (message dl)]
                      | Malformed _ => []
                      end) deliveries.

(** The analyses a read asks of the detector. *)
Definition analyses_of (deliveries : list Delivery) : list Detector.Op :=
  flat_map (fun dl => match data (message dl) with
                      | WellFormed original_event =>
                          [Detector.Analyze (delivered_at dl) original_event]
                      | Malformed _ => []
                      end) deliveries.

(** [f"anomaly:{analysis['event_id']}"] *)
Definition anomaly_key (analysis : Detector.Analysis) : string :=
  "anomaly:" +:+ Detector.analysis_event_id analysis.

Section DetectorBatch.

Context {Features : Type}.
Variable extract_features : gmap string Detector.Baseline → Event → Raised Features.
Variable decision_function : Detector.Detector → Event → Raised Q.

(** What the analyses of a run gave, in order: an analysis, or the
    exception that ended it. *)
Fixpoint outcomes (ops : list Detector.Op) (d : Detector.Detector)
  : list (Raised Detector.Analysis) :=
  match ops with
  | [] => []
  | Detector.Analyze now event :: ops =>
      let r := Detector.analyze_event extract_features decision_function now event d in
      r.1 :: outcomes ops r.2
  | Detector.Train fit_ok :: ops => outcomes ops (Detector.train_model fit_ok d)
  end.

(** The number of analyses of a run that returned. *)
Definition returned (ops : list Detector.Op) (d : Detector.Detector) : Z :=
  Z.of_nat (length (List.filter returns (outcomes ops d))).

(** The message loop of [process_events] over the messages of a read. *)
Definition process_messages (deliveries : list Delivery)
           (ds : Detector.Detector * Detector.Store) : Detector.Detector * Detector.Store :=
  fold_left (fun ds dl =>
               Detector.process_message extract_features decision_function
                                        (delivered_at dl) (store_fails_at dl) (message dl) ds)
            deliveries ds.

End DetectorBatch.

(** * Properties *)

(** ** SHA-256 test vectors *)

Example sha256_empty :
  SHA256.hexdigest "" =
  "e3b0c44298fc1c149afbf4c8996fb92427ae41e4649b934ca495991b7852b855"%string.
Proof. vm_compute. reflexivity. Qed.

Example sha256_abc :
  SHA256.hexdigest "abc" =
  "ba7816bf8f01cfea414140de5dae2223b00361a396177a9cb410ff61f20015ad"%string.
Proof. vm_compute. reflexivity. Qed.

Example sha256_two_blocks :
  SHA256.hexdigest "yyyyyyyyyyyyyyyyyyyyyyyyyyyyyyyyyyyyyyyyyyyyyyyyyyyyyyyyyyyyyyyyyyyyyy" =
  "a76b8d1930534c3d2d4d45acad2662b790d51f36d0743a8e5a958a0d1712292f"%string.
Proof. vm_compute. reflexivity. Qed.

Example key_data_example :
  key_data "enrichment" (mk_event "a" "b:c" "s" "click" 1 None) = "a:b:c:1:enrichment"%string
  /\ key_data "enrichment" (mk_event "e" "u" "s" "click" (-12) None) = "e:u:-12:enrichment"%string
  /\ generate_idempotency_key "enrichment" (mk_event "a" "b:c" "s" "click" 1 None)
     = "452d322f4559fc699a45057a0fb8e546f98f291fd774bc3990608f5d7bd4ea92"%string.
Proof. vm_compute. auto. Qed.

(** ** Idempotency filter *)

(** The digest is only ever run by [vm_compute]; proofs treat it as a black
    box. *)
Opaque SHA256.hexdigest.

Section IdempotencyFacts.

Variable STAGE : string.

Local Abbreviation key := (generate_idempotency_key STAGE).
Local Abbreviation check := (should_process STAGE).
Local Abbreviation check_all := (should_process_all STAGE).

Lemma key_of_tuple (e e' : Event) :
  key_tuple STAGE e' = key_tuple STAGE e → key e' = key e.
Proof.
  unfold key_tuple, generate_idempotency_key, key_data.
  intros H. injection H as -> -> ->. reflexivity.
Qed.

Lemma should_process_fresh (e : Event) (f : IdempotencyFilter) :
  key e ∉ idempotency_cache f →
  check e f = (true, {| idempotency_cache := idempotency_cache f ∪ {[ key e ]};
                        idempotency_hits := idempotency_hits f |}).
Proof. intros H. unfold should_process. rewrite decide_False; done. Qed.

Lemma should_process_seen (e : Event) (f : IdempotencyFilter) :
  key e ∈ idempotency_cache f →
  check e f = (false, {| idempotency_cache := idempotency_cache f;
                         idempotency_hits := S (idempotency_hits f) |}).
Proof. intros H. unfold should_process. rewrite decide_True; done. Qed.

Lemma should_process_cache (e : Event) (f : IdempotencyFilter) :
  idempotency_cache (check e f).2 = idempotency_cache f ∪ {[ key e ]}.
Proof.
  unfold should_process. case_decide; simpl; set_solver.
Qed.

Lemma should_process_all_cache (es : list Event) (f : IdempotencyFilter) :
  idempotency_cache (check_all es f).2
  = idempotency_cache f ∪ list_to_set (key <$> es).
Proof.
  revert f. induction es as [|e es IH]; intros f; simpl.
  - set_solver.
  - pose proof (should_process_cache e f) as Hc.
    destruct (check e f) as [b f1]. simpl in Hc.
    specialize (IH f1). destruct (check_all es f1) as [bs f2]. simpl in *.
    rewrite IH, Hc. set_solver.
Qed.

Lemma should_process_all_length (es : list Event) (f : IdempotencyFilter) :
  length (check_all es f).1 = length es.
Proof.
  revert f. induction es as [|e es IH]; intros f; simpl; [done|].
  destruct (check e f) as [b f1]. specialize (IH f1).
  destruct (check_all es f1) as [bs f2]. simpl in *. by rewrite IH.
Qed.

End IdempotencyFacts.

(** C3 (as stated, refuted).  Two events whose tuples differ, but whose
    colon-joined key data coincide: the first check of the second tuple is
    answered [false]. *)
Lemma C3_distinct_tuples_collide :
  let e1 := mk_event "a" "b:c" "s" "click" 1 None in
  let e2 := mk_event "a:b" "c" "s" "click" 1 None in
  key_tuple "enrichment" e1 ≠ key_tuple "enrichment" e2
  ∧ (should_process_all "enrichment" [e1; e2] (new_filter)).1 = [true; false].
Proof.
  intros e1 e2. split.
  - discriminate.
  - assert (Hk : generate_idempotency_key "enrichment" e2
                 = generate_idempotency_key "enrichment" e1) by reflexivity.
    cbn [should_process_all].
    rewrite (should_process_fresh "enrichment" e1 new_filter)
      by apply not_elem_of_empty.
    rewrite should_process_seen
      by (cbn [idempotency_cache]; rewrite Hk; apply elem_of_union_r, elem_of_singleton; reflexivity).
    reflexivity.
Qed.

(** C3 (amended).  Within a filter's lifetime (any checks [pre] made before,
    any checks [post] made after), the check of an event is answered [true]
    exactly when its idempotency key is new to the filter; a [true] answer
    inserts the key, a [false] answer leaves the cache as it was and counts a
    hit; every later check of an event with the same
    (event_id, user_id, timestamp, stage) tuple is answered [false] without
    changing the cache; and the key is a function of that tuple. *)
Theorem C3_idempotency_by_key (STAGE : string) (f : IdempotencyFilter) (pre : list Event) (e : Event) :
  let k := generate_idempotency_key STAGE e in
  let f0 := (should_process_all STAGE pre f).2 in
  let r := should_process STAGE e f0 in
  (∀ e', key_tuple STAGE e' = key_tuple STAGE e → generate_idempotency_key STAGE e' = k)
  ∧ (r.1 = true ↔
       ((k ∉ idempotency_cache f) ∧ (∀ e', e' ∈ pre → generate_idempotency_key STAGE e' ≠ k)))
  ∧ (r.1 = true →
       idempotency_cache r.2 = idempotency_cache f0 ∪ {[ k ]}
       ∧ idempotency_hits r.2 = idempotency_hits f0)
  ∧ (r.1 = false →
       idempotency_cache r.2 = idempotency_cache f0
       ∧ idempotency_hits r.2 = S (idempotency_hits f0))
  ∧ (∀ post e', key_tuple STAGE e' = key_tuple STAGE e →
       let f2 := (should_process_all STAGE post r.2).2 in
       should_process STAGE e' f2
       = (false, {| idempotency_cache := idempotency_cache f2;
                    idempotency_hits := S (idempotency_hits f2) |})).
Proof.
  intros k f0 r.
  assert (Hf0 : idempotency_cache f0
                = idempotency_cache f ∪ list_to_set (generate_idempotency_key STAGE <$> pre))
    by apply should_process_all_cache.
  assert (Hr : idempotency_cache r.2 = idempotency_cache f0 ∪ {[ k ]})
    by apply should_process_cache.
  assert (Hseen : k ∈ idempotency_cache f0 →
                  r = (false, {| idempotency_cache := idempotency_cache f0;
                                 idempotency_hits := S (idempotency_hits f0) |}))
    by apply should_process_seen.
  assert (Hfresh : k ∉ idempotency_cache f0 →
                   r = (true, {| idempotency_cache := idempotency_cache f0 ∪ {[ k ]};
                                 idempotency_hits := idempotency_hits f0 |}))
    by apply should_process_fresh.
  assert (Hkey : ∀ e', key_tuple STAGE e' = key_tuple STAGE e →
                       generate_idempotency_key STAGE e' = k)
    by (intros e' He'; by apply key_of_tuple).
  assert (Hlater : ∀ post e', key_tuple STAGE e' = key_tuple STAGE e →
            let f2 := (should_process_all STAGE post r.2).2 in
            should_process STAGE e' f2
            = (false, {| idempotency_cache := idempotency_cache f2;
                         idempotency_hits := S (idempotency_hits f2) |})).
  { intros post e' He' f2. apply should_process_seen.
    rewrite (Hkey e' He'). subst f2. rewrite should_process_all_cache, Hr.
    apply elem_of_union_l, elem_of_union_r, elem_of_singleton. reflexivity. }
  clearbody r f0 k.
  split; [exact Hkey|]. split; [|split; [|split; [|exact Hlater]]].
  - destruct (decide (k ∈ idempotency_cache f0)) as [Hin|Hin].
    + rewrite (Hseen Hin). simpl. split; [discriminate|].
      intros [Hnf Hpre]. exfalso.
      rewrite Hf0 in Hin. apply elem_of_union in Hin as [Hin|Hin]; [done|].
      apply elem_of_list_to_set, list_elem_of_fmap in Hin as (e' & Hk & He').
      by apply (Hpre e' He').
    + rewrite (Hfresh Hin). simpl. split; [intros _|done].
      rewrite Hf0 in Hin. split.
      * intros Hf. apply Hin. by apply elem_of_union_l.
      * intros e' He' Hk. apply Hin.
        apply elem_of_union_r, elem_of_list_to_set, list_elem_of_fmap. by exists e'.
  - destruct (decide (k ∈ idempotency_cache f0)) as [Hin|Hin].
    + rewrite (Hseen Hin). discriminate.
    + rewrite (Hfresh Hin). done.
  - destruct (decide (k ∈ idempotency_cache f0)) as [Hin|Hin].
    + rewrite (Hseen Hin). done.
    + rewrite (Hfresh Hin). discriminate.
Qed.

(** ** Consumer batch loop *)

Section ConsumerFacts.

Variable STAGE : string.
Context {ProcessedEvent : Type}.
Variable stage_processing : Event → Raised ProcessedEvent.

Local Abbreviation handle := (handle_message STAGE stage_processing).
Local Abbreviation handle_all := (handle_messages STAGE stage_processing).

Lemma same_work_refl (c : Cycle ProcessedEvent) : same_work c c.
Proof. by repeat split. Qed.

Lemma handle_message_same_work stream m (c1 c2 : Cycle ProcessedEvent) :
  same_work c1 c2 → same_work (handle stream m c1) (handle stream m c2).
Proof.
  intros (Hf & Hp & Ha). unfold handle_message.
  destruct (data m) as [raw|e]; simpl.
  - by repeat split.
  - rewrite Hf. destruct (process_event STAGE stage_processing e (cycle_filter c2))
      as [[[p|]|what] f']; unfold same_work; simpl; repeat split; congruence.
Qed.

Lemma handle_messages_same_work stream ms c1 c2 :
  same_work c1 c2 → same_work (handle_all stream ms c1) (handle_all stream ms c2).
Proof.
  revert c1 c2. induction ms as [|m ms IH]; intros c1 c2 H; simpl; [done|].
  apply IH. by apply handle_message_same_work.
Qed.

Lemma handle_streams_same_work streams c1 c2 :
  same_work c1 c2 →
  same_work (handle_streams STAGE stage_processing streams c1)
            (handle_streams STAGE stage_processing streams c2).
Proof.
  revert c1 c2. induction streams as [|[s ms] ss IH]; intros c1 c2 H; simpl; [done|].
  apply IH. by apply handle_messages_same_work.
Qed.

Lemma handle_messages_app stream ms1 ms2 c :
  handle_all stream (ms1 ++ ms2) c = handle_all stream ms2 (handle_all stream ms1 c).
Proof. apply fold_left_app. Qed.

Lemma handle_message_log_mono stream m c id :
  id ∈ error_log c → id ∈ error_log (handle stream m c).
Proof.
  intros H. unfold handle_message.
  destruct (data m) as [raw|e]; simpl.
  - apply elem_of_app. by left.
  - destruct (process_event STAGE stage_processing e (cycle_filter c))
      as [[processed|what] f']; simpl; [done|]. apply elem_of_app. by left.
Qed.

Lemma handle_messages_log_mono stream ms c id :
  id ∈ error_log c → id ∈ error_log (handle_all stream ms c).
Proof.
  revert c. induction ms as [|m ms IH]; intros c H; simpl; [done|].
  apply IH. by apply handle_message_log_mono.
Qed.

Lemma handle_streams_log_mono streams c id :
  id ∈ error_log c → id ∈ error_log (handle_streams STAGE stage_processing streams c).
Proof.
  revert c. induction streams as [|[s ms] ss IH]; intros c H; simpl; [done|].
  apply IH. by apply handle_messages_log_mono.
Qed.

Lemma handle_malformed stream id raw c :
  let c' := handle stream {| msg_id := id; data := Malformed raw |} c in
  same_work c' c ∧ id ∈ error_log c'.
Proof.
  simpl. split; [by repeat split|]. unfold handle_message. simpl.
  apply elem_of_app. right. by apply list_elem_of_singleton.
Qed.

End ConsumerFacts.

(** C2 (as stated, refuted).  A read that returns one message with an
    unparseable payload: the error is logged, and the cycle acknowledges
    nothing. *)
Lemma C2_poison_message_not_acked :
  let poison := {| msg_id := "1-0"; data := Malformed "{not json" |} in
  let fx := run_cycle "enrichment" (fun e => Return e) true
                      [("events:click"%string, [poison])] new_filter in
  acknowledged fx = [] ∧ logged fx = ["1-0"%string].
Proof. split; reflexivity. Qed.

(** C2 (amended).  For every message whose payload is unparseable, wherever
    it stands in a read, the cycle logs an error for it and does not
    acknowledge it: what is acknowledged, what is appended to the output
    stream and the idempotency filter are those of the same read without
    the message. *)
Theorem C2_malformed_logged_not_acked
    (STAGE : string) {ProcessedEvent : Type}
    (stage_processing : Event → Raised ProcessedEvent)
    (pipeline_ok : bool) (f : IdempotencyFilter)
    (before after : list (string * list Message))
    (stream id raw : string) (pre post : list Message) :
  let poison := {| msg_id := id; data := Malformed raw |} in
  let fx := run_cycle STAGE stage_processing pipeline_ok
              (before ++ (stream, pre ++ poison :: post) :: after) f in
  let fx0 := run_cycle STAGE stage_processing pipeline_ok
              (before ++ (stream, pre ++ post) :: after) f in
  id ∈ logged fx
  ∧ acknowledged fx = acknowledged fx0
  ∧ appended fx = appended fx0
  ∧ filter_after fx = filter_after fx0.
Proof.
  intros poison fx fx0.
  set (c0 := handle_streams STAGE stage_processing before (start_cycle f)).
  set (c1 := handle_messages STAGE stage_processing stream pre c0).
  destruct (handle_malformed STAGE stage_processing stream id raw c1) as [Hw Hl].
  fold poison in Hw, Hl.
  set (c2 := handle_message STAGE stage_processing stream poison c1) in *.
  assert (E : handle_streams STAGE stage_processing
                (before ++ (stream, pre ++ poison :: post) :: after) (start_cycle f)
              = handle_streams STAGE stage_processing after
                  (handle_messages STAGE stage_processing stream post c2)).
  { unfold handle_streams at 1. rewrite fold_left_app. simpl.
    by rewrite handle_messages_app. }
  assert (E0 : handle_streams STAGE stage_processing
                (before ++ (stream, pre ++ post) :: after) (start_cycle f)
              = handle_streams STAGE stage_processing after
                  (handle_messages STAGE stage_processing stream post c1)).
  { unfold handle_streams at 1. rewrite fold_left_app. simpl.
    by rewrite handle_messages_app. }
  subst fx fx0. unfold run_cycle. rewrite E, E0.
  assert (Hsame : same_work
            (handle_streams STAGE stage_processing after
               (handle_messages STAGE stage_processing stream post c2))
            (handle_streams STAGE stage_processing after
               (handle_messages STAGE stage_processing stream post c1)))
    by (by apply handle_streams_same_work, handle_messages_same_work).
  assert (Hlog : id ∈ error_log
            (handle_streams STAGE stage_processing after
               (handle_messages STAGE stage_processing stream post c2)))
    by (by apply handle_streams_log_mono, handle_messages_log_mono).
  clear E E0.
  generalize dependent (handle_streams STAGE stage_processing after
               (handle_messages STAGE stage_processing stream post c2)).
  generalize (handle_streams STAGE stage_processing after
               (handle_messages STAGE stage_processing stream post c1)).
  intros [fB pB aB lB] [fA pA aA lA] (Hf & Hp & Ha) Hlog. simpl in *. subst.
  destruct pB as [|p ps]; simpl; [done|].
  destruct pipeline_ok; simpl; [done|].
  repeat split. apply elem_of_app. by left.
Qed.

(** ** Sliding window *)

Section WindowFacts.

Import Window.

Lemma clock_monotone_app (l1 l2 : list (Q * Event)) :
  clock_monotone (l1 ++ l2) ↔
  clock_monotone l1 ∧ clock_monotone l2
  ∧ Forall (fun a => Forall (fun b => (a.1 <= b.1)%Q) l2) l1.
Proof.
  induction l1 as [|a l1 IH]; simpl.
  - split; [intros H; repeat split; auto | tauto].
  - rewrite Forall_app, IH, Forall_cons. tauto.
Qed.

Lemma retained_from_app c (l1 l2 : list (Q * Event)) :
  retained_from c (l1 ++ l2) = retained_from c l1 ++ retained_from c l2.
Proof. apply List.filter_app. Qed.

Lemma elem_of_retained_from c (l : list (Q * Event)) entry :
  entry ∈ retained_from c l ↔ entry ∈ l ∧ (c <= entry.1)%Q.
Proof.
  unfold retained_from. rewrite !list_elem_of_In, List.filter_In, Qle_bool_iff. tauto.
Qed.

Lemma retained_from_all c (l : list (Q * Event)) :
  Forall (fun b => (c <= b.1)%Q) l → retained_from c l = l.
Proof.
  induction 1 as [|b l Hb Hl IH]; simpl; [done|].
  apply Qle_bool_iff in Hb. rewrite Hb. by rewrite IH.
Qed.

Lemma retained_from_twice c c' (l : list (Q * Event)) :
  (c <= c')%Q → retained_from c' (retained_from c l) = retained_from c' l.
Proof.
  intros Hc. induction l as [|b l IH]; simpl; [done|].
  destruct (Qle_bool c b.1) eqn:E; simpl.
  - by rewrite IH.
  - rewrite IH. destruct (Qle_bool c' b.1) eqn:E'; [|done].
    apply Qle_bool_iff in E'. assert (c <= b.1)%Q as H by lra.
    apply Qle_bool_iff in H. congruence.
Qed.

Lemma clock_monotone_retained c (l : list (Q * Event)) :
  clock_monotone l → clock_monotone (retained_from c l).
Proof.
  induction l as [|a l IH]; simpl; [done|]. intros [Ha Hl].
  destruct (Qle_bool c a.1); simpl; [|by apply IH].
  split; [|by apply IH].
  apply Forall_forall. intros b Hb. apply elem_of_retained_from in Hb as [Hb _].
  by eapply Forall_forall in Ha.
Qed.

(** On an ordered deque, popping from the left while the head is too old
    removes every entry that is too old. *)
Lemma evict_monotone c (l : list (Q * Event)) :
  clock_monotone l → evict c l = retained_from c l.
Proof.
  induction l as [|a l IH]; simpl; [done|]. intros [Ha Hl].
  destruct (Qlt_le_dec a.1 c) as [Hlt|Hle].
  - destruct (Qle_bool c a.1) eqn:E; [|by apply IH].
    apply Qle_bool_iff in E. lra.
  - pose proof Hle as E. apply Qle_bool_iff in E. rewrite E.
    f_equal. symmetry. apply retained_from_all.
    eapply Forall_impl; [exact Ha|]. simpl. intros b Hb. lra.
Qed.

Lemma add_events_snoc calls now event w :
  add_events (calls ++ [(now, event)]) w = add_event now event (add_events calls w).
Proof. unfold add_events. by rewrite fold_left_app. Qed.

Lemma add_events_window_size calls w :
  window_size (add_events calls w) = window_size w.
Proof.
  induction calls as [|[t e] calls IH] using rev_ind; [done|].
  rewrite add_events_snoc. simpl. exact IH.
Qed.

(** The retained entries after a monotone insertion sequence. *)
Lemma add_events_retained ws calls now event :
  clock_monotone (calls ++ [(now, event)]) →
  events (add_events (calls ++ [(now, event)]) (new_window ws))
  = retained_from (now - inject_Z ws) (calls ++ [(now, event)]).
Proof.
  revert now event. induction calls as [|[tp ep] calls IH] using rev_ind;
    intros now event Hm.
  - simpl. unfold add_event. simpl.
    destruct (Qlt_le_dec now (now - inject_Z ws)) as [Hlt|Hle].
    + destruct (Qle_bool (now - inject_Z ws) now) eqn:E; [|done].
      apply Qle_bool_iff in E. lra.
    + apply Qle_bool_iff in Hle. by rewrite Hle.
  - rewrite add_events_snoc. unfold add_event at 1.
    rewrite add_events_window_size. cbn [events window_size new_window].
    apply clock_monotone_app in Hm as (Hm1 & Hm2 & Hm3).
    rewrite (IH tp ep Hm1).
    assert (Hle : (tp - inject_Z ws <= now - inject_Z ws)%Q).
    { apply Forall_app in Hm3 as [_ H]. apply Forall_cons in H as [H _].
      apply Forall_cons in H as [H _]. simpl in H. lra. }
    rewrite evict_monotone.
    + rewrite retained_from_app, retained_from_twice by exact Hle.
      by rewrite <- retained_from_app.
    + apply clock_monotone_app. split; [by apply clock_monotone_retained|].
      split; [exact Hm2|].
      apply Forall_forall. intros a Ha.
      apply elem_of_retained_from in Ha as [Ha _].
      by eapply Forall_forall in Hm3.
Qed.

End WindowFacts.

(** C4 (as stated, refuted).  With a 60 second window, an entry added at
    time 0 is still retained after an add at time 60, although 0 is not in
    the half-open interval (60 - 60, 60]. *)
Lemma C4_boundary_entry_retained :
  let e := mk_event "e1" "u1" "s1" "click" 0 None in
  let w := Window.add_events [(0%Q, e); (60%Q, e)] (Window.new_window 60) in
  (0%Q, e) ∈ Window.events w ∧ ¬ (60 - inject_Z 60 < 0)%Q.
Proof.
  intros e w. split.
  - assert (E : Window.events w = [(0%Q, e); (60%Q, e)]) by (vm_compute; reflexivity).
    rewrite E. apply list_elem_of_here.
  - intros H. vm_compute in H. discriminate.
Qed.

(** C4 (amended).  For every insertion sequence whose clock readings never
    decrease, after each add the retained entries are exactly the inserted
    entries with time in the closed interval [now - window_size, now], in
    insertion order, and the aggregate map equals a fresh recomputation over
    exactly those entries. *)
Theorem C4_window_closed_interval
    (window_size : Z) (calls : list (Q * Event)) (now : Q) (event : Event) :
  Window.clock_monotone (calls ++ [(now, event)]) →
  let w := Window.add_events (calls ++ [(now, event)]) (Window.new_window window_size) in
  let in_window := Window.retained_from (now - inject_Z window_size) (calls ++ [(now, event)]) in
  (∀ entry, entry ∈ Window.events w ↔
            entry ∈ calls ++ [(now, event)]
            ∧ (now - inject_Z window_size <= entry.1)%Q ∧ (entry.1 <= now)%Q)
  ∧ Window.events w = in_window
  ∧ Window.aggregates w = Window._update_aggregates in_window.
Proof.
  intros Hm w in_window.
  assert (Hev : Window.events w = in_window) by (by apply add_events_retained).
  split; [|split; [exact Hev|]].
  - intros entry. rewrite Hev. unfold in_window. rewrite elem_of_retained_from.
    split; [|tauto]. intros [Hin Hc]. repeat split; [done..|].
    apply clock_monotone_app in Hm as (_ & _ & Hm).
    apply elem_of_app in Hin as [Hin|Hin].
    + eapply Forall_forall in Hm; [|exact Hin].
      apply Forall_cons in Hm as [Hm _]. exact Hm.
    + apply list_elem_of_singleton in Hin. subst entry. simpl. lra.
  - rewrite <- Hev. subst w. rewrite add_events_snoc. reflexivity.
Qed.

Lemma C4_window_closed_interval_witness :
  let e := mk_event "e1" "u1" "s1" "purchase" 0 (Some 20%Q) in
  let calls := [(0%Q, e); (30%Q, e)] in
  Window.clock_monotone (calls ++ [(60%Q, e)])
  ∧ Window.events (Window.add_events (calls ++ [(60%Q, e)]) (Window.new_window 60))
    = Window.retained_from (60 - inject_Z 60) (calls ++ [(60%Q, e)]).
Proof.
  intros e calls.
  assert (Hm : Window.clock_monotone (calls ++ [(60%Q, e)])).
  { simpl. repeat split; repeat constructor; simpl; lra. }
  split; [exact Hm|].
  exact (proj1 (proj2 (C4_window_closed_interval 60 calls 60%Q e Hm))).
Defined.

(** *** What the recomputation computes *)

Section AggregateFacts.

Import Window.

Lemma inject_Z_succ (n : nat) :
  (inject_Z (Z.of_nat n) + 1)%Q = inject_Z (Z.of_nat (S n)).
Proof. unfold Qplus, inject_Z. simpl. f_equal. lia. Qed.

Lemma counted_incr (n : nat) :
  Some (default 0%Q (counted n) + 1)%Q = counted (S n).
Proof.
  destruct n as [|n]; [reflexivity|].
  unfold counted. cbn [default from_option id]. by rewrite inject_Z_succ.
Qed.

Lemma fold_accumulate_snoc (entries : list (Q * Event)) (entry : Q * Event) :
  fold_left accumulate (entries ++ [entry]) empty_accumulator
  = accumulate (fold_left accumulate entries empty_accumulator) entry.
Proof. by rewrite fold_left_app. Qed.

(** [aggregates['counts'][ty]] is the number of retained entries of type
    [ty]. *)
Lemma counts_by_type (entries : list (Q * Event)) (ty : string) :
  counts (_update_aggregates entries) !! ty = counted (length (entries_of_type ty entries)).
Proof.
  unfold _update_aggregates. cbn [counts].
  induction entries as [|entry entries IH] using rev_ind; [reflexivity|].
  rewrite fold_accumulate_snoc. unfold entries_of_type in *.
  rewrite List.filter_app, length_app. cbn [accumulate acc_counts List.filter].
  unfold incr. case_bool_decide as Hty.
  - rewrite Hty, lookup_insert_eq, IH. cbn [length].
    rewrite Nat.add_1_r. apply counted_incr.
  - rewrite lookup_insert_ne by done. rewrite IH. cbn [length]. by rewrite Nat.add_0_r.
Qed.

(** [aggregates['total']['events']] is the number of retained entries. *)
Lemma total_events (entries : list (Q * Event)) :
  total (_update_aggregates entries) !! "events" = counted (length entries).
Proof.
  unfold _update_aggregates. cbn [total].
  induction entries as [|entry entries IH] using rev_ind; [reflexivity|].
  rewrite fold_accumulate_snoc, length_app. cbn [accumulate acc_total length].
  unfold incr. rewrite lookup_insert_eq, IH, Nat.add_1_r. apply counted_incr.
Qed.

Lemma accumulated_users (entries : list (Q * Event)) :
  acc_users (fold_left accumulate entries empty_accumulator) = users_of entries.
Proof.
  induction entries as [|entry entries IH] using rev_ind; [reflexivity|].
  rewrite fold_accumulate_snoc. cbn [accumulate acc_users]. rewrite IH.
  unfold users_of. rewrite fmap_app, List.filter_app, list_to_set_app_L.
  cbn [fmap list_fmap List.filter]. case_decide as Hu.
  - rewrite bool_decide_eq_true_2 by done. cbn. set_solver.
  - rewrite bool_decide_eq_false_2 by done. cbn. set_solver.
Qed.

(** [aggregates['unique_users']['count']] is the number of distinct
    non-empty user ids among the retained entries. *)
Lemma unique_users_count (entries : list (Q * Event)) :
  unique_users (_update_aggregates entries) !! "count" = Some (size (users_of entries)).
Proof.
  unfold _update_aggregates. cbn [unique_users].
  by rewrite lookup_singleton_eq, accumulated_users.
Qed.

(** [aggregates['revenue']['total']] is the sum of the amounts of the
    retained entries, provided no entry has the event type "total" (whose
    per-type sum shares the key). *)
Lemma revenue_total (entries : list (Q * Event)) :
  Forall (fun entry => event_type entry.2 ≠ "total") entries →
  revenue (_update_aggregates entries) !! "total"
  = match amounts_of entries with
    | [] => None
    | amounts => Some (Qsum amounts)
    end.
Proof.
  unfold _update_aggregates. cbn [revenue].
  induction entries as [|entry entries IH] using rev_ind; [reflexivity|].
  intros Hall. apply Forall_app in Hall as [Hall Hentry].
  apply Forall_cons in Hentry as [Hentry _]. specialize (IH Hall).
  rewrite fold_accumulate_snoc. cbn [accumulate acc_revenue].
  unfold amounts_of in *. rewrite omap_app. cbn [omap list_omap].
  destruct (amount entry.2) as [amt|] eqn:Ha; cbn.
  - unfold incr at 1. rewrite lookup_insert_ne by done.
    unfold incr. rewrite lookup_insert_eq, IH.
    assert (Hsum : (default 0 match omap (fun entry => amount entry.2) entries with
                              | [] => None
                              | amounts => Some (Qsum amounts)
                              end + amt)%Q
                   = Qsum (omap (fun entry => amount entry.2) entries ++ [amt])).
    { unfold Qsum at 2. rewrite fold_left_app. cbn.
      by destruct (omap _ entries). }
    rewrite Hsum. by destruct (omap _ entries).
  - rewrite app_nil_r. exact IH.
Qed.

End AggregateFacts.

(** A clock that runs backwards can hide a stale entry behind a newer one:
    eviction stops at the head of the deque. *)
Example window_clock_backwards :
  let e := mk_event "e1" "u1" "s1" "click" 0 None in
  Window.events (Window.add_events [(150%Q, e); (0%Q, e); (200%Q, e)] (Window.new_window 60))
  = [(150%Q, e); (0%Q, e); (200%Q, e)].
Proof. vm_compute. reflexivity. Qed.

(** ** Fraud detector *)

Section FraudFacts.

Import CEP.

Lemma seconds_below_minute (g : Z) :
  Qlt_bool (inject_Z g / 1000) 60 = true ↔ g < 60000.
Proof.
  unfold Qlt_bool. destruct (Qlt_le_dec _ _) as [H|H].
  - split; [intros _|done]. revert H.
    unfold Qlt, Qdiv, Qmult, Qinv, inject_Z. simpl. lia.
  - split; [done|]. intros Hg. exfalso. revert H.
    unfold Qle, Qdiv, Qmult, Qinv, inject_Z. simpl. lia.
Qed.

Lemma timestamp_at_cons a l i : timestamp_at (a :: l) (S i) = timestamp_at l i.
Proof. reflexivity. Qed.

Lemma time_diffs_cons a b l :
  time_diffs (a :: b :: l)
  = (inject_Z (timestamp b - timestamp a) / 1000)%Q :: time_diffs (b :: l).
Proof.
  unfold time_diffs.
  replace (length (a :: b :: l) - 1)%nat with (S (length l)) by (simpl; lia).
  replace (length (b :: l) - 1)%nat with (length l) by (simpl; lia).
  cbn [seq]. rewrite fmap_cons. f_equal.
  rewrite <- (fmap_S_seq 1), <- list_fmap_compose.
  apply list_fmap_ext. intros k i Hi. apply lookup_seq in Hi as [-> _].
  simpl. by rewrite Nat.sub_0_r.
Qed.

(** The indexed loop computes the consecutive gaps, in seconds. *)
Lemma time_diffs_gaps (purchases : list Event) :
  time_diffs purchases = (fun g => (inject_Z g / 1000)%Q) <$> gaps purchases.
Proof.
  induction purchases as [|a [|b l] IH]; [reflexivity..|].
  rewrite time_diffs_cons, IH. reflexivity.
Qed.

Lemma all_below_minute (gs : list Z) :
  forallb (fun diff => Qlt_bool diff 60) ((fun g => (inject_Z g / 1000)%Q) <$> gs) = true
  ↔ Forall (fun g => g < 60000) gs.
Proof.
  induction gs as [|g gs IH]; simpl.
  - split; [constructor|done].
  - rewrite andb_true_iff, IH, seconds_below_minute, Forall_cons. tauto.
Qed.

Lemma purchases_length_le (events : list Event) :
  (length (purchases_of events) <= length events)%nat.
Proof. apply length_filter. Qed.

Lemma fraud_pattern_characterised (events : list Event) :
  _detect_fraud_pattern events
  = (if decide ((3 ≤ length (purchases_of events))%nat
                ∧ Forall (fun gap => gap < 60000) (gaps (purchases_of events)))
     then Some {| rapid_purchases := true;
                  purchase_count := length (purchases_of events);
                  avg_time_between :=
                    mean ((fun gap => (inject_Z gap / 1000)%Q) <$> gaps (purchases_of events)) |}
     else None).
Proof.
  unfold _detect_fraud_pattern. fold (purchases_of events).
  pose proof (purchases_length_le events) as Hle.
  rewrite time_diffs_gaps.
  destruct (Nat.ltb_spec (length events) 3) as [Hlt|Hge].
  - rewrite decide_False; [done|]. intros [H _]. lia.
  - destruct (Nat.leb_spec 3 (length (purchases_of events))) as [H3|H3].
    + destruct (forallb _ _) eqn:Hall.
      * apply all_below_minute in Hall. by rewrite decide_True.
      * rewrite decide_False; [done|]. intros [_ H].
        apply all_below_minute in H. congruence.
    + rewrite decide_False; [done|]. intros [H _]. lia.
Qed.

End FraudFacts.

(** C7 (as stated, refuted).  Three purchases buffered with the timestamps
    100,000, 0 and 50,000 ms: the first two are 100,000 ms apart, yet the
    detector fires, and reports a mean gap of -25 seconds. *)
Lemma C7_out_of_order_purchases_fire :
  let purchase := fun t => mk_event "e" "u" "s" "purchase" t None in
  let events := [purchase 100000; purchase 0; purchase 50000] in
  match CEP._detect_fraud_pattern events with
  | Some r =>
      CEP.rapid_purchases r = true
      ∧ CEP.purchase_count r = 3%nat
      ∧ (CEP.avg_time_between r == -25)%Q
  | None => False
  end
  ∧ 60000 ≤ Z.abs (timestamp (purchase 0) - timestamp (purchase 100000)).
Proof. vm_compute. split; [split; [reflexivity|split; reflexivity]|discriminate]. Qed.

(** C7 (amended).  The fraud detector fires exactly on the buffers with at
    least three purchases in which, for every two consecutive purchases in
    buffer order, the timestamp of the later minus that of the earlier is
    below 60,000 ms (a signed difference: a purchase stamped before its
    predecessor always passes); it then reports the number of purchases and
    the mean of these differences, in seconds.  Three purchases at t,
    t+59999, t+119998 fire; a difference of 60,000 ms or more prevents
    firing; and when the timestamps of the purchases do not decrease along
    the buffer, the condition is that consecutive purchases are less than
    60,000 ms apart. *)
Theorem C7_fraud_pattern (events : list Event) :
  let purchases := CEP.purchases_of events in
  CEP._detect_fraud_pattern events
  = (if decide ((3 ≤ length purchases)%nat
                ∧ Forall (fun gap => gap < 60000) (CEP.gaps purchases))
     then Some {| CEP.rapid_purchases := true;
                  CEP.purchase_count := length purchases;
                  CEP.avg_time_between :=
                    mean ((fun gap => (inject_Z gap / 1000)%Q) <$> CEP.gaps purchases) |}
     else None)
  ∧ (∀ eid uid sid am t,
       is_Some (CEP._detect_fraud_pattern
                  [mk_event eid uid sid "purchase" t am;
                   mk_event eid uid sid "purchase" (t + 59999) am;
                   mk_event eid uid sid "purchase" (t + 119998) am]))
  ∧ (Exists (fun gap => 60000 ≤ gap) (CEP.gaps purchases) →
     CEP._detect_fraud_pattern events = None)
  ∧ (Forall (fun gap => 0 ≤ gap) (CEP.gaps purchases) →
     is_Some (CEP._detect_fraud_pattern events)
     ↔ (3 ≤ length purchases)%nat
       ∧ Forall (fun gap => Z.abs gap < 60000) (CEP.gaps purchases)).
Proof.
  intros purchases. split; [apply fraud_pattern_characterised|]. split; [|split].
  - intros eid uid sid am t. rewrite fraud_pattern_characterised.
    set (three := [mk_event eid uid sid "purchase" t am;
                   mk_event eid uid sid "purchase" (t + 59999) am;
                   mk_event eid uid sid "purchase" (t + 119998) am]).
    assert (E : CEP.purchases_of three = three).
    { unfold CEP.purchases_of, three.
      repeat (rewrite filter_cons, decide_True by reflexivity). reflexivity. }
    rewrite E. rewrite decide_True; [eauto|]. split; [simpl; lia|].
    cbn. repeat constructor; lia.
  - intros Hex. rewrite fraud_pattern_characterised. rewrite decide_False; [done|].
    intros [_ Hall]. apply Exists_exists in Hex as (g & Hg & Hbig).
    eapply Forall_forall in Hall; [|exact Hg]. lia.
  - intros Hordered. rewrite fraud_pattern_characterised. fold purchases.
    assert (Habs : Forall (fun gap => gap < 60000) (CEP.gaps purchases)
                   ↔ Forall (fun gap => Z.abs gap < 60000) (CEP.gaps purchases)).
    { rewrite !Forall_forall. split; intros H g Hg.
      - specialize (H g Hg). eapply Forall_forall in Hordered; [|exact Hg]. lia.
      - specialize (H g Hg). lia. }
    case_decide as Hfire.
    + split; [intros _|by eauto]. destruct Hfire as [H3 Hall]. split; [done|].
      by apply Habs.
    + split; [by intros [? ?]|]. intros [H3 Hall]. exfalso. apply Hfire.
      split; [done|]. by apply Habs.
Qed.

(** ** Funnel detector *)

Section FunnelFacts.

Import CEP.

Lemma index_Some (x : string) (l : list string) (i : nat) :
  index x l = Some i ↔ l !! i = Some x ∧ ∀ j, (j < i)%nat → l !! j ≠ Some x.
Proof.
  revert i. induction l as [|y l IH]; intros i; simpl.
  - split; [done|]. intros [H _]. done.
  - case_decide as Hy.
    + subst y. split.
      * intros [= <-]. split; [done|]. intros j Hj. lia.
      * intros [Hi Hfirst]. destruct i as [|i]; [done|].
        exfalso. apply (Hfirst O); [lia|done].
    + split.
      * intros H. apply fmap_Some in H as (i' & Hi' & ->).
        apply IH in Hi' as [Hl Hfirst]. split; [done|].
        intros [|j] Hj; simpl; [congruence|]. apply Hfirst. lia.
      * intros [Hi Hfirst]. destruct i as [|i]; simpl in Hi; [congruence|].
        apply fmap_Some. exists i. split; [|done]. apply IH. split; [done|].
        intros j Hj. apply (Hfirst (S j)). lia.
Qed.

Lemma index_is_Some (x : string) (l : list string) :
  x ∈ l → is_Some (index x l).
Proof.
  induction 1 as [y l|y z l Hin IH]; simpl.
  - rewrite decide_True by done. eauto.
  - case_decide; [eauto|]. destruct IH as [i ->]. eauto.
Qed.

Lemma first_index_types (ty : string) (events : list Event) (i : nat) :
  first_index ty events i ↔ index ty (event_type <$> events) = Some i.
Proof.
  unfold first_index. rewrite index_Some.
  setoid_rewrite list_lookup_fmap. reflexivity.
Qed.

Lemma first_index_unique ty events i j :
  first_index ty events i → first_index ty events j → i = j.
Proof. rewrite !first_index_types. congruence. Qed.

(** What the detector returns, in terms of first occurrences. *)
Lemma purchase_funnel_Some (events : list Event) (r : FunnelResult) :
  _detect_purchase_funnel events = Some r ↔
  ∃ v c p view purchase,
    first_index "page_view" events v ∧ first_index "click" events c
    ∧ first_index "purchase" events p ∧ (v < c < p)%nat
    ∧ events !! v = Some view ∧ events !! p = Some purchase
    ∧ r = {| funnel_completed := true;
             conversion_time := timestamp purchase - timestamp view;
             steps := size (list_to_set (event_type <$> events) : gset string) |}.
Proof.
  unfold _detect_purchase_funnel. split.
  - destruct (bool_decide ("page_view" ∈ event_type <$> events)
              && bool_decide ("click" ∈ event_type <$> events)
              && bool_decide ("purchase" ∈ event_type <$> events)); [|done].
    destruct (index "page_view" _) as [v|] eqn:Ev; [|done].
    destruct (index "click" _) as [c|] eqn:Ec; [|done].
    destruct (index "purchase" _) as [p|] eqn:Ep; [|done]. simpl.
    case_bool_decide as Hord; [|done].
    destruct (events !! p) as [purchase|] eqn:Hp; [|done].
    destruct (events !! v) as [view|] eqn:Hv; [|done]. simpl.
    intros [= <-]. exists v, c, p, view, purchase.
    rewrite !first_index_types. repeat split; try done; apply Hord.
  - intros (v & c & p & view & purchase & Hv & Hc & Hp & Hord & Ev & Ep & ->).
    pose proof Hv as Hv'. pose proof Hc as Hc'. pose proof Hp as Hp'.
    apply first_index_types in Hv', Hc', Hp'.
    assert (Hin : ∀ ty i, first_index ty events i → ty ∈ event_type <$> events).
    { intros ty i [H _]. rewrite <- list_lookup_fmap in H.
      by eapply list_elem_of_lookup_2. }
    rewrite !bool_decide_eq_true_2 by eauto. simpl.
    rewrite Hv', Hc', Hp'. simpl.
    rewrite bool_decide_eq_true_2 by done. rewrite Ep, Ev. reflexivity.
Qed.

End FunnelFacts.

(** C8.  The funnel detector fires exactly when page_view, click and purchase
    each occur and their first occurrences are in that order; when it fires,
    the reported conversion time is the first purchase's timestamp minus the
    first page_view's.  A buffer [page_view; click; purchase] fires with
    conversion time t2 - t0, and [click; page_view; purchase] does not
    fire. *)
Theorem C8_purchase_funnel (events : list Event) :
  (is_Some (CEP._detect_purchase_funnel events) ↔
     ∃ v c p, CEP.first_index "page_view" events v
              ∧ CEP.first_index "click" events c
              ∧ CEP.first_index "purchase" events p
              ∧ (v < c < p)%nat)
  ∧ (∀ r, CEP._detect_purchase_funnel events = Some r →
       ∃ v p view purchase,
         CEP.first_index "page_view" events v ∧ events !! v = Some view
         ∧ CEP.first_index "purchase" events p ∧ events !! p = Some purchase
         ∧ CEP.conversion_time r = timestamp purchase - timestamp view)
  ∧ (∀ eid uid sid am t0 t1 t2,
       let view := mk_event eid uid sid "page_view" t0 am in
       let click := mk_event eid uid sid "click" t1 am in
       let purchase := mk_event eid uid sid "purchase" t2 am in
       (CEP.conversion_time <$> CEP._detect_purchase_funnel [view; click; purchase])
       = Some (t2 - t0)
       ∧ CEP._detect_purchase_funnel [click; view; purchase] = None).
Proof.
  split; [|split].
  - split.
    + intros [r Hr]. apply purchase_funnel_Some in Hr
        as (v & c & p & _ & _ & Hv & Hc & Hp & Hord & _). by exists v, c, p.
    + intros (v & c & p & Hv & Hc & Hp & Hord).
      destruct (events !! v) as [view|] eqn:Ev.
      2:{ destruct Hv as [Hv _]. rewrite Ev in Hv. done. }
      destruct (events !! p) as [purchase|] eqn:Ep.
      2:{ destruct Hp as [Hp _]. rewrite Ep in Hp. done. }
      eexists. apply purchase_funnel_Some.
      exists v, c, p, view, purchase.
      exact (conj Hv (conj Hc (conj Hp (conj Hord (conj Ev (conj Ep eq_refl)))))).
  - intros r Hr. apply purchase_funnel_Some in Hr
      as (v & c & p & view & purchase & Hv & Hc & Hp & Hord & Ev & Ep & ->).
    by exists v, p, view, purchase.
  - intros eid uid sid am t0 t1 t2 view click purchase. split; reflexivity.
Qed.

(** ** Circuit breaker *)

Section BreakerFacts.

Import Breaker.
Context {W R : Type}.

Lemma run_snoc (cb : CircuitBreaker) (calls : list (Call W R)) (c : Call W R) (w : W) :
  run cb (calls ++ [c]) w = step (run cb calls w) c.
Proof. unfold run. by rewrite fold_left_app. Qed.

Lemma call_closed_success (cb : CircuitBreaker) now (f : W → Raised R * W) now_failed w result w' :
  state cb = closed → f w = (Return result, w') →
  call cb now f now_failed w = (Returned result, cb, w').
Proof.
  intros Hs Hf. unfold call, gate. rewrite Hs, Hf. unfold on_success. by rewrite Hs.
Qed.

Lemma call_closed_failure (cb : CircuitBreaker) now (f : W → Raised R * W) now_failed w what w' :
  state cb = closed → f w = (Raise what, w') →
  call cb now f now_failed w = (Failed what, on_failure cb now_failed, w').
Proof. intros Hs Hf. unfold call, gate. by rewrite Hs, Hf. Qed.

Lemma call_open_early (cb : CircuitBreaker) t now (f : W → Raised R * W) now_failed w :
  state cb = opened → last_failure_time cb = Some t →
  (now - t <= inject_Z (timeout cb))%Q →
  call cb now f now_failed w = (CircuitOpen, cb, w).
Proof.
  intros Hs Ht Hle. unfold call, gate. rewrite Hs, Ht.
  destruct (Qlt_le_dec _ _) as [Hlt|_]; [lra|done].
Qed.

Lemma call_open_probe_success (cb : CircuitBreaker) t now (f : W → Raised R * W)
      now_failed w result w' :
  state cb = opened → last_failure_time cb = Some t →
  (inject_Z (timeout cb) < now - t)%Q → f w = (Return result, w') →
  call cb now f now_failed w
  = (Returned result,
     {| failure_threshold := failure_threshold cb; timeout := timeout cb;
        failure_count := 0; last_failure_time := Some t; state := closed |}, w').
Proof.
  intros Hs Ht Hlt Hf. unfold call, gate. rewrite Hs, Ht.
  destruct (Qlt_le_dec _ _) as [_|Hle]; [|lra].
  rewrite Hf. unfold on_success, with_state. simpl. by rewrite Ht.
Qed.

(** While the failures recorded so far stay below the threshold, the
    breaker is closed and [failure_count] is their number: no success in
    between has reset it. *)
Lemma run_below_threshold (th to : Z) (calls : list (Call W R)) (w : W) :
  1 ≤ th →
  let r := run (new_breaker th to) calls w in
  failures r.1.1 < th →
  state r.1.2 = closed
  ∧ failure_count r.1.2 = failures r.1.1
  ∧ failure_threshold r.1.2 = th.
Proof.
  intros Hth. induction calls as [|c calls IH] using rev_ind; simpl.
  - intros _. by repeat split.
  - rewrite run_snoc. destruct (run (new_breaker th to) calls w) as [[outs cb] w1].
    simpl in IH. unfold step.
    destruct (call cb (at_time c) (func c) (failed_at c) w1) as [[o cb'] w2] eqn:Ecall.
    simpl. unfold failures. rewrite List.filter_app, length_app. simpl.
    intros Hlt.
    assert (Hprev : failures outs < th).
    { unfold failures. lia. }
    destruct (IH Hprev) as (Hs & Hc & Ht).
    unfold call, gate in Ecall. rewrite Hs in Ecall.
    destruct (func c w1) as [[result|what] w3]; injection Ecall as <- <- <-.
    + unfold on_success. rewrite Hs. simpl. unfold failures in Hc. repeat split; [done|lia|done].
    + simpl in *. unfold failures in Hc. repeat split; [|lia|done].
      rewrite Ht. destruct (Z.leb_spec th (failure_count cb + 1)); [lia|done].
Qed.

Lemma run_consecutive_failures (th to : Z) (calls : list (Call W R)) (w : W) :
  1 ≤ th → Forall always_raises calls → Z.of_nat (length calls) ≤ th →
  let r := run (new_breaker th to) calls w in
  failure_count r.1.2 = Z.of_nat (length calls)
  ∧ failure_threshold r.1.2 = th
  ∧ Forall (fun o => is_failure o = true) r.1.1
  ∧ state r.1.2 = if decide (Z.of_nat (length calls) = th) then opened else closed.
Proof.
  intros Hth. induction calls as [|c calls IH] using rev_ind; simpl.
  - intros _ _. rewrite decide_False by lia. by repeat split.
  - intros Hall Hlen. apply Forall_app in Hall as [Hall Hc].
    apply Forall_cons in Hc as [Hc _].
    rewrite length_app in Hlen |- *. simpl in Hlen |- *.
    destruct (IH Hall ltac:(lia)) as (Hcount & Hthr & Houts & Hstate).
    rewrite decide_False in Hstate by lia.
    rewrite run_snoc. destruct (run (new_breaker th to) calls w) as [[outs cb] w1].
    simpl in *. destruct (Hc w1) as (what & w2 & Hf).
    rewrite (call_closed_failure _ _ _ _ _ what w2) by done. simpl.
    repeat split; [lia|done| |].
    + apply Forall_app. split; [done|]. by repeat constructor.
    + rewrite Hthr, Hstate, Hcount.
      destruct (Z.leb_spec th (Z.of_nat (length calls) + 1));
        [rewrite decide_True by lia|rewrite decide_False by lia]; done.
Qed.

End BreakerFacts.

(** C5.  From a new breaker, consecutive failures leave it closed until their
    number reaches [failure_threshold], and open at that point; an open
    breaker called while no more than [timeout] has passed since the last
    failure raises at once, leaving the breaker and the world of the wrapped
    function untouched; called later, the wrapped function runs (half-open)
    and its success closes the breaker with [failure_count] 0.  The default
    threshold is 5. *)
Theorem C5_circuit_breaker {W R : Type} (failure_threshold timeout : Z) :
  1 ≤ failure_threshold →
  (∀ (calls : list (Breaker.Call W R)) (w : W),
     Forall Breaker.always_raises calls →
     Z.of_nat (length calls) ≤ failure_threshold →
     let r := Breaker.run (Breaker.new_breaker failure_threshold timeout) calls w in
     Breaker.failure_count r.1.2 = Z.of_nat (length calls)
     ∧ Forall (fun o => Breaker.is_failure o = true) r.1.1
     ∧ Breaker.state r.1.2
       = if decide (Z.of_nat (length calls) = failure_threshold)
         then Breaker.opened else Breaker.closed)
  ∧ (∀ cb t now (f : W → Raised R * W) now_failed w,
       Breaker.state cb = Breaker.opened →
       Breaker.last_failure_time cb = Some t →
       (now - t <= inject_Z (Breaker.timeout cb))%Q →
       Breaker.call cb now f now_failed w = (Breaker.CircuitOpen, cb, w))
  ∧ (∀ cb t now (f : W → Raised R * W) now_failed w result w',
       Breaker.state cb = Breaker.opened →
       Breaker.last_failure_time cb = Some t →
       (inject_Z (Breaker.timeout cb) < now - t)%Q →
       f w = (Return result, w') →
       ∃ cb', Breaker.call cb now f now_failed w = (Breaker.Returned result, cb', w')
              ∧ Breaker.state cb' = Breaker.closed
              ∧ Breaker.failure_count cb' = 0)
  ∧ Breaker.failure_threshold Breaker.default_breaker = 5.
Proof.
  intros Hth. split; [|split; [|split]].
  - intros calls w Hall Hlen r.
    destruct (run_consecutive_failures failure_threshold timeout calls w Hth Hall Hlen)
      as (Hc & _ & Ho & Hs). by repeat split.
  - intros cb t now f now_failed w Hs Ht Hle. by eapply call_open_early.
  - intros cb t now f now_failed w result w' Hs Ht Hlt Hf.
    eexists. split; [by eapply call_open_probe_success|]. by split.
  - reflexivity.
Qed.

(** Five failing calls through the default breaker. *)
Lemma C5_circuit_breaker_witness :
  let boom := fun w : nat => (@Raise unit "boom", S w) in
  let c := fun t : Q => {| Breaker.at_time := t; Breaker.func := boom; Breaker.failed_at := t |} in
  1 ≤ 5
  ∧ Breaker.state (Breaker.run Breaker.default_breaker [c 1%Q; c 2%Q; c 3%Q; c 4%Q; c 5%Q] O).1.2
    = Breaker.opened.
Proof.
  intros boom c.
  assert (H5 : 1 ≤ 5) by lia.
  split; [exact H5|].
  assert (Hall : Forall Breaker.always_raises [c 1%Q; c 2%Q; c 3%Q; c 4%Q; c 5%Q]).
  { repeat constructor; intros w; exists "boom"%string, (S w); reflexivity. }
  exact (proj2 (proj2 (proj1 (C5_circuit_breaker (W := nat) (R := unit) 5 60 H5)
                         [c 1%Q; c 2%Q; c 3%Q; c 4%Q; c 5%Q] O Hall ltac:(simpl; lia)))).
Defined.

(** C10.  As long as the failures recorded since the breaker was created stay
    below the threshold, the breaker is closed and [failure_count] is their
    number, whatever successes came in between; a success in that state
    leaves [failure_count] as it is, and the failure that brings the total to
    [failure_threshold] opens the breaker. *)
Theorem C10_failures_accumulate {W R : Type}
    (failure_threshold timeout : Z) (calls : list (Breaker.Call W R)) (w : W) :
  1 ≤ failure_threshold →
  let r := Breaker.run (Breaker.new_breaker failure_threshold timeout) calls w in
  Breaker.failures r.1.1 < failure_threshold →
  Breaker.state r.1.2 = Breaker.closed
  ∧ Breaker.failure_count r.1.2 = Breaker.failures r.1.1
  ∧ (∀ now (f : W → Raised R * W) now_failed result w',
       f r.2 = (Return result, w') →
       Breaker.call r.1.2 now f now_failed r.2 = (Breaker.Returned result, r.1.2, w'))
  ∧ (∀ now (f : W → Raised R * W) now_failed what w',
       f r.2 = (Raise what, w') →
       ∃ cb', Breaker.call r.1.2 now f now_failed r.2 = (Breaker.Failed what, cb', w')
              ∧ Breaker.failure_count cb' = Breaker.failures r.1.1 + 1
              ∧ Breaker.state cb'
                = if decide (Breaker.failures r.1.1 + 1 = failure_threshold)
                  then Breaker.opened else Breaker.closed).
Proof.
  intros Hth r Hlt.
  destruct (run_below_threshold failure_threshold timeout calls w Hth Hlt) as (Hs & Hc & Ht).
  fold r in Hs, Hc, Ht.
  split; [exact Hs|]. split; [exact Hc|]. split.
  - intros now f now_failed result w' Hf. by apply call_closed_success.
  - intros now f now_failed what w' Hf. eexists.
    split; [by apply call_closed_failure|]. simpl. split; [lia|].
    rewrite Ht, Hs, Hc.
    destruct (Z.leb_spec failure_threshold (Breaker.failures r.1.1 + 1));
      [rewrite decide_True by lia|rewrite decide_False by lia]; done.
Qed.

(** Four failures interleaved with successes, then a fifth failure. *)
Lemma C10_failures_accumulate_witness :
  let boom := fun w : nat => (@Raise unit "boom", S w) in
  let fine := fun w : nat => (Return tt, S w) in
  let c := fun (t : Q) f => {| Breaker.at_time := t; Breaker.func := f; Breaker.failed_at := t |} in
  let calls := [c 1%Q boom; c 2%Q fine; c 3%Q boom; c 4%Q fine; c 5%Q boom; c 6%Q fine;
                c 7%Q boom; c 8%Q fine] in
  let r := Breaker.run Breaker.default_breaker calls O in
  1 ≤ 5
  ∧ Breaker.failures r.1.1 < 5
  ∧ ∃ cb', Breaker.call r.1.2 9%Q boom 9%Q r.2 = (Breaker.Failed "boom", cb', S r.2)
           ∧ Breaker.failure_count cb' = Breaker.failures r.1.1 + 1
           ∧ Breaker.state cb'
             = if decide (Breaker.failures r.1.1 + 1 = 5) then Breaker.opened else Breaker.closed.
Proof.
  intros boom fine c calls r.
  assert (H5 : 1 ≤ 5) by lia.
  assert (Hlt : Breaker.failures r.1.1 < 5) by (vm_compute; reflexivity).
  split; [exact H5|]. split; [exact Hlt|].
  exact (proj2 (proj2 (proj2 (C10_failures_accumulate (W := nat) (R := unit) 5 60 calls O H5 Hlt)))
           9%Q boom 9%Q "boom"%string (S r.2) eq_refl).
Defined.

(** ** Adaptive rate limiter *)

Section LimiterFacts.

Import Limiter.

Lemma py_max_spec (a b : Q) :
  (a <= py_max a b)%Q ∧ (b <= py_max a b)%Q ∧ (py_max a b = a ∨ py_max a b = b).
Proof. unfold py_max. destruct (Qlt_le_dec a b); repeat split; auto; lra. Qed.

Lemma py_min_spec (a b : Q) :
  (py_min a b <= a)%Q ∧ (py_min a b <= b)%Q ∧ (py_min a b = a ∨ py_min a b = b).
Proof. unfold py_min. destruct (Qlt_le_dec b a); repeat split; auto; lra. Qed.

(** The two tests of [_adjust_rate], on integer counts. *)
Lemma errors_above_tenth (sc ec : Z) :
  (inject_Z sc * 0.1 < inject_Z ec)%Q ↔ sc < 10 * ec.
Proof. unfold Qlt, Qmult, inject_Z. simpl. lia. Qed.

Lemma errors_below_hundredth (sc ec : Z) :
  (inject_Z ec < inject_Z sc * 0.01)%Q ↔ 100 * ec < sc.
Proof. unfold Qlt, Qmult, inject_Z. simpl. lia. Qed.

Lemma adjust_rate_shrinks (rl : AdaptiveRateLimiter) :
  (inject_Z (success_count rl) * 0.1 < inject_Z (error_count rl))%Q →
  current_rate (_adjust_rate rl)
  = py_max (current_rate rl * 0.8) (inject_Z (base_rate rl) * 0.1).
Proof.
  intros H. unfold _adjust_rate. simpl.
  destruct (Qlt_le_dec _ _) as [_|Hle]; [done|lra].
Qed.

Lemma adjust_rate_grows (rl : AdaptiveRateLimiter) :
  0 ≤ success_count rl →
  (inject_Z (error_count rl) < inject_Z (success_count rl) * 0.01)%Q →
  current_rate (_adjust_rate rl)
  = py_min (current_rate rl * 1.1) (inject_Z (base_rate rl) * 2).
Proof.
  intros Hs H. unfold _adjust_rate. simpl.
  destruct (Qlt_le_dec _ _) as [Hlt|_].
  - apply errors_above_tenth in Hlt. apply errors_below_hundredth in H. lia.
  - destruct (Qlt_le_dec _ _) as [_|Hle]; [done|lra].
Qed.

Lemma adjust_rate_within_bounds (rl : AdaptiveRateLimiter) :
  within_bounds rl → within_bounds (_adjust_rate rl).
Proof.
  intros (Hb & Hlo & Hhi). unfold within_bounds, _adjust_rate. simpl.
  split; [done|].
  assert (0 < inject_Z (base_rate rl))%Q as Hbq.
  { unfold Qlt, inject_Z. simpl. lia. }
  destruct (Qlt_le_dec _ _) as [_|_].
  - destruct (py_max_spec (current_rate rl * 0.8) (inject_Z (base_rate rl) * 0.1))
      as (H1 & H2 & [H3|H3]); rewrite H3 in *; split; lra.
  - destruct (Qlt_le_dec _ _) as [_|_]; [|done].
    destruct (py_min_spec (current_rate rl * 1.1) (inject_Z (base_rate rl) * 2))
      as (H1 & H2 & [H3|H3]); rewrite H3 in *; split; lra.
Qed.

Lemma new_limiter_within_bounds (base : Z) (now : Q) :
  0 < base → within_bounds (new_limiter base now).
Proof.
  intros Hb. unfold within_bounds, new_limiter. simpl.
  assert (0 < inject_Z base)%Q as Hbq by (unfold Qlt, inject_Z; simpl; lia).
  repeat split; [done|lra|lra].
Qed.

End LimiterFacts.

(** C6.  An adjustment is made by the first [should_allow] that comes more
    than 10 seconds after the previous one.  When the errors exceed 10% of
    the successes, the rate becomes max(0.8 * rate, 0.1 * base): it never
    grows and it shrinks unless it is at the floor.  When the errors are
    below 1% of the successes, the rate becomes min(1.1 * rate, 2 * base): it
    never shrinks and it grows unless it is at the ceiling.  Both counts are
    zero after every adjustment.  An interval with 15% errors meets the
    first test and one with 0.5% errors the second, the percentage being
    taken of the successes or of all attempts. *)
Theorem C6_rate_adjustment (rl : Limiter.AdaptiveRateLimiter) :
  Limiter.within_bounds rl →
  0 ≤ Limiter.success_count rl →
  0 ≤ Limiter.error_count rl →
  let rl' := Limiter._adjust_rate rl in
  let base := inject_Z (Limiter.base_rate rl) in
  let rate := Limiter.current_rate rl in
  let sc := Limiter.success_count rl in
  let ec := Limiter.error_count rl in
  ((inject_Z sc * 0.1 < inject_Z ec)%Q →
     Limiter.current_rate rl' = py_max (rate * 0.8) (base * 0.1)
     ∧ (base * 0.1 <= Limiter.current_rate rl')%Q
     ∧ (Limiter.current_rate rl' <= rate)%Q
     ∧ ((base * 0.1 < rate)%Q → (Limiter.current_rate rl' < rate)%Q))
  ∧ ((inject_Z ec < inject_Z sc * 0.01)%Q →
     Limiter.current_rate rl' = py_min (rate * 1.1) (base * 2)
     ∧ (Limiter.current_rate rl' <= base * 2)%Q
     ∧ (rate <= Limiter.current_rate rl')%Q
     ∧ ((rate < base * 2)%Q → (rate < Limiter.current_rate rl')%Q))
  ∧ (Limiter.success_count rl' = 0 ∧ Limiter.error_count rl' = 0)
  ∧ Limiter.within_bounds rl'
  ∧ (∀ now draw,
       (Limiter.should_allow rl now draw).2
       = if Qlt_le_dec 10 (now - Limiter.last_adjustment rl)
         then {| Limiter.base_rate := Limiter.base_rate rl';
                 Limiter.current_rate := Limiter.current_rate rl';
                 Limiter.success_count := 0; Limiter.error_count := 0;
                 Limiter.last_adjustment := now |}
         else rl)
  ∧ (0 < sc + ec → (100 * ec = 15 * sc ∨ 100 * ec = 15 * (sc + ec)) →
     (inject_Z sc * 0.1 < inject_Z ec)%Q)
  ∧ (0 < sc + ec → (1000 * ec = 5 * sc ∨ 1000 * ec = 5 * (sc + ec)) →
     (inject_Z ec < inject_Z sc * 0.01)%Q).
Proof.
  intros Hwb Hsc Hec rl' base rate sc ec. subst rl'.
  pose proof Hwb as (Hb & Hlo & Hhi). fold base rate in Hlo, Hhi.
  assert (0 < base)%Q as Hbq by (unfold base, Qlt, inject_Z; simpl; lia).
  split; [|split; [|split; [|split; [|split; [|split]]]]].
  - intros H. rewrite (adjust_rate_shrinks rl H). fold base rate.
    unfold py_max. destruct (Qlt_le_dec (rate * 0.8) (base * 0.1));
      repeat split; try lra; intros; lra.
  - intros H. rewrite (adjust_rate_grows rl Hsc H). fold base rate.
    unfold py_min. destruct (Qlt_le_dec (base * 2) (rate * 1.1));
      repeat split; try lra; intros; lra.
  - split; reflexivity.
  - by apply adjust_rate_within_bounds.
  - intros now draw. unfold Limiter.should_allow.
    destruct (Qlt_le_dec 10 (now - Limiter.last_adjustment rl)); by case_decide.
  - intros Hpos Hratio. apply errors_above_tenth. lia.
  - intros Hpos Hratio. apply errors_below_hundredth. lia.
Qed.

(** A new limiter with base rate 1000 after 85 successes and 15 errors. *)
Lemma C6_rate_adjustment_witness :
  let rl := {| Limiter.base_rate := 1000; Limiter.current_rate := 1000;
               Limiter.success_count := 85; Limiter.error_count := 15;
               Limiter.last_adjustment := 0 |} in
  Limiter.within_bounds rl
  ∧ 0 ≤ Limiter.success_count rl
  ∧ 0 ≤ Limiter.error_count rl
  ∧ (Limiter.current_rate (Limiter._adjust_rate rl) < 1000)%Q.
Proof.
  intros rl.
  assert (Hwb : Limiter.within_bounds rl).
  { unfold Limiter.within_bounds, rl. simpl.
    split; [lia | split; unfold Qle; simpl; lia]. }
  assert (Hs : 0 ≤ Limiter.success_count rl) by (simpl; lia).
  assert (He : 0 ≤ Limiter.error_count rl) by (simpl; lia).
  split; [exact Hwb|]. split; [exact Hs|]. split; [exact He|].
  refine (proj2 (proj2 (proj2 (proj1 (C6_rate_adjustment rl Hwb Hs He) _))) _).
  - unfold Qlt. simpl. lia.
  - unfold Qlt. simpl. lia.
Defined.

(** ** Anomaly detector *)

Section DetectorFacts.

Import Detector.

Lemma py_min_le_1 (x : Q) : (py_min 1 x <= 1)%Q.
Proof. unfold py_min. destruct (Qlt_le_dec x 1); lra. Qed.

Lemma num_max_spec (a b : Num) :
  (value a <= value (num_max a b))%Q
  ∧ (value b <= value (num_max a b))%Q
  ∧ (num_max a b = a ∨ num_max a b = b).
Proof. unfold num_max. destruct (Qlt_le_dec _ _); repeat split; auto; lra.
Qed.

Lemma num_min_le_1 (x : Num) : (value (num_min (py 1) x) <= 1)%Q.
Proof.
  unfold num_min. cbn [value]. destruct (Qlt_le_dec (value x) 1); cbn [value]; lra.
Qed.

Lemma num_min_python (q : Q) : is_numpy (num_min (py 1) (py q)) = false.
Proof. unfold num_min. by destruct (Qlt_le_dec _ _).
Qed.

Lemma fold_num_max (rest : list Num) (s : Num) :
  let m := fold_left num_max rest s in
  (value s <= value m)%Q
  ∧ Forall (fun x => (value x <= value m)%Q) rest
  ∧ (m = s ∨ m ∈ rest).
Proof.
  revert s. induction rest as [|x rest IH]; intros s; simpl.
  - split; [lra|]. split; [constructor|by left].
  - destruct (IH (num_max s x)) as (H1 & H2 & H3).
    destruct (num_max_spec s x) as (Hs & Hx & Hmax).
    split; [lra|]. split; [constructor; [lra|done]|].
    destruct H3 as [H3|H3].
    + destruct Hmax as [Hmax|Hmax].
      * left. by rewrite H3.
      * right. rewrite H3, Hmax. apply list_elem_of_here.
    + right. by apply list_elem_of_further.
Qed.

Lemma max_default_spec (scores : list Num) :
  Forall (fun x => (value x <= value (max_default scores))%Q) scores
  ∧ (scores = [] ∧ max_default scores = py 0 ∨ max_default scores ∈ scores).
Proof.
  destruct scores as [|s rest]; simpl.
  - split; [constructor|by left].
  - destruct (fold_num_max rest s) as (H1 & H2 & H3). split.
    + by constructor.
    + right. destruct H3 as [->|H3]; [apply list_elem_of_here|by apply list_elem_of_further].
Qed.

Lemma unusual_purchase_score_le_1 (a : Q) (avg : Average) :
  (value (unusual_purchase_score a avg) <= 1)%Q.
Proof.
  unfold unusual_purchase_score. destruct avg as [|m]; [apply num_min_le_1|].
  destruct (Qeq_bool _ _); [cbn; lra|apply num_min_le_1].
Qed.

(** What the rules can produce: every sub-score is at most 1; only the
    [unusual_purchase] entry can hold a [numpy.float64], and it reports the
    average of the baseline of the event's user. *)
Lemma behavioral_anomaly_cases now event baselines :
  Forall (fun x =>
            (value (score x) <= 1)%Q
            ∧ (anomaly_name x ≠ "unusual_purchase"
               ∧ existsb is_numpy (score x :: (details x).*2) = false
               ∨ anomaly_name x = "unusual_purchase"
                 ∧ ∃ b a, baselines !! user_id event = Some b
                          ∧ event_type event = "purchase"
                          ∧ amount_of event = Some a
                          ∧ details x = [("amount"%string, py a);
                                         ("user_average"%string,
                                          user_average (avg_purchase_amount b))]))
         (detect_behavioral_anomalies now event baselines).
Proof.
  unfold detect_behavioral_anomalies. repeat apply Forall_app_2.
  - destruct (baselines !! user_id event) as [b|]; [|constructor].
    destruct (_ <? _)%nat; [|constructor]; apply Forall_singleton; split; cbn [score anomaly_name details].
    + apply num_min_le_1.
    + left. split; [discriminate|]. cbn. by rewrite num_min_python.
  - case_decide as Hty; [|constructor].
    destruct (amount_of event) as [a|] eqn:Ha; [|constructor].
    apply Forall_app_2.
    + destruct (baselines !! user_id event) as [b|] eqn:Hb; [|constructor].
      destruct (Qlt_bool _ _); [|constructor]; apply Forall_singleton; split; cbn [score anomaly_name details].
      * apply unusual_purchase_score_le_1.
      * right. split; [done|]. by exists b, a.
    + destruct (Qlt_bool _ _); [|constructor]; apply Forall_singleton; split; cbn [score anomaly_name details].
      * apply num_min_le_1.
      * left. split; [discriminate|]. cbn. by rewrite num_min_python.
  - destruct (_ || _); [|constructor]; apply Forall_singleton; split; cbn [score anomaly_name details].
    + cbn [value]. lra.
    + left. split; [discriminate|]. reflexivity.
Qed.

(** Every behavioral sub-score is at most 1. *)
Lemma behavioral_scores_le_1 now event baselines :
  Forall (fun a => (value (score a) <= 1)%Q) (detect_behavioral_anomalies now event baselines).
Proof.
  eapply Forall_impl; [apply behavioral_anomaly_cases|]. cbn. by intros x [? _].
Qed.

(** After the update, the average of an identified user who has just made a
    purchase with an amount is the mean that [np.mean] returned. *)
Lemma updated_average now event baselines b a :
  user_id event ≠ "" → event_type event = "purchase" → amount_of event = Some a →
  update_user_baseline now event baselines !! user_id event = Some b →
  is_numpy (user_average (avg_purchase_amount b)) = true.
Proof.
  intros Hu Hty Ha. unfold update_user_baseline.
  rewrite decide_False by done. rewrite lookup_insert_eq. intros [= <-].
  cbn [avg_purchase_amount]. rewrite decide_True by done. rewrite Ha.
  by destruct (purchases _).
Qed.

Lemma update_anonymous now event baselines :
  user_id event = "" → update_user_baseline now event baselines = baselines.
Proof. intros H. unfold update_user_baseline. by rewrite decide_True.
Qed.

Lemma Qlt_bool_iff (x y : Q) : Qlt_bool x y = true ↔ (x < y)%Q.
Proof. unfold Qlt_bool. destruct (Qlt_le_dec x y); split; (done || lra).
Qed.


(** The combined score is the learned score or one of the sub-scores. *)
Lemma combined_is_one_of (ml : Num) (subs : list Num) :
  (0 <= value ml)%Q →
  num_max ml (max_default subs) = ml ∨ num_max ml (max_default subs) ∈ subs.
Proof.
  intros Hml. destruct (num_max_spec ml (max_default subs)) as (_ & _ & [H|H]); [by left|].
  destruct (max_default_spec subs) as (_ & [[_ H0]|Hin]).
  - left. unfold num_max. rewrite H0. cbn [value].
    destruct (Qlt_le_dec (value ml) 0); [lra|done].
  - right. by rewrite H.
Qed.

(** Which analyses hold a [numpy.float64]. *)
Lemma analysis_numpy now event (baselines : gmap string Baseline) (ml : Num) :
  (0 <= value ml)%Q →
  baselines !! "" = None →
  let updated := update_user_baseline now event baselines in
  let anomalies := detect_behavioral_anomalies now event updated in
  existsb is_numpy
    (ml :: flat_map (fun a => score a :: (details a).*2) anomalies
        ++ [num_max ml (max_default (score <$> anomalies))]) = true
  ↔ is_numpy ml = true ∨ ∃ a, a ∈ anomalies ∧ anomaly_name a = "unusual_purchase".
Proof.
  intros Hml Hanon updated anomalies.
  pose proof (behavioral_anomaly_cases now event updated) as Hcases.
  fold anomalies in Hcases.
  assert (Hrule : ∀ x, x ∈ anomalies → anomaly_name x = "unusual_purchase" →
                       existsb is_numpy (score x :: (details x).*2) = true).
  { intros x Hx Hname. eapply Forall_forall in Hcases; [|exact Hx].
    destruct Hcases as [_ [[Hne _]|[_ (b & a & Hb & Hty & Ha & Hd)]]]; [done|].
    rewrite Hd. cbn [fmap list_fmap snd existsb is_numpy].
    assert (Hid : user_id event ≠ "").
    { intros Hid. subst updated. rewrite update_anonymous in Hb by done.
      rewrite Hid in Hb. congruence. }
    rewrite (updated_average now event baselines b a Hid Hty Ha Hb).
    by rewrite !orb_true_r. }
  assert (Hother : ∀ x, x ∈ anomalies →
                        existsb is_numpy (score x :: (details x).*2) = true →
                        anomaly_name x = "unusual_purchase").
  { intros x Hx Hnum. eapply Forall_forall in Hcases; [|exact Hx].
    destruct Hcases as [_ [[_ Hpy]|[Hname _]]]; [congruence|done]. }
  assert (Hflat : existsb is_numpy
                    (flat_map (fun a => score a :: (details a).*2) anomalies) = true
                  ↔ ∃ a, a ∈ anomalies ∧ anomaly_name a = "unusual_purchase").
  { rewrite existsb_exists. split.
    - intros (n & Hn & Hnp). apply in_flat_map in Hn as (x & Hx & Hn).
      apply list_elem_of_In in Hx. exists x. split; [done|]. apply Hother; [done|].
      apply existsb_exists. by exists n.
    - intros (x & Hx & Hname). pose proof (Hrule x Hx Hname) as Hnum.
      apply existsb_exists in Hnum as (n & Hn & Hnp). exists n. split; [|done].
      apply in_flat_map. exists x. split; [by apply list_elem_of_In|done]. }
  cbn [existsb]. rewrite existsb_app, !orb_true_iff, Hflat. cbn [existsb].
  rewrite orb_false_r. split; [|tauto].
  intros [H|[H|H]]; [by left|by right|].
  destruct (combined_is_one_of ml (score <$> anomalies) Hml) as [Heq|Hin].
  - left. by rewrite <- Heq.
  - right. apply list_elem_of_fmap in Hin as (x & Hsx & Hx). exists x. split; [done|].
    apply Hother; [done|]. cbn [existsb]. rewrite <- Hsx, H. done.
Qed.

Context {Features : Type}.
Variable extract_features : gmap string Baseline → Event → Raised Features.
Variable decision_function : Detector → Event → Raised Q.

Lemma ml_score_bounds (d : Detector) (event : Event) :
  (0 <= value (get_ml_anomaly_score decision_function d event) <= 1)%Q.
Proof.
  unfold get_ml_anomaly_score.
  destruct (is_trained d); [|cbn; lra].
  destruct (decision_function d event) as [s|what]; [|cbn; lra].
  unfold num_max, num_min. cbn [value].
  destruct (Qlt_le_dec ((0.5 - s) / 1) 1); cbn [value];
    destruct (Qlt_le_dec 0 _); cbn [value]; lra.
Qed.

(** The learned score is a [numpy.float64] exactly when it lies strictly
    between 0 and 1: the bounds themselves are the integers of the clamp. *)
Lemma ml_score_numpy (d : Detector) (event : Event) :
  is_numpy (get_ml_anomaly_score decision_function d event) = true
  ↔ (0 < value (get_ml_anomaly_score decision_function d event))%Q
    ∧ (value (get_ml_anomaly_score decision_function d event) < 1)%Q.
Proof.
  unfold get_ml_anomaly_score.
  destruct (is_trained d); [|cbn; split; [done|lra]].
  destruct (decision_function d event) as [s|what]; [|cbn; split; [done|lra]].
  unfold num_max, num_min. cbn [value].
  destruct (Qlt_le_dec ((0.5 - s) / 1) 1); cbn [value];
    destruct (Qlt_le_dec 0 _); cbn [value is_numpy]; split; (done || lra).
Qed.

(** With a model that returns [s], the learned score is [0.5 - s] clamped
    to [0,1]. *)
Lemma ml_score_clamped (d : Detector) (event : Event) (s : Q) :
  is_trained d = true → decision_function d event = Return s →
  (value (get_ml_anomaly_score decision_function d event)
   == Qmax 0 (Qmin 1 (0.5 - s)))%Q.
Proof.
  intros Ht Hs. unfold get_ml_anomaly_score. rewrite Ht, Hs.
  unfold num_max, num_min. cbn [value].
  assert (Hdiv : ((0.5 - s) / 1 == 0.5 - s)%Q) by field.
  destruct (Q.min_spec 1 (0.5 - s)) as [[Hlt Hm]|[Hle Hm]];
    destruct (Q.max_spec 0 (Qmin 1 (0.5 - s))) as [[Hlt' HM]|[Hle' HM]];
    destruct (Qlt_le_dec ((0.5 - s) / 1) 1); cbn [value];
    destruct (Qlt_le_dec 0 _); cbn [value]; lra.
Qed.

Lemma ml_score_raised (d : Detector) (event : Event) (what : string) :
  decision_function d event = Raise what →
  get_ml_anomaly_score decision_function d event = py 0.
Proof.
  intros H. unfold get_ml_anomaly_score. rewrite H. by destruct (is_trained d).
Qed.

Lemma ml_score_untrained (d : Detector) (event : Event) :
  is_trained d = false → get_ml_anomaly_score decision_function d event = py 0.
Proof. intros H. unfold get_ml_anomaly_score. by rewrite H.
Qed.

Lemma analyze_event_is_trained now event d :
  is_trained (analyze_event extract_features decision_function now event d).2 = is_trained d.
Proof. unfold analyze_event. by destruct (extract_features _ _).
Qed.

(** The model is trained only once a training attempt has completed: one
    made with at least 100 buffered samples, whose fit succeeded. *)
Lemma trained_after_training (ops : list Op) :
  is_trained (run_ops extract_features decision_function ops new_detector) = true →
  ∃ before after,
    ops = before ++ Train true :: after
    ∧ 100 ≤ feature_buffer (run_ops extract_features decision_function before new_detector).
Proof.
  induction ops as [|op ops IH] using rev_ind; [discriminate|].
  unfold run_ops in *. rewrite fold_left_app. cbn [fold_left].
  set (d := fold_left (apply_op extract_features decision_function) ops new_detector) in *.
  destruct (is_trained d) eqn:Hprev.
  - intros _. destruct (IH eq_refl) as (before & after & -> & Hbuf).
    exists before, (after ++ [op]). split; [|done].
    by rewrite <- app_assoc.
  - destruct op as [now event|fit_ok]; cbn [apply_op].
    + rewrite analyze_event_is_trained, Hprev. discriminate.
    + unfold train_model.
      destruct (Z.ltb_spec (feature_buffer d) 100) as [Hlt|Hge].
      * rewrite Hprev. discriminate.
      * destruct fit_ok; [|rewrite Hprev; discriminate].
        intros _. exists ops, []. split; [done|]. exact Hge.
Qed.

(** What [analyze_event] returns, and when. *)
Lemma analyze_event_result now event d :
  (analyze_event extract_features decision_function now event d).1
  = match extract_features (update_user_baseline now event (user_baselines d)) event with
    | Raise what => Raise what
    | Return _ =>
        let ml := get_ml_anomaly_score decision_function (with_features now event d) event in
        let anomalies :=
          detect_behavioral_anomalies now event
            (update_user_baseline now event (user_baselines d)) in
        let combined := num_max ml (max_default (score <$> anomalies)) in
        Return {| analysis_event_id := event_id event;
                  analysis_user_id := user_id event;
                  analysis_timestamp := timestamp event;
                  ml_anomaly_score := ml;
                  behavioral_anomalies := anomalies;
                  combined_anomaly_score := combined;
                  is_anomaly := Qlt_bool 0.7 (value combined);
                  analysis_model_version := model_version d |}
    end.
Proof. unfold analyze_event. by destruct (extract_features _ _).
Qed.

End DetectorFacts.
(** C9.  [analyze_event] returns an analysis exactly when the feature
    extraction returns.  Its learned score is the one [get_ml_anomaly_score]
    gives for the detector with the event's baseline and features recorded,
    its sub-scores are those of the rules [detect_behavioral_anomalies]
    triggers on the updated baselines, and its combined score is the maximum
    of the learned score and these sub-scores (0 standing for none): it
    bounds them all and is one of them; it lies in [0,1]; [is_anomaly] holds
    exactly when it is above 0.7.  The learned score is 0 while the model is
    untrained or its inference raises, and otherwise [0.5 - s] clamped to
    [0,1] for the model's output [s]; the model is untrained until a
    training attempt has completed. *)
Theorem C9_combined_score {Features : Type}
    (extract_features : gmap string Detector.Baseline → Event → Raised Features)
    (decision_function : Detector.Detector → Event → Raised Q)
    (now : Q) (event : Event) (d : Detector.Detector) :
  let baselines := Detector.update_user_baseline now event (Detector.user_baselines d) in
  let scored := Detector.with_features now event d in
  match (Detector.analyze_event extract_features decision_function now event d).1 with
  | Raise what => extract_features baselines event = Raise what
  | Return r =>
      let ml := Detector.ml_anomaly_score r in
      let subs := Detector.score <$> Detector.behavioral_anomalies r in
      let combined := Detector.combined_anomaly_score r in
      (∃ features, extract_features baselines event = Return features)
      ∧ ml = Detector.get_ml_anomaly_score decision_function scored event
      ∧ Detector.behavioral_anomalies r
        = Detector.detect_behavioral_anomalies now event baselines
      ∧ combined = Detector.num_max ml (Detector.max_default subs)
      ∧ (Detector.value ml <= Detector.value combined)%Q
      ∧ Forall (fun s => (Detector.value s <= Detector.value combined)%Q) subs
      ∧ (combined = ml ∨ combined ∈ subs)
      ∧ (0 <= Detector.value combined)%Q ∧ (Detector.value combined <= 1)%Q
      ∧ (Detector.is_anomaly r = true ↔ (0.7 < Detector.value combined)%Q)
      ∧ (Detector.is_trained d = false → ml = Detector.py 0)
      ∧ (∀ s, Detector.is_trained d = true →
              decision_function scored event = Return s →
              (Detector.value ml == Qmax 0 (Qmin 1 (0.5 - s)))%Q)
      ∧ (∀ what, decision_function scored event = Raise what → ml = Detector.py 0)
  end
  ∧ (∀ ops : list Detector.Op,
       Detector.is_trained
         (Detector.run_ops extract_features decision_function ops Detector.new_detector)
       = true →
       ∃ before after,
         ops = before ++ Detector.Train true :: after
         ∧ 100 ≤ Detector.feature_buffer
                   (Detector.run_ops extract_features decision_function before
                      Detector.new_detector)).
Proof.
  intros baselines scored. split; [|apply trained_after_training].
  rewrite analyze_event_result. fold baselines scored.
  destruct (extract_features baselines event) as [features|what] eqn:Hx; [|reflexivity].
  cbn zeta. cbn [Detector.ml_anomaly_score Detector.behavioral_anomalies
                 Detector.combined_anomaly_score Detector.is_anomaly].
  set (ml := Detector.get_ml_anomaly_score decision_function scored event).
  set (subs := Detector.score <$> Detector.detect_behavioral_anomalies now event baselines).
  set (combined := Detector.num_max ml (Detector.max_default subs)).
  assert (Hml : (0 <= Detector.value ml <= 1)%Q) by apply ml_score_bounds.
  assert (Hsubs : Forall (fun s => (Detector.value s <= 1)%Q) subs).
  { unfold subs. apply Forall_fmap. apply behavioral_scores_le_1. }
  destruct (max_default_spec subs) as (Hub & Hmem).
  destruct (num_max_spec ml (Detector.max_default subs)) as (H1 & H2 & H3).
  fold combined in H1, H2, H3.
  assert (Hone : combined = ml ∨ combined ∈ subs).
  { apply combined_is_one_of. lra. }
  split; [by exists features|]. split; [reflexivity|]. split; [reflexivity|].
  split; [reflexivity|]. split; [exact H1|]. split.
  { eapply Forall_impl; [exact Hub|]. cbn. intros s Hs. lra. }
  split; [exact Hone|]. split; [lra|]. split.
  { destruct Hone as [->|Hin]; [lra|]. by eapply Forall_forall in Hsubs. }
  split; [apply Qlt_bool_iff|]. split.
  { intros Ht. by apply ml_score_untrained. }
  split.
  { intros s Ht Hs. by apply ml_score_clamped. }
  intros what Hw. by eapply ml_score_raised.
Qed.


Section StorageFacts.

Import Detector.

Context {Features : Type}.
Variable extract_features : gmap string Baseline → Event → Raised Features.
Variable decision_function : Detector → Event → Raised Q.


(** What a returned analysis records of its event, and when it holds a
    [numpy.float64]. *)
Lemma returned_analysis now event d r :
  (analyze_event extract_features decision_function now event d).1 = Return r →
  analysis_event_id r = event_id event
  ∧ is_anomaly r = Qlt_bool 0.7 (value (combined_anomaly_score r))
  ∧ (user_baselines d !! "" = None →
     existsb is_numpy (numbers_of r) = true
     ↔ ((0 < value (ml_anomaly_score r))%Q ∧ (value (ml_anomaly_score r) < 1)%Q)
       ∨ ∃ a, a ∈ behavioral_anomalies r ∧ anomaly_name a = "unusual_purchase").
Proof.
  rewrite analyze_event_result.
  destruct (extract_features _ _) as [features|what]; [|discriminate].
  cbn zeta. intros [= <-]. split; [reflexivity|]. split; [reflexivity|].
  intros Hanon. unfold numbers_of.
  cbn [ml_anomaly_score behavioral_anomalies combined_anomaly_score].
  rewrite <- ml_score_numpy. apply analysis_numpy; [|exact Hanon].
  apply ml_score_bounds.
Qed.

End StorageFacts.


(** A purchase of 310 by a user with nine earlier purchases of 10: the
    [unusual_purchase] rule fires with the score 0.775, a [numpy.float64]
    like the average it reports, so the analysis is an anomaly that cannot
    be serialised: nothing reaches the store, which accepts every write, and
    the message is acknowledged. *)
Example unusual_purchase_never_stored :
  let features := fun (_ : gmap string Detector.Baseline) (_ : Event) => @Return unit tt in
  let no_model := fun (_ : Detector.Detector) (_ : Event) => @Raise Q "no model" in
  let earlier :=
    replicate 9 (Detector.Analyze 1700000000
                   (mk_event "e0" "u1" "s1" "purchase" 1700000000000 (Some 10%Q))) in
  let d := Detector.run_ops features no_model earlier Detector.new_detector in
  let event := mk_event "e1" "u1" "s1" "purchase" 1700000000000 (Some 310%Q) in
  let m := {| msg_id := "1-0"; data := WellFormed event |} in
  let ds := Detector.process_message features no_model 1700000000 None m
              (d, Detector.empty_store) in
  ∃ r,
    (Detector.analyze_event features no_model 1700000000 event d).1 = Return r
    ∧ (Detector.value (Detector.combined_anomaly_score r) == 0.775)%Q
    ∧ Detector.is_numpy (Detector.combined_anomaly_score r) = true
    ∧ Detector.is_anomaly r = true
    ∧ Detector.hashes ds.2 !! "anomaly:e1"%string = None
    ∧ Detector.anomaly_alerts ds.2 = []
    ∧ Detector.acked ds.2 = ["1-0"%string].
Proof.
  intros features no_model earlier d event m ds. eexists.
  split; [vm_compute; reflexivity|]. vm_compute. repeat split; reflexivity.
Qed.

(** * Further properties of the modelled code *)

(** ** Sliding window: what the aggregates hold after an add *)

Section WindowExtras.

Import Window.

Lemma Qsum_snoc (l : list Q) (a : Q) : Qsum (l ++ [a]) = (Qsum l + a)%Q.
Proof. unfold Qsum. by rewrite fold_left_app. Qed.

Lemma amounts_of_snoc (entries : list (Q * Event)) (entry : Q * Event) :
  amounts_of (entries ++ [entry])
  = amounts_of entries ++ match amount entry.2 with Some a => [a] | None => [] end.
Proof.
  unfold amounts_of. rewrite omap_app. cbn [omap list_omap].
  by destruct (amount entry.2).
Qed.

Lemma entries_of_type_snoc ty (entries : list (Q * Event)) (entry : Q * Event) :
  entries_of_type ty (entries ++ [entry])
  = entries_of_type ty entries ++ (if bool_decide (event_type entry.2 = ty) then [entry] else []).
Proof. unfold entries_of_type. by rewrite List.filter_app. Qed.

(** The value under ['total'] of the revenue dictionary: every amount once,
    and the amounts of the entries whose event type is the string "total"
    once more. *)
Lemma revenue_total_general (entries : list (Q * Event)) :
  match amounts_of entries with
  | [] => revenue (_update_aggregates entries) !! "total" = None
  | _ :: _ =>
      ∃ q, revenue (_update_aggregates entries) !! "total" = Some q
           ∧ (q == Qsum (amounts_of entries)
                   + Qsum (amounts_of (entries_of_type "total" entries)))%Q
  end.
Proof.
  unfold _update_aggregates. cbn [revenue].
  induction entries as [|entry entries IH] using rev_ind; [reflexivity|].
  rewrite fold_accumulate_snoc, amounts_of_snoc, entries_of_type_snoc.
  cbn [accumulate acc_revenue].
  set (rev := acc_revenue (fold_left accumulate entries empty_accumulator)) in *.
  assert (Hprev : ∃ q, default 0%Q (rev !! "total") = q
                       ∧ (q == Qsum (amounts_of entries)
                               + Qsum (amounts_of (entries_of_type "total" entries)))%Q
                       ∧ (amounts_of entries = [] → rev !! "total" = None)).
  { destruct (amounts_of entries) as [|a l] eqn:Ha.
    - rewrite IH. exists 0%Q. split; [done|]. split; [|done].
      assert (Hnone : amounts_of (entries_of_type "total" entries) = []).
      { clear -Ha. unfold amounts_of, entries_of_type in *.
        induction entries as [|x xs IHx]; [done|]. cbn in Ha |- *.
        destruct (amount x.2) eqn:E; [done|].
        case_bool_decide; cbn; [rewrite E|]; by apply IHx. }
      rewrite Hnone. reflexivity.
    - destruct IH as (q & Hq & Heq). exists q. rewrite Hq. by repeat split. }
  destruct Hprev as (q & Hq & Heq & Hnone).
  destruct (amount entry.2) as [amt|] eqn:Hamt.
  - assert (Hne : amounts_of entries ++ [amt] ≠ []) by (by destruct (amounts_of entries)).
    destruct (amounts_of entries ++ [amt]) as [|a0 l0] eqn:Hall; [done|].
    rewrite <- Hall. clear Hne.
    unfold incr. case_bool_decide as Hty.
    + rewrite Hty, lookup_insert_eq. rewrite lookup_insert_eq. cbn [default from_option id].
      eexists. split; [reflexivity|].
      rewrite Hq, amounts_of_snoc, Hamt, !Qsum_snoc. rewrite Heq. ring.
    + rewrite lookup_insert_ne by congruence. rewrite lookup_insert_eq.
      eexists. split; [reflexivity|].
      rewrite Hq, app_nil_r, Qsum_snoc. rewrite Heq. ring.
  - rewrite app_nil_r. case_bool_decide as Hty.
    + rewrite amounts_of_snoc, Hamt, app_nil_r.
      destruct (amounts_of entries) as [|a l] eqn:Ha; [by apply Hnone|].
      destruct IH as (q' & Hq' & Heq'). by exists q'.
    + rewrite app_nil_r.
      destruct (amounts_of entries) as [|a l] eqn:Ha; [by apply Hnone|].
      destruct IH as (q' & Hq' & Heq'). by exists q'.
Qed.

End WindowExtras.
Section WindowShape.

Import Window.

Lemma evict_suffix c (l : list (Q * Event)) : evict c l `suffix_of` l.
Proof.
  induction l as [|a l IH]; simpl; [done|].
  destruct (Qlt_le_dec a.1 c); [by apply suffix_cons_r|done].
Qed.

Lemma evict_head c (l : list (Q * Event)) entry :
  head (evict c l) = Some entry → (c <= entry.1)%Q.
Proof.
  induction l as [|a l IH]; simpl; [done|].
  destruct (Qlt_le_dec a.1 c) as [|Hle]; [done|]. simpl. by intros [= <-].
Qed.

Lemma evict_keeps_last c (l : list (Q * Event)) entry :
  (c <= entry.1)%Q → last (evict c (l ++ [entry])) = Some entry.
Proof.
  intros Hle. induction l as [|a l IH]; simpl.
  - destruct (Qlt_le_dec entry.1 c); [lra|done].
  - destruct (Qlt_le_dec a.1 c); [done|].
    change (a :: l ++ [entry]) with ((a :: l) ++ [entry]). apply last_snoc.
Qed.

Lemma add_events_suffix (calls : list (Q * Event)) (w : SlidingWindow) :
  events (add_events calls w) `suffix_of` (events w ++ calls).
Proof.
  induction calls as [|[now e] calls IH] using rev_ind.
  - simpl. by rewrite app_nil_r.
  - rewrite add_events_snoc. unfold add_event. cbn [events].
    etrans; [apply evict_suffix|]. rewrite app_assoc. by apply suffix_app.
Qed.

End WindowShape.

(** X1.  After every add, whatever the clock did, [counts[ty]] is the number
    of retained entries of event type [ty], [total['events']] the number of
    retained entries and [unique_users['count']] the number of distinct
    non-empty user ids among them; a type with no retained entry has no
    key. *)
Theorem X1_window_counts (now : Q) (event : Event) (w : Window.SlidingWindow) (ty : string) :
  let w' := Window.add_event now event w in
  Window.counts (Window.aggregates w') !! ty
  = Window.counted (length (Window.entries_of_type ty (Window.events w')))
  ∧ Window.total (Window.aggregates w') !! "events"
    = Window.counted (length (Window.events w'))
  ∧ Window.unique_users (Window.aggregates w') !! "count"
    = Some (size (Window.users_of (Window.events w'))).
Proof.
  intros w'. subst w'. unfold Window.add_event. cbn [Window.aggregates Window.events].
  split; [apply counts_by_type|]. split; [apply total_events|apply unique_users_count].
Qed.

(** X2.  After every add, [revenue['total']] is absent when no retained entry
    carries an amount; otherwise it is the sum of all retained amounts plus,
    once more, the amounts of the retained entries whose event type is the
    string "total" (their per-type sum is kept under the same key). *)
Theorem X2_window_revenue_total (now : Q) (event : Event) (w : Window.SlidingWindow) :
  let w' := Window.add_event now event w in
  let amounts := Window.amounts_of (Window.events w') in
  match amounts with
  | [] => Window.revenue (Window.aggregates w') !! "total" = None
  | _ :: _ =>
      ∃ q, Window.revenue (Window.aggregates w') !! "total" = Some q
           ∧ (q == Qsum amounts
                   + Qsum (Window.amounts_of
                             (Window.entries_of_type "total" (Window.events w'))))%Q
  end.
Proof.
  intros w' amounts. subst w' amounts.
  unfold Window.add_event. cbn [Window.aggregates Window.events].
  apply revenue_total_general.
Qed.

(** X3.  Whatever the clock readings, the window holds a run of the most
    recent insertions in insertion order; after an add its oldest entry is
    not older than the cutoff, and with a non-negative window size the entry
    just added is retained as the newest. *)
Theorem X3_window_shape (calls : list (Q * Event)) (window_size : Z)
    (now : Q) (event : Event) :
  let w := Window.add_events calls (Window.new_window window_size) in
  let w' := Window.add_event now event w in
  Window.events w `suffix_of` calls
  ∧ Window.events w' `suffix_of` (Window.events w ++ [(now, event)])
  ∧ (∀ entry, head (Window.events w') = Some entry →
       (now - inject_Z window_size <= entry.1)%Q)
  ∧ (0 ≤ window_size → last (Window.events w') = Some (now, event)).
Proof.
  intros w w'.
  assert (Hws : Window.window_size w = window_size) by apply add_events_window_size.
  split; [apply (add_events_suffix calls (Window.new_window window_size))|].
  subst w'. unfold Window.add_event. cbn [Window.events]. rewrite Hws.
  split; [apply evict_suffix|]. split.
  - intros entry. apply evict_head.
  - intros Hpos. apply evict_keeps_last. simpl.
    assert (0 <= inject_Z window_size)%Q by (unfold Qle, inject_Z; simpl; lia). lra.
Qed.

(** ** Consumer: redelivery to the same processor *)

Section RedeliveryFacts.

Variable STAGE : string.
Context {ProcessedEvent : Type}.
Variable stage_processing : Event → Raised ProcessedEvent.

Local Abbreviation key := (generate_idempotency_key STAGE).
Local Abbreviation handle := (handle_message STAGE stage_processing).
Local Abbreviation handle_all := (handle_messages STAGE stage_processing).
Local Abbreviation handle_reads := (handle_streams STAGE stage_processing).

(** Handling a message records the key of its event, whether or not the
    stage processing raised. *)
Lemma handle_message_cache stream m (c : Cycle ProcessedEvent) :
  idempotency_cache (cycle_filter (handle stream m c))
  = idempotency_cache (cycle_filter c)
    ∪ list_to_set (key <$> match data m with WellFormed e => [e] | Malformed _ => [] end).
Proof.
  unfold handle_message.
  destruct (data m) as [raw|e]; cbn [cycle_filter fmap list_fmap].
  - set_solver.
  - unfold process_event.
    pose proof (should_process_cache STAGE e (cycle_filter c)) as Hc.
    destruct (should_process STAGE e (cycle_filter c)) as [fresh f']. cbn [snd] in Hc.
    destruct fresh; [destruct (stage_processing e)|]; cbn [cycle_filter]; rewrite Hc; set_solver.
Qed.

Lemma handle_messages_cache stream ms (c : Cycle ProcessedEvent) :
  idempotency_cache (cycle_filter (handle_all stream ms c))
  = idempotency_cache (cycle_filter c) ∪ list_to_set (key <$> message_events ms).
Proof.
  revert c. induction ms as [|m ms IH]; intros c.
  - cbn. set_solver.
  - unfold handle_messages in *. cbn [fold_left]. rewrite IH, handle_message_cache.
    unfold message_events. cbn [flat_map]. rewrite fmap_app, list_to_set_app_L.
    by rewrite (assoc_L (∪)).
Qed.

Lemma handle_streams_cache streams (c : Cycle ProcessedEvent) :
  idempotency_cache (cycle_filter (handle_reads streams c))
  = idempotency_cache (cycle_filter c) ∪ list_to_set (key <$> events_of streams).
Proof.
  revert c. induction streams as [|[s ms] ss IH]; intros c.
  - cbn. set_solver.
  - unfold handle_streams in *. cbn [fold_left]. rewrite IH. cbn [fst snd].
    rewrite handle_messages_cache.
    unfold events_of. cbn [flat_map]. cbn [snd]. fold (message_events ms).
    rewrite fmap_app, list_to_set_app_L. by rewrite (assoc_L (∪)).
Qed.

(** A message whose key the filter already holds is acknowledged and
    produces nothing. *)
Lemma handle_messages_seen stream ms (c : Cycle ProcessedEvent) :
  list_to_set (key <$> message_events ms) ⊆ idempotency_cache (cycle_filter c) →
  processed_events (handle_all stream ms c) = processed_events c
  ∧ ack_ids (handle_all stream ms c) = ack_ids c ++ message_ids stream ms
  ∧ idempotency_cache (cycle_filter (handle_all stream ms c))
    = idempotency_cache (cycle_filter c).
Proof.
  revert c. induction ms as [|m ms IH]; intros c Hsub.
  - cbn. by rewrite app_nil_r.
  - unfold handle_messages in *. cbn [fold_left].
    unfold message_events, message_ids in *. cbn [flat_map] in *.
    destruct (data m) as [raw|e] eqn:Hm.
    + cbn in Hsub. unfold handle_message at 2 4 6. rewrite Hm.
      destruct (IH {| cycle_filter := cycle_filter c; processed_events := processed_events c;
                      ack_ids := ack_ids c; error_log := error_log c ++ [msg_id m] |})
        as (H1 & H2 & H3); [exact Hsub|].
      by rewrite H1, H2, H3.
    + cbn in Hsub. unfold handle_message at 2 4 6. rewrite Hm. unfold process_event.
      rewrite should_process_seen by set_solver. cbn.
      match goal with |- context [fold_left _ ms ?c0] =>
        destruct (IH c0) as (H1 & H2 & H3) end.
      { cbn. set_solver. }
      rewrite H1, H2, H3. cbn. by rewrite <- app_assoc.
Qed.

Lemma handle_streams_seen streams (c : Cycle ProcessedEvent) :
  list_to_set (key <$> events_of streams) ⊆ idempotency_cache (cycle_filter c) →
  processed_events (handle_reads streams c) = processed_events c
  ∧ ack_ids (handle_reads streams c) = ack_ids c ++ well_formed_ids streams
  ∧ idempotency_cache (cycle_filter (handle_reads streams c))
    = idempotency_cache (cycle_filter c).
Proof.
  revert c. induction streams as [|[s ms] ss IH]; intros c Hsub.
  - cbn. by rewrite app_nil_r.
  - unfold handle_streams in *. cbn [fold_left]. cbn [fst snd].
    unfold events_of, well_formed_ids in *. cbn [flat_map] in *. cbn [fst snd] in *.
    fold (message_events ms) in *. fold (message_ids s ms).
    rewrite fmap_app, list_to_set_app_L in Hsub.
    destruct (handle_messages_seen s ms c) as (H1 & H2 & H3); [set_solver|].
    destruct (IH (handle_all s ms c)) as (G1 & G2 & G3); [rewrite H3; set_solver|].
    rewrite G1, G2, G3, H1, H2, H3. by rewrite <- app_assoc.
Qed.

End RedeliveryFacts.

(** X4.  Once a read has been through a cycle, its events are marked in the
    idempotency filter even when their stage processing raised or the write
    of the batch failed (and then nothing is appended or acknowledged); if
    the same messages reach the same processor again, every well-formed one
    is acknowledged and nothing is appended to the output stream. *)
Theorem X4_redelivery_acknowledged_unwritten
    (STAGE : string) {ProcessedEvent : Type}
    (stage_processing : Event → Raised ProcessedEvent)
    (pipeline_ok : bool) (streams : list (string * list Message)) (f : IdempotencyFilter) :
  let first := run_cycle STAGE stage_processing false streams f in
  let again := run_cycle STAGE stage_processing pipeline_ok streams (filter_after first) in
  appended first = []
  ∧ (∀ e, e ∈ events_of streams →
       generate_idempotency_key STAGE e ∈ idempotency_cache (filter_after first))
  ∧ appended again = []
  ∧ acknowledged again = well_formed_ids streams
  ∧ idempotency_cache (filter_after again) = idempotency_cache (filter_after first).
Proof.
  intros first again.
  set (c1 := handle_streams STAGE stage_processing streams (start_cycle f)).
  assert (Hf1 : filter_after first = cycle_filter c1).
  { subst first. unfold run_cycle. fold c1. by destruct (processed_events c1). }
  assert (Hcache : list_to_set (generate_idempotency_key STAGE <$> events_of streams)
                   ⊆ idempotency_cache (filter_after first)).
  { rewrite Hf1. subst c1. rewrite handle_streams_cache. set_solver. }
  split; [subst first; unfold run_cycle; fold c1; by destruct (processed_events c1)|].
  split.
  { intros e He. apply Hcache. apply elem_of_list_to_set, list_elem_of_fmap. by exists e. }
  destruct (handle_streams_seen STAGE stage_processing streams (start_cycle (filter_after first)))
    as (H1 & H2 & H3); [exact Hcache|].
  subst again. unfold run_cycle. rewrite H1. cbn. rewrite H2, H3. by repeat split.
Qed.

(** ** Complex event processor: the pattern buffer and the churn detector *)

Section PatternFacts.

Import Patterns.

Lemma newer_than_iff bound e :
  Detector.newer_than bound e = true ↔ (bound < inject_Z (timestamp e) / 1000)%Q.
Proof. apply Qlt_bool_iff. Qed.

Lemma not_newer_than_iff bound e :
  not_newer_than bound e = true ↔ (inject_Z (timestamp e) / 1000 <= bound)%Q.
Proof. apply Qle_bool_iff. Qed.

Lemma filter_nil_of_none {A} (p : A → bool) (l : list A) :
  (∀ x, x ∈ l → p x = false) → List.filter p l = [].
Proof.
  induction l as [|a l IH]; intros H; [done|]. cbn.
  rewrite (H a) by apply list_elem_of_here. apply IH. intros x Hx. apply H.
  by apply list_elem_of_further.
Qed.

(** A buffer whose events are all newer than the 30-minute cutoff has no
    event older than a day, as long as the clock has advanced by less than
    23.5 hours since the cutoff was taken. *)
Lemma churn_silent_on_recent now now_recent now_older (events : list Event) :
  (now_older <= now + 84600)%Q →
  (∀ e, e ∈ events → Detector.newer_than (now - 1800) e = true) →
  _detect_churn_risk now_recent now_older events = None.
Proof.
  intros Hclock Hnew. unfold _detect_churn_risk.
  destruct events as [|e0 events]; [done|].
  rewrite (filter_nil_of_none (not_newer_than (now_older - 86400))); [done|].
  intros e He. destruct (not_newer_than _ e) eqn:E; [|done].
  apply not_newer_than_iff in E. apply Hnew, newer_than_iff in He. lra.
Qed.

Lemma elem_of_filter_bool {A} (p : A → bool) (l : list A) x :
  x ∈ List.filter p l ↔ x ∈ l ∧ p x = true.
Proof. by rewrite !list_elem_of_In, List.filter_In. Qed.

End PatternFacts.

(** X5.  [process_event] of the pattern processor touches only the buffer of
    the event's own key; that buffer then holds exactly the earlier events of
    the key and the new event that are newer than 30 minutes before [now],
    in arrival order, so an event with an older timestamp is dropped at once
    and never reaches the detectors. *)
Theorem X5_pattern_buffer_trimmed
    (now now_recent now_older : Q) (event : Event)
    (pattern_buffer : gmap string (list Event)) :
  let r := Patterns.process_event now now_recent now_older event pattern_buffer in
  let key := Patterns.buffer_key event in
  let before := default [] (pattern_buffer !! key) in
  (∀ k, k ≠ key → r.2 !! k = pattern_buffer !! k)
  ∧ ∃ kept,
      r.2 !! key = Some kept
      ∧ kept `sublist_of` (before ++ [event])
      ∧ (∀ e, e ∈ kept ↔
              (e ∈ before ∨ e = event)
              ∧ (now - 1800 < inject_Z (timestamp e) / 1000)%Q)
      ∧ Patterns.purchase_funnel r.1 = CEP._detect_purchase_funnel kept
      ∧ Patterns.fraud_pattern r.1 = CEP._detect_fraud_pattern kept
      ∧ ((inject_Z (timestamp event) / 1000 <= now - 1800)%Q → event ∉ kept).
Proof.
  intros r key before. subst r. unfold Patterns.process_event. cbn [fst snd].
  fold key. fold before. split.
  - intros k Hk. by rewrite lookup_insert_ne.
  - eexists. split; [apply lookup_insert_eq|].
    split.
    { generalize (before ++ [event]). intros l.
      induction l as [|a l IH]; cbn; [done|].
      destruct (Detector.newer_than _ a); [by apply sublist_skip|by apply sublist_cons]. }
    split.
    { intros e. rewrite elem_of_filter_bool, elem_of_app, list_elem_of_singleton.
      by rewrite newer_than_iff. }
    split; [done|]. split; [done|].
    intros Hold Hin. apply elem_of_filter_bool in Hin as [_ Hin].
    apply newer_than_iff in Hin. lra.
Qed.

(** X6.  Inside [process_event] the churn detector never reports anything:
    the buffer it is given was just trimmed to the last 30 minutes, so no
    event in it is older than a day (the clock advancing by less than 23.5
    hours between the trim and the detector). *)
Theorem X6_churn_never_fires_in_pipeline
    (now now_recent now_older : Q) (event : Event)
    (pattern_buffer : gmap string (list Event)) :
  (now_older <= now + 84600)%Q →
  Patterns.churn (Patterns.process_event now now_recent now_older event pattern_buffer).1
  = None.
Proof.
  intros Hclock. unfold Patterns.process_event. cbn [fst Patterns.churn].
  apply (churn_silent_on_recent now); [exact Hclock|].
  intros e He. by apply elem_of_filter_bool in He as [_ He].
Qed.

Lemma X6_churn_never_fires_in_pipeline_witness :
  let old := mk_event "e0" "u1" "s1" "click" 0 None in
  let event := mk_event "e1" "u1" "s1" "click" 1700000000000 None in
  let buffer : gmap string (list Event) := {[ "u1:s1"%string := [old] ]} in
  (1700000001 <= 1700000000 + 84600)%Q
  ∧ Patterns.churn
      (Patterns.process_event 1700000000 1700000001 1700000001 event buffer).1 = None.
Proof.
  intros old event buffer.
  assert (H : (1700000001 <= 1700000000 + 84600)%Q) by (unfold Qle; simpl; lia).
  split; [exact H|].
  exact (X6_churn_never_fires_in_pipeline 1700000000 1700000001 1700000001 event buffer H).
Defined.

(** ** The churn detector on its own *)

Section ChurnFacts.

Import Patterns.

Lemma inject_nat_pos (n : nat) : (1 <= n)%nat → (1 <= inject_Z (Z.of_nat n))%Q.
Proof. intros H. unfold Qle, inject_Z. simpl. lia. Qed.

Lemma inject_nat_nonneg (n : nat) : (0 <= inject_Z (Z.of_nat n))%Q.
Proof. unfold Qle, inject_Z. simpl. lia. Qed.

(** [len(older) / max(1, len(older) / 10)] is the smaller of [len(older)]
    and 10. *)
Lemma older_rate_value (n : nat) :
  (1 <= n)%nat →
  (inject_Z (Z.of_nat n) / py_max 1 (inject_Z (Z.of_nat n) / 10)
   == inject_Z (Z.of_nat (Nat.min n 10)))%Q.
Proof.
  intros Hn. pose proof (inject_nat_pos n Hn) as Hpos.
  unfold py_max. destruct (Qlt_le_dec 1 (inject_Z (Z.of_nat n) / 10)) as [Hbig|Hsmall].
  - assert (10 < Z.of_nat n) as Hz.
    { revert Hbig. unfold Qlt, Qdiv, Qmult, Qinv, inject_Z. simpl. lia. }
    rewrite Nat.min_r by lia. simpl (Z.of_nat 10).
    field. lra.
  - assert (Z.of_nat n ≤ 10) as Hz.
    { revert Hsmall. unfold Qle, Qdiv, Qmult, Qinv, inject_Z. simpl. lia. }
    rewrite Nat.min_l by lia. field.
Qed.

Lemma inject_nat_lt (a b : nat) (k l : Z) :
  0 < k → 0 < l →
  (inject_Z (Z.of_nat a) * inject_Z k < inject_Z (Z.of_nat b) * inject_Z l)%Q
  ↔ Z.of_nat a * k < Z.of_nat b * l.
Proof. intros Hk Hl. unfold Qlt, Qmult, inject_Z. simpl. lia. Qed.

Lemma decline_bounds (o r : Q) :
  (0 < o)%Q → (0 <= r)%Q → (r < o * 0.3)%Q →
  (0.7 < (o - r) / o)%Q ∧ ((o - r) / o <= 1)%Q.
Proof.
  intros Ho Hr Hlt. split.
  - apply Qlt_shift_div_l; [exact Ho|]. lra.
  - apply Qle_shift_div_r; [exact Ho|]. lra.
Qed.

Lemma churn_characterised now_recent now_older (events : list Event) :
  let n_recent := length (List.filter (Detector.newer_than (now_recent - 86400)) events) in
  let n_older := length (List.filter (not_newer_than (now_older - 86400)) events) in
  match _detect_churn_risk now_recent now_older events with
  | Some r =>
      (1 <= n_older)%nat ∧ (10 * n_recent < 3 * Nat.min n_older 10)%nat
      ∧ (recent_activity r == inject_Z (Z.of_nat n_recent))%Q
      ∧ (0.7 < engagement_decline r)%Q ∧ (engagement_decline r <= 1)%Q
  | None => ¬ ((1 <= n_older)%nat ∧ (10 * n_recent < 3 * Nat.min n_older 10)%nat)
  end.
Proof.
  intros n_recent n_older. unfold _detect_churn_risk.
  destruct events as [|e0 events].
  { cbn in n_older. subst n_older. intros [H _]. cbn in H. lia. }
  fold n_recent. fold n_older.
  destruct (Nat.ltb_spec 0 n_older) as [Hpos|Hzero]; [|intros [H _]; lia].
  assert (Hn : (1 <= n_older)%nat) by lia.
  pose proof (older_rate_value n_older Hn) as Hrate.
  set (o := (inject_Z (Z.of_nat n_older)
             / py_max 1 (inject_Z (Z.of_nat n_older) / 10))%Q) in *.
  set (r := (inject_Z (Z.of_nat n_recent) / 1)%Q).
  assert (Hr : (r == inject_Z (Z.of_nat n_recent))%Q) by (unfold r; field).
  assert (Hcond : (r < o * 0.3)%Q ↔ (10 * n_recent < 3 * Nat.min n_older 10)%nat).
  { rewrite Hr, Hrate. unfold Qlt, Qmult, inject_Z. simpl. lia. }
  destruct (Qlt_bool r (o * 0.3)) eqn:E.
  - apply Qlt_bool_iff in E. cbn [recent_activity engagement_decline].
    split; [exact Hn|]. split; [by apply Hcond|]. split; [exact Hr|].
    apply decline_bounds; [|rewrite Hr; apply inject_nat_nonneg|exact E].
    rewrite Hrate. pose proof (inject_nat_pos (Nat.min n_older 10) ltac:(lia)). lra.
  - intros [_ H]. apply Hcond, Qlt_bool_iff in H. congruence.
Qed.

End ChurnFacts.

(** X7.  The churn detector reports a risk exactly when the buffer holds at
    least one event older than a day and ten times the number of events of
    the last day is below three times the smaller of the number of older
    events and 10 (so at most two recent events); the reported recent
    activity is that number of recent events and the reported engagement
    decline lies in (0.7, 1]. *)
Theorem X7_churn_detector (now_recent now_older : Q) (events : list Event) :
  let n_recent :=
    length (List.filter (Detector.newer_than (now_recent - 86400)) events) in
  let n_older :=
    length (List.filter (Patterns.not_newer_than (now_older - 86400)) events) in
  (is_Some (Patterns._detect_churn_risk now_recent now_older events) ↔
     ((1 <= n_older)%nat ∧ (10 * n_recent < 3 * Nat.min n_older 10)%nat))
  ∧ match Patterns._detect_churn_risk now_recent now_older events with
    | Some r =>
        (n_recent <= 2)%nat
        ∧ (Patterns.recent_activity r == inject_Z (Z.of_nat n_recent))%Q
        ∧ (0.7 < Patterns.engagement_decline r)%Q
        ∧ (Patterns.engagement_decline r <= 1)%Q
    | None => True
    end.
Proof.
  intros n_recent n_older.
  pose proof (churn_characterised now_recent now_older events) as H.
  fold n_recent n_older in H.
  destruct (Patterns._detect_churn_risk now_recent now_older events) as [r|].
  - destruct H as (H1 & H2 & H3 & H4 & H5). split.
    + split; [by intros _|by eauto].
    + repeat split; [lia|done..].
  - split; [|done]. split; [by intros [? ?]|]. intros Hc. by destruct H.
Qed.

(** ** What the funnel and fraud detectors report *)

Section ReportFacts.

Lemma size_list_to_set_le (l : list string) :
  (size (list_to_set l : gset string) <= length l)%nat.
Proof.
  induction l as [|x l IH]; cbn.
  - by rewrite size_empty.
  - rewrite size_union_alt, size_singleton.
    assert (size (list_to_set l ∖ {[x]} : gset string) <= size (list_to_set l : gset string))%nat
      by (apply subseteq_size; set_solver).
    lia.
Qed.

Lemma Qsum_below (c : Q) (l : list Q) :
  Forall (fun x => (x < c)%Q) l → l ≠ [] →
  (Qsum l < inject_Z (Z.of_nat (length l)) * c)%Q.
Proof.
  induction l as [|a l IH] using rev_ind; [done|].
  intros Hall _. apply Forall_app in Hall as [Hl Ha]. apply Forall_cons in Ha as [Ha _].
  rewrite Qsum_snoc, length_app. cbn [length].
  assert (Hlen : (inject_Z (Z.of_nat (length l + 1)) == inject_Z (Z.of_nat (length l)) + 1)%Q).
  { rewrite Nat2Z.inj_add, inject_Z_plus. reflexivity. }
  rewrite Hlen. destruct l as [|b l].
  - change (Qsum []) with 0%Q. change (inject_Z (Z.of_nat (length (@nil Q)))) with 0%Q. lra.
  - specialize (IH Hl ltac:(done)). lra.
Qed.

Lemma mean_below (c : Q) (l : list Q) :
  Forall (fun x => (x < c)%Q) l → l ≠ [] → (mean l < c)%Q.
Proof.
  intros Hall Hne. unfold mean. apply Qlt_shift_div_r.
  - destruct l; [done|]. unfold Qlt, inject_Z. cbn. lia.
  - pose proof (Qsum_below c l Hall Hne). lra.
Qed.

End ReportFacts.

(** X8.  When the funnel detector fires, it reports [funnel_completed] and a
    number of steps (distinct event types in the buffer) that is at least 3
    and at most the length of the buffer. *)
Theorem X8_funnel_steps (events : list Event) :
  match CEP._detect_purchase_funnel events with
  | Some r =>
      CEP.funnel_completed r = true
      ∧ (3 <= CEP.steps r)%nat ∧ (CEP.steps r <= length events)%nat
  | None => True
  end.
Proof.
  destruct (CEP._detect_purchase_funnel events) as [r|] eqn:Hr; [|done].
  apply purchase_funnel_Some in Hr
    as (v & c & p & view & purchase & Hv & Hc & Hp & Hord & Ev & Ep & ->).
  cbn. split; [done|]. split.
  - assert (Hthree : ({[ "page_view"; "click"; "purchase" ]} : gset string)
                     ⊆ list_to_set (event_type <$> events)).
    { assert (Hin : ∀ ty i, CEP.first_index ty events i → ty ∈ event_type <$> events).
      { intros ty i [H _]. rewrite <- list_lookup_fmap in H.
        by eapply list_elem_of_lookup_2. }
      intros x Hx. apply elem_of_list_to_set.
      apply elem_of_union in Hx as [Hx|Hx]; [apply elem_of_union in Hx as [Hx|Hx]|];
        apply elem_of_singleton in Hx; subst x; eauto. }
    apply subseteq_size in Hthree.
    assert (Hsz : size ({[ "page_view"; "click"; "purchase" ]} : gset string) = 3%nat)
      by (vm_compute; reflexivity).
    lia.
  - etrans; [apply size_list_to_set_le|]. by rewrite length_fmap.
Qed.

(** X9.  When the fraud detector fires, it reports [rapid_purchases], a
    purchase count that is at least 3 and at most the length of the buffer,
    and an average gap below 60 seconds. *)
Theorem X9_fraud_report (events : list Event) :
  match CEP._detect_fraud_pattern events with
  | Some r =>
      CEP.rapid_purchases r = true
      ∧ (3 <= CEP.purchase_count r)%nat ∧ (CEP.purchase_count r <= length events)%nat
      ∧ (CEP.avg_time_between r < 60)%Q
  | None => True
  end.
Proof.
  rewrite fraud_pattern_characterised.
  case_decide as Hc; [|done]. destruct Hc as [H3 Hgaps]. cbn.
  split; [done|]. split; [done|]. split; [apply purchases_length_le|].
  apply mean_below.
  - apply Forall_fmap. eapply Forall_impl; [exact Hgaps|].
    intros g Hg. cbn. by apply Qlt_bool_iff, seconds_below_minute.
  - destruct (CEP.purchases_of events) as [|a [|b l]]; cbn in H3; [lia..|done].
Qed.

(** ** The processor's own anomaly model *)

Section StageModelFacts.

Import StageModel.

Context {Features : Type}.
Variable extract_features : Event → Features.
Variable decision_function : list Features → Features → Q.

Local Abbreviation update := (update_model extract_features).
Local Abbreviation updated := (update_all extract_features).

Lemma bounded_append_length {A} (n : nat) (l : list A) (x : A) :
  length (Detector.bounded_append n l x) = Nat.min (length l + 1) n.
Proof.
  unfold Detector.bounded_append. rewrite length_drop, length_app. cbn. lia.
Qed.

Lemma buffer_after_update (n : nat) (feats : list Features) (x : Features) :
  length feats = n →
  Detector.bounded_append 1000 (drop (n - 1000) feats) x
  = drop (n + 1 - 1000) (feats ++ [x]).
Proof.
  intros Hn. unfold Detector.bounded_append.
  rewrite length_app, length_drop, Hn. cbn [length].
  rewrite <- (drop_app_le feats [x] (n - 1000)) by lia.
  rewrite drop_drop. f_equal. lia.
Qed.

Lemma last_training_le (n : nat) : (last_training n <= n)%nat.
Proof.
  unfold last_training.
  destruct (Nat.ltb_spec n 100); [lia|].
  destruct (Nat.ltb_spec n 1000); [|lia].
  pose proof (Nat.div_mod_eq n 50). lia.
Qed.

Lemma last_training_retrain (n : nat) :
  (100 <= Nat.min (n + 1) 1000)%nat → (Nat.min (n + 1) 1000 mod 50 = 0)%nat →
  last_training (n + 1) = (n + 1)%nat.
Proof.
  intros H100 Hmod. unfold last_training.
  destruct (Nat.ltb_spec (n + 1) 100); [lia|].
  destruct (Nat.ltb_spec (n + 1) 1000) as [Hlt|]; [|done].
  rewrite Nat.min_l in Hmod by lia.
  pose proof (Nat.div_mod_eq (n + 1) 50). lia.
Qed.

Lemma mod_succ_nonzero (n : nat) :
  ((n + 1) mod 50 ≠ 0)%nat → ((n + 1) / 50 = n / 50)%nat.
Proof.
  intros Hne.
  pose proof (Nat.div_mod_eq (n + 1) 50) as H1.
  pose proof (Nat.div_mod_eq n 50) as H2.
  pose proof (Nat.mod_upper_bound (n + 1) 50 ltac:(lia)) as B1.
  pose proof (Nat.mod_upper_bound n 50 ltac:(lia)) as B2.
  nia.
Qed.

Lemma last_training_keep (n : nat) :
  ¬ ((100 <= Nat.min (n + 1) 1000)%nat ∧ (Nat.min (n + 1) 1000 mod 50 = 0)%nat) →
  last_training (n + 1) = last_training n ∧ (n + 1 < 1000)%nat
  ∧ ((100 <= n + 1)%nat → (100 <= n)%nat).
Proof.
  intros Hno.
  assert (Hlt : (n + 1 < 1000)%nat).
  { destruct (Nat.ltb_spec (n + 1) 1000) as [|Hge]; [done|]. exfalso. apply Hno.
    rewrite Nat.min_r by lia. split; [lia|reflexivity]. }
  rewrite Nat.min_l in Hno by lia.
  split; [|split; [done|]].
  - unfold last_training.
    destruct (Nat.ltb_spec (n + 1) 100), (Nat.ltb_spec n 100); try lia.
    + exfalso. apply Hno. split; [lia|]. replace (n + 1)%nat with 100%nat by lia. reflexivity.
    + destruct (Nat.ltb_spec (n + 1) 1000), (Nat.ltb_spec n 1000); try lia.
      rewrite mod_succ_nonzero; [done|]. intros Hmod. apply Hno. split; [lia|done].
  - intros H100. destruct (Nat.eq_dec (n + 1) 100) as [E|]; [|lia].
    exfalso. apply Hno. split; [lia|]. rewrite E. reflexivity.
Qed.

Lemma updated_snoc events e m :
  updated (events ++ [e]) m = update e (updated events m).
Proof. unfold update_all. by rewrite fold_left_app. Qed.

(** The state of the model after any sequence of updates. *)
Lemma model_after_updates (events : list Event) :
  let m := updated events new_model in
  let n := length events in
  let feats := extract_features <$> events in
  feature_buffer m = drop (n - 1000) feats
  ∧ is_trained m = bool_decide (100 <= n)%nat
  ∧ fitted_on m = drop (last_training n - 1000) (take (last_training n) feats).
Proof.
  induction events as [|e events IH] using rev_ind; [by repeat split|].
  cbn zeta in *. destruct IH as (Hbuf & Htr & Hfit).
  rewrite updated_snoc, length_app, fmap_app. cbn [length fmap list_fmap].
  set (n := length events) in *. set (feats := extract_features <$> events) in *.
  assert (Hlen : length feats = n) by (unfold feats; by rewrite length_fmap).
  unfold update_model. rewrite Hbuf.
  rewrite (buffer_after_update n feats _ Hlen).
  assert (Hblen : length (drop (n + 1 - 1000) (feats ++ [extract_features e]))
                  = Nat.min (n + 1) 1000).
  { rewrite length_drop, length_app, Hlen. cbn. lia. }
  rewrite Hblen.
  destruct (Nat.leb_spec 100 (Nat.min (n + 1) 1000)) as [H100|H100];
    [destruct (Nat.eqb_spec (Nat.min (n + 1) 1000 mod 50) 0) as [Hmod|Hmod]|]; cbn.
  - rewrite (last_training_retrain n H100 Hmod).
    rewrite take_ge by (rewrite length_app, Hlen; cbn; lia).
    split; [done|]. split; [|done]. symmetry. apply bool_decide_eq_true_2. lia.
  - destruct (last_training_keep n) as (Hk & Hlt & Hge); [intros [_ ?]; done|].
    rewrite Hk, Hfit, Htr. split; [done|]. split.
    + apply bool_decide_ext. lia.
    + rewrite take_app_le by (rewrite Hlen; apply last_training_le). done.
  - destruct (last_training_keep n) as (Hk & Hlt & Hge); [intros [? _]; lia|].
    rewrite Hk, Hfit, Htr. split; [done|]. split.
    + apply bool_decide_ext. lia.
    + rewrite take_app_le by (rewrite Hlen; apply last_training_le). done.
Qed.

Lemma stage_score_bounds (m : MLAnomalyDetector) (event : Event) :
  (0 <= get_anomaly_score extract_features decision_function m event <= 1)%Q.
Proof.
  unfold get_anomaly_score. destruct (is_trained m); [|lra].
  set (s := decision_function _ _).
  pose proof (py_min_le_1 ((0.5 - s) / 1)).
  unfold py_max. destruct (Qlt_le_dec 0 _); lra.
Qed.

End StageModelFacts.

(** X10.  After any sequence of [update_model] calls on a new model, the
    feature buffer holds the features of the last 1000 events at most; the
    model is trained exactly when at least 100 events were seen; it was last
    fitted at the most recent multiple of 50 events (from 100 on), and on
    every event once 1000 were seen, on the buffer of that moment.  The
    anomaly score is 0 before the 100th event and always lies in [0,1]. *)
Theorem X10_stage_model_schedule {Features : Type}
    (extract_features : Event → Features)
    (decision_function : list Features → Features → Q)
    (events : list Event) (event : Event) :
  let m := StageModel.update_all extract_features events StageModel.new_model in
  let n := length events in
  let feats := extract_features <$> events in
  let k := StageModel.last_training n in
  let score := StageModel.get_anomaly_score extract_features decision_function m event in
  StageModel.feature_buffer m = drop (n - 1000) feats
  ∧ StageModel.is_trained m = bool_decide (100 <= n)%nat
  ∧ StageModel.fitted_on m = drop (k - 1000) (take k feats)
  ∧ ((1000 <= n)%nat → StageModel.fitted_on m = StageModel.feature_buffer m)
  ∧ ((n < 100)%nat → score = 0%Q)
  ∧ (0 <= score)%Q ∧ (score <= 1)%Q.
Proof.
  intros m n feats k score.
  destruct (model_after_updates extract_features events) as (Hbuf & Htr & Hfit).
  fold m n feats k in Hbuf, Htr, Hfit.
  split; [exact Hbuf|]. split; [exact Htr|]. split; [exact Hfit|]. split.
  - intros Hn. rewrite Hfit, Hbuf.
    assert (Hk : k = n).
    { unfold k, StageModel.last_training.
      destruct (Nat.ltb_spec n 100); [lia|]. destruct (Nat.ltb_spec n 1000); [lia|done]. }
    rewrite Hk. rewrite take_ge; [done|]. unfold feats. rewrite length_fmap. done.
  - split.
    + intros Hn. unfold score, StageModel.get_anomaly_score. rewrite Htr.
      rewrite bool_decide_eq_false_2 by lia. done.
    + apply stage_score_bounds.
Qed.

(** ** Circuit breaker: reachable states *)

Section BreakerInvariant.

Import Breaker.
Context {W R : Type}.

Lemma call_consistent (cb : CircuitBreaker) now (f : W → Raised R * W) now_failed w :
  1 ≤ failure_threshold cb → breaker_consistent cb →
  let r := call cb now f now_failed w in
  breaker_consistent r.1.2
  ∧ failure_threshold r.1.2 = failure_threshold cb
  ∧ timeout r.1.2 = timeout cb
  ∧ r.1.1 ≠ NoFailureTime.
Proof.
  intros Hth Hc. unfold breaker_consistent in *. unfold call, gate.
  destruct (state cb) eqn:Hs; [| |done].
  - destruct (f w) as [[result|what] w']; cbn.
    + unfold on_success. rewrite Hs. cbn. rewrite Hs. by repeat split.
    + rewrite Hs. destruct (Z.leb_spec (failure_threshold cb) (failure_count cb + 1));
        repeat split; eauto; lia.
  - destruct Hc as [Hcount [t Ht]]. rewrite Ht.
    destruct (Qlt_le_dec _ _).
    + destruct (f w) as [[result|what] w']; cbn.
      * repeat split; try done. lia.
      * destruct (Z.leb_spec (failure_threshold cb) (failure_count cb + 1));
          [|lia]. repeat split; eauto; lia.
    + cbn. rewrite Hs, Ht. repeat split; eauto.
Qed.

Lemma run_consistent (th to : Z) (calls : list (Call W R)) (w : W) :
  1 ≤ th →
  let r := run (new_breaker th to) calls w in
  breaker_consistent r.1.2
  ∧ failure_threshold r.1.2 = th
  ∧ timeout r.1.2 = to
  ∧ NoFailureTime ∉ r.1.1.
Proof.
  intros Hth. induction calls as [|c calls IH] using rev_ind.
  - cbn. unfold breaker_consistent. cbn. repeat split; [lia|]. apply not_elem_of_nil.
  - cbn zeta in *. rewrite run_snoc.
    destruct (run (new_breaker th to) calls w) as [[outs cb] w1]. cbn in IH.
    destruct IH as (Hc & Ht & Hto & Hno). unfold step.
    pose proof (call_consistent cb (at_time c) (func c) (failed_at c) w1
                  ltac:(lia) Hc) as Hstep.
    destruct (call cb (at_time c) (func c) (failed_at c) w1) as [[o cb'] w2].
    cbn in Hstep |- *. destruct Hstep as (H1 & H2 & H3 & H4).
    repeat split; [done|congruence|congruence|].
    intros Hin. apply elem_of_app in Hin as [Hin|Hin]; [done|].
    apply list_elem_of_singleton in Hin. done.
Qed.

End BreakerInvariant.

(** X11.  Between calls, a breaker created with a threshold of at least 1 is
    never half-open; it is closed exactly while [failure_count] is below the
    threshold and open with a recorded failure time otherwise; its threshold
    and timeout never change, and no call ever fails for want of a failure
    time. *)
Theorem X11_breaker_states {W R : Type}
    (failure_threshold timeout : Z) (calls : list (Breaker.Call W R)) (w : W) :
  1 ≤ failure_threshold →
  let r := Breaker.run (Breaker.new_breaker failure_threshold timeout) calls w in
  let cb := r.1.2 in
  Breaker.state cb ≠ Breaker.half_open
  ∧ (Breaker.state cb = Breaker.closed ↔ Breaker.failure_count cb < failure_threshold)
  ∧ (Breaker.state cb = Breaker.opened → is_Some (Breaker.last_failure_time cb))
  ∧ Breaker.failure_threshold cb = failure_threshold
  ∧ Breaker.timeout cb = timeout
  ∧ Breaker.NoFailureTime ∉ r.1.1.
Proof.
  intros Hth r cb.
  destruct (run_consistent failure_threshold timeout calls w Hth) as (Hc & Ht & Hto & Hno).
  fold r in Hc, Ht, Hto, Hno. fold cb in Hc, Ht, Hto.
  unfold breaker_consistent in Hc. rewrite Ht in Hc.
  destruct (Breaker.state cb) eqn:Hs; [| |done].
  - repeat split; try done.
  - destruct Hc as [Hcount Hsome]. repeat split; try done. lia.
Qed.

Lemma X11_breaker_states_witness :
  let boom := fun w : nat => (@Raise unit "boom", S w) in
  let c := fun t : Q => {| Breaker.at_time := t; Breaker.func := boom; Breaker.failed_at := t |} in
  let r := Breaker.run (Breaker.new_breaker 2 60) [c 1%Q; c 2%Q; c 3%Q] O in
  1 ≤ 2
  ∧ (Breaker.state r.1.2 = Breaker.closed ↔ Breaker.failure_count r.1.2 < 2).
Proof.
  intros boom c r.
  assert (H : 1 ≤ 2) by lia.
  split; [exact H|].
  exact (proj1 (proj2 (X11_breaker_states (W := nat) (R := unit) 2 60
                         [c 1%Q; c 2%Q; c 3%Q] O H))).
Defined.

(** X12.  When the timeout has passed on an open breaker and the probing
    call fails, the breaker is open again, the failure is counted, and the
    failure time is the time of this failure, so the timeout starts anew. *)
Theorem X12_failed_probe_reopens {W R : Type}
    (cb : Breaker.CircuitBreaker) (t now now_failed : Q)
    (f : W → Raised R * W) (w w' : W) (what : string) :
  breaker_consistent cb →
  Breaker.state cb = Breaker.opened →
  Breaker.last_failure_time cb = Some t →
  (inject_Z (Breaker.timeout cb) < now - t)%Q →
  f w = (Raise what, w') →
  Breaker.call cb now f now_failed w
  = (Breaker.Failed what,
     {| Breaker.failure_threshold := Breaker.failure_threshold cb;
        Breaker.timeout := Breaker.timeout cb;
        Breaker.failure_count := Breaker.failure_count cb + 1;
        Breaker.last_failure_time := Some now_failed;
        Breaker.state := Breaker.opened |}, w').
Proof.
  intros Hc Hs Ht Hlt Hf. unfold breaker_consistent in Hc. rewrite Hs in Hc.
  destruct Hc as [Hcount _].
  unfold Breaker.call, Breaker.gate. rewrite Hs, Ht.
  destruct (Qlt_le_dec _ _) as [_|Hle]; [|lra].
  rewrite Hf. unfold Breaker.on_failure, Breaker.with_state. cbn.
  destruct (Z.leb_spec (Breaker.failure_threshold cb) (Breaker.failure_count cb + 1)); [done|lia].
Qed.

Lemma X12_failed_probe_reopens_witness :
  let cb := {| Breaker.failure_threshold := 5; Breaker.timeout := 60;
               Breaker.failure_count := 5; Breaker.last_failure_time := Some 10%Q;
               Breaker.state := Breaker.opened |} in
  let boom := fun w : nat => (@Raise unit "boom", S w) in
  breaker_consistent cb
  ∧ Breaker.state (Breaker.call cb 71 boom 72 O).1.2 = Breaker.opened
  ∧ Breaker.last_failure_time (Breaker.call cb 71 boom 72 O).1.2 = Some 72%Q.
Proof.
  intros cb boom.
  assert (Hc : breaker_consistent cb).
  { unfold breaker_consistent. cbn. split; [lia|eauto]. }
  split; [exact Hc|].
  assert (Hlt : (inject_Z (Breaker.timeout cb) < 71 - 10)%Q) by (unfold Qlt; cbn; lia).
  rewrite (X12_failed_probe_reopens (R := unit) cb 10%Q 71%Q 72%Q boom O 1%nat "boom"
             Hc eq_refl eq_refl Hlt eq_refl).
  split; reflexivity.
Defined.

(** ** The producer loop *)

(** X13.  In the producer loop the circuit breaker never leaves its initial
    state: the wrapped [produce_batch] is a coroutine function, so the call
    made by the breaker returns without raising, and a failing write
    surfaces only when the loop awaits the result, where it is counted by
    the rate limiter. *)
Theorem X13_producer_breaker_never_trips
    (BASE_RATE : Z) (now : Q) (passes : list Producer.Pass) :
  Producer.circuit_breaker (Producer.run passes (Producer.new_producer BASE_RATE now))
  = Breaker.default_breaker.
Proof.
  unfold Producer.run.
  assert (Hinv : ∀ p, Producer.circuit_breaker p = Breaker.default_breaker →
                      Producer.circuit_breaker (fold_left Producer.pass passes p)
                      = Breaker.default_breaker).
  { induction passes as [|i passes IH]; intros p Hp; [exact Hp|].
    cbn [fold_left]. apply IH. unfold Producer.pass.
    destruct (Limiter.should_allow _ _ _) as [[[|]|what] rl]; [|done..].
    rewrite Hp. cbn. by destruct (Producer.write i) as [[|]|]. }
  by apply Hinv.
Qed.

(** ** Rate limiter: sequences of operations *)

Section LimiterRuns.

Import Limiter.

Lemma should_allow_state (rl : AdaptiveRateLimiter) (now draw : Q) :
  let rl' := (should_allow rl now draw).2 in
  base_rate rl' = base_rate rl
  ∧ (current_rate rl' = current_rate rl ∧ success_count rl' = success_count rl
     ∧ error_count rl' = error_count rl
     ∨ current_rate rl' = current_rate (_adjust_rate rl) ∧ success_count rl' = 0
       ∧ error_count rl' = 0).
Proof.
  unfold should_allow. destruct (Qlt_le_dec 10 _); case_decide; cbn; auto.
Qed.

Lemma within_bounds_rate (rl rl' : AdaptiveRateLimiter) :
  base_rate rl' = base_rate rl → current_rate rl' = current_rate rl →
  within_bounds rl → within_bounds rl'.
Proof. unfold within_bounds. by intros -> ->. Qed.

Lemma limiter_step_within_bounds (rl : AdaptiveRateLimiter) (op : LimiterOp) :
  within_bounds rl →
  within_bounds (limiter_step rl op) ∧ base_rate (limiter_step rl op) = base_rate rl.
Proof.
  intros Hwb. destruct op as [now draw|batch|]; cbn; [|done..].
  destruct (should_allow_state rl now draw) as (Hb & [(Hr & _)|(Hr & _)]).
  - split; [|done]. by eapply within_bounds_rate.
  - split; [|done]. eapply (within_bounds_rate (_adjust_rate rl)); [done..|].
    by apply adjust_rate_within_bounds.
Qed.

Lemma limiter_run_within_bounds (ops : list LimiterOp) (rl : AdaptiveRateLimiter) :
  within_bounds rl →
  within_bounds (limiter_run ops rl) ∧ base_rate (limiter_run ops rl) = base_rate rl.
Proof.
  revert rl. induction ops as [|op ops IH]; intros rl Hwb; [done|].
  unfold limiter_run in *. cbn [fold_left].
  destruct (limiter_step_within_bounds rl op Hwb) as [H1 H2].
  destruct (IH _ H1) as [G1 G2]. split; [done|congruence].
Qed.

(** The decision of [should_allow], by the rate after a possible
    adjustment. *)
Lemma should_allow_decision (rl : AdaptiveRateLimiter) (now draw : Q) :
  base_rate rl ≠ 0 →
  let r := should_allow rl now draw in
  r.1 = Return (Qlt_bool draw (current_rate r.2 / inject_Z (base_rate rl))).
Proof.
  intros Hb. unfold should_allow. destruct (Qlt_le_dec 10 _); cbn; by rewrite decide_False.
Qed.

Lemma ratio_at_least (rate base c : Q) :
  (0 < base)%Q → (base * c <= rate)%Q → (c <= rate / base)%Q.
Proof. intros Hb H. apply Qle_shift_div_l; [done|]. lra. Qed.

End LimiterRuns.

(** X14.  Whatever is recorded and whenever adjustments are made, the rate
    of a limiter created with a positive base rate stays between 10% and
    200% of the base rate, which never changes; [should_allow] then never
    raises and lets every draw below 0.1 through. *)
Theorem X14_limiter_rate_bounded
    (base_rate : Z) (created : Q) (ops : list LimiterOp) (now draw : Q) :
  0 < base_rate →
  let rl := limiter_run ops (Limiter.new_limiter base_rate created) in
  Limiter.base_rate rl = base_rate
  ∧ (inject_Z base_rate * 0.1 <= Limiter.current_rate rl)%Q
  ∧ (Limiter.current_rate rl <= inject_Z base_rate * 2)%Q
  ∧ (∃ allowed, (Limiter.should_allow rl now draw).1 = Return allowed)
  ∧ ((draw < 0.1)%Q → (Limiter.should_allow rl now draw).1 = Return true).
Proof.
  intros Hb rl.
  destruct (limiter_run_within_bounds ops (Limiter.new_limiter base_rate created))
    as [Hwb Hbase]; [by apply new_limiter_within_bounds|].
  fold rl in Hwb, Hbase. cbn in Hbase.
  pose proof Hwb as (_ & Hlo & Hhi). rewrite Hbase in Hlo, Hhi.
  split; [done|]. split; [done|]. split; [done|].
  assert (Hne : Limiter.base_rate rl ≠ 0) by lia.
  pose proof (should_allow_decision rl now draw Hne) as Hd. cbn zeta in Hd.
  split; [eauto|]. intros Hdraw. rewrite Hd. f_equal. apply Qlt_bool_iff.
  destruct (limiter_step_within_bounds rl (Allow now draw) Hwb) as [(_ & Hlo' & _) Hb'].
  cbn [limiter_step] in Hlo', Hb'. rewrite Hb' in Hlo'.
  assert (0 < inject_Z (Limiter.base_rate rl))%Q
    by (unfold Qlt, inject_Z; cbn; lia).
  pose proof (ratio_at_least _ _ 0.1 H Hlo'). lra.
Qed.

Lemma X14_limiter_rate_bounded_witness :
  let ops := [Errored; Succeeded 5; Allow 11 (1#2); Errored; Allow 22 (1#2)] in
  0 < 1000
  ∧ (inject_Z 1000 * 0.1
     <= Limiter.current_rate (limiter_run ops (Limiter.new_limiter 1000 0)))%Q.
Proof.
  intros ops.
  assert (H : 0 < 1000) by lia.
  split; [exact H|].
  exact (proj1 (proj2 (X14_limiter_rate_bounded 1000 0 ops 0 0 H))).
Defined.

Section LimiterErrorFree.

Import Limiter.

Lemma adjust_rate_unthrottled (rl : AdaptiveRateLimiter) :
  unthrottled rl → (inject_Z (base_rate rl) <= current_rate (_adjust_rate rl))%Q.
Proof.
  intros ((Hb & Hlo & Hhi) & He & Hs & Hrate). unfold _adjust_rate. cbn. rewrite He.
  assert (0 < inject_Z (base_rate rl))%Q by (unfold Qlt, inject_Z; cbn; lia).
  destruct (Qlt_le_dec _ _) as [Hlt|_].
  - apply errors_above_tenth in Hlt. lia.
  - destruct (Qlt_le_dec _ _); [|done].
    unfold py_min. destruct (Qlt_le_dec _ _); lra.
Qed.

Lemma limiter_step_unthrottled (rl : AdaptiveRateLimiter) (op : LimiterOp) :
  error_free op → unthrottled rl → unthrottled (limiter_step rl op).
Proof.
  intros Hop Hu. pose proof Hu as (Hwb & He & Hs & Hrate).
  destruct (limiter_step_within_bounds rl op Hwb) as [Hwb' Hb'].
  split; [done|]. rewrite Hb'.
  destruct op as [now draw|batch|]; cbn in *; [|repeat split; (done || lia)|done].
  destruct (should_allow_state rl now draw) as (_ & [(Hr & Hsc & Hec)|(Hr & Hsc & Hec)]);
    rewrite Hr, Hsc, Hec.
  - by repeat split.
  - repeat split; [lia|]. by apply adjust_rate_unthrottled.
Qed.

Lemma limiter_run_unthrottled (ops : list LimiterOp) (rl : AdaptiveRateLimiter) :
  Forall error_free ops → unthrottled rl → unthrottled (limiter_run ops rl).
Proof.
  revert rl. induction ops as [|op ops IH]; intros rl Hops Hu; [done|].
  apply Forall_cons in Hops as [Hop Hops]. unfold limiter_run in *. cbn [fold_left].
  apply IH; [done|]. by apply limiter_step_unthrottled.
Qed.

End LimiterErrorFree.

(** X15.  As long as no error has been recorded, a limiter created with a
    positive base rate never throttles: its rate is never below the base
    rate and [should_allow] lets every draw below 1 through. *)
Theorem X15_no_errors_no_throttling
    (base_rate : Z) (created : Q) (ops : list LimiterOp) (now draw : Q) :
  0 < base_rate →
  Forall error_free ops →
  (draw < 1)%Q →
  let rl := limiter_run ops (Limiter.new_limiter base_rate created) in
  (inject_Z base_rate <= Limiter.current_rate rl)%Q
  ∧ Limiter.error_count rl = 0
  ∧ (Limiter.should_allow rl now draw).1 = Return true.
Proof.
  intros Hb Hops Hdraw rl.
  assert (Hnew : unthrottled (Limiter.new_limiter base_rate created)).
  { split; [by apply new_limiter_within_bounds|]. cbn. repeat split; [lia|lra]. }
  pose proof (limiter_run_unthrottled ops _ Hops Hnew) as Hu. fold rl in Hu.
  destruct (limiter_run_within_bounds ops (Limiter.new_limiter base_rate created))
    as [Hwb Hbase]; [by apply new_limiter_within_bounds|].
  fold rl in Hwb, Hbase. cbn in Hbase.
  pose proof Hu as (_ & He & _ & Hrate). rewrite Hbase in Hrate.
  split; [done|]. split; [done|].
  assert (Hne : Limiter.base_rate rl ≠ 0) by lia.
  pose proof (should_allow_decision rl now draw Hne) as Hd. cbn zeta in Hd.
  rewrite Hd. f_equal. apply Qlt_bool_iff.
  pose proof (limiter_step_unthrottled rl (Allow now draw) I Hu) as (_ & _ & _ & Hrate').
  destruct (limiter_step_within_bounds rl (Allow now draw) Hwb) as [_ Hb'].
  cbn [limiter_step] in Hrate', Hb'. rewrite Hb' in Hrate'.
  assert (0 < inject_Z (Limiter.base_rate rl))%Q
    by (unfold Qlt, inject_Z; cbn; lia).
  assert (inject_Z (Limiter.base_rate rl) * 1 <= Limiter.current_rate
            (Limiter.should_allow rl now draw).2)%Q by lra.
  pose proof (ratio_at_least _ _ 1 H H0). lra.
Qed.

Lemma X15_no_errors_no_throttling_witness :
  let ops := [Succeeded 50; Allow 11 (1#2); Succeeded 120; Allow 22 (9#10)] in
  0 < 1000
  ∧ Forall error_free ops
  ∧ (99#100 < 1)%Q
  ∧ (Limiter.should_allow (limiter_run ops (Limiter.new_limiter 1000 0)) 33 (99#100)).1
    = Return true.
Proof.
  intros ops.
  assert (H : 0 < 1000) by lia.
  assert (Hops : Forall error_free ops) by (repeat constructor; cbn; lia).
  assert (Hd : (99#100 < 1)%Q) by (unfold Qlt; cbn; lia).
  split; [exact H|]. split; [exact Hops|]. split; [exact Hd|].
  exact (proj2 (proj2 (X15_no_errors_no_throttling 1000 0 ops 33 (99#100) H Hops Hd))).
Defined.

(** ** Anomaly detector: the behavioral rules *)

Section RuleFacts.

Import Detector.

Lemma Qsum_nonneg (l : list Q) : Forall (fun x => (0 < x)%Q) l → (0 <= Qsum l)%Q.
Proof.
  induction l as [|a l IH] using rev_ind; intros H.
  - unfold Qsum. cbn. lra.
  - apply Forall_app in H as [Hl Ha]. apply Forall_cons in Ha as [Ha _].
    rewrite Qsum_snoc. specialize (IH Hl). lra.
Qed.

(** With at most three earlier purchases, all positive, the mean including
    a new positive amount is at least a quarter of that amount. *)
Lemma mean_with_new_amount (l : list Q) (a : Q) :
  (length l <= 3)%nat → Forall (fun x => (0 < x)%Q) l → (0 < a)%Q →
  (a <= mean (l ++ [a]) * 4)%Q.
Proof.
  intros Hlen Hpos Ha. unfold mean. rewrite Qsum_snoc, length_app. cbn [length].
  pose proof (Qsum_nonneg l Hpos) as Hsum.
  set (N := inject_Z (Z.of_nat (length l + 1))).
  assert (HN1 : (1 <= N)%Q) by (unfold N, Qle, inject_Z; cbn; lia).
  assert (HN4 : (N <= 4)%Q) by (unfold N, Qle, inject_Z; cbn; lia).
  assert (Hdiv : (a / 4 <= (Qsum l + a) / N)%Q).
  { apply Qle_shift_div_l; [lra|].
    assert (Hquarter : (0 < a / 4)%Q) by (apply Qlt_shift_div_l; lra).
    assert (a / 4 * N <= a / 4 * 4)%Q by (apply Qmult_le_l; [exact Hquarter|exact HN4]).
    assert (a / 4 * 4 == a)%Q by field. lra. }
  assert (a == a / 4 * 4)%Q by field. lra.
Qed.

Lemma names_without_unusual_purchase now event baselines :
  (∀ b a, event_type event = "purchase" →
          baselines !! user_id event = Some b → amount_of event = Some a →
          Qlt_bool (value (user_average (avg_purchase_amount b)) * 5) a = false) →
  Forall (fun x => anomaly_name x ≠ "unusual_purchase")
         (detect_behavioral_anomalies now event baselines).
Proof.
  intros Hno. unfold detect_behavioral_anomalies. repeat apply Forall_app_2.
  - destruct (baselines !! user_id event) as [b|]; [|constructor].
    destruct (_ <? _)%nat; repeat constructor. cbn. discriminate.
  - case_decide as Hty; [|constructor].
    destruct (amount_of event) as [a|] eqn:Ha; [|constructor].
    apply Forall_app_2.
    + destruct (baselines !! user_id event) as [b|] eqn:Hb; [|constructor].
      rewrite (Hno b a Hty eq_refl eq_refl). constructor.
    + destruct (Qlt_bool _ _); repeat constructor. cbn. discriminate.
  - destruct (_ || _); repeat constructor. cbn. discriminate.
Qed.

Lemma amount_of_Some event a : amount_of event = Some a → amount event = Some a.
Proof.
  unfold amount_of. destruct (amount event) as [x|]; [|done].
  destruct (Qeq_bool x 0); [done|]. by intros [= ->].
Qed.

Lemma hour_of_range (ts : Z) : 0 ≤ hour_of ts < 24.
Proof. unfold hour_of. apply Z.mod_pos_bound. lia. Qed.

(** The average an identified user's purchase is compared with: the mean of
    the earlier purchases and the new amount. *)
Lemma average_after_purchase now event baselines b a :
  user_id event ≠ "" → event_type event = "purchase" → amount_of event = Some a →
  update_user_baseline now event baselines !! user_id event = Some b →
  user_average (avg_purchase_amount b)
  = np (mean (match baselines !! user_id event with
              | Some b0 => purchases b0
              | None => []
              end ++ [a])).
Proof.
  intros Hu Hty Ha. unfold update_user_baseline.
  rewrite decide_False by done. rewrite lookup_insert_eq. intros [= <-].
  cbn [avg_purchase_amount]. rewrite decide_True by done. rewrite Ha.
  destruct (baselines !! user_id event) as [b0|]; cbn [default from_option id purchases].
  - by destruct (purchases b0).
  - reflexivity.
Qed.

End RuleFacts.

(** X16.  The [unusual_purchase] rule never fires for an identified user
    with at most three earlier recorded purchases, all of them and the new
    amount positive: the baseline is updated before the rules run, so the
    average the amount is compared with already includes it and is at least
    a quarter of it, while the rule asks for an amount above five times the
    average. *)
Theorem X16_unusual_purchase_needs_history {Features : Type}
    (extract_features : gmap string Detector.Baseline → Event → Raised Features)
    (decision_function : Detector.Detector → Event → Raised Q)
    (now : Q) (event : Event) (d : Detector.Detector) :
  user_id event ≠ "" →
  (length (earlier_purchases event d) <= 3)%nat →
  Forall (fun x => (0 < x)%Q) (earlier_purchases event d) →
  (∀ a, amount event = Some a → (0 < a)%Q) →
  let baselines := Detector.update_user_baseline now event (Detector.user_baselines d) in
  Forall (fun x => Detector.anomaly_name x ≠ "unusual_purchase")
         (Detector.detect_behavioral_anomalies now event baselines)
  ∧ (∀ b a, event_type event = "purchase" → Detector.amount_of event = Some a →
            baselines !! user_id event = Some b →
            (a <= Detector.value (Detector.user_average (Detector.avg_purchase_amount b)) * 4)%Q)
  ∧ (∀ r, (Detector.analyze_event extract_features decision_function now event d).1
          = Return r →
          Forall (fun x => Detector.anomaly_name x ≠ "unusual_purchase")
                 (Detector.behavioral_anomalies r)).
Proof.
  intros Hu Hlen Hpos Ha baselines.
  assert (Hmargin : ∀ b a, event_type event = "purchase" →
                           Detector.amount_of event = Some a →
                           baselines !! user_id event = Some b →
                           (0 < a)%Q
                           ∧ (a <= Detector.value
                                     (Detector.user_average (Detector.avg_purchase_amount b))
                                   * 4)%Q).
  { intros b a Hty Hamt Hb.
    pose proof (Ha a (amount_of_Some event a Hamt)) as Hapos. split; [exact Hapos|].
    rewrite (average_after_purchase now event _ b a Hu Hty Hamt Hb).
    cbn [Detector.value]. fold (earlier_purchases event d).
    by apply mean_with_new_amount. }
  assert (Hrules : Forall (fun x => Detector.anomaly_name x ≠ "unusual_purchase")
                          (Detector.detect_behavioral_anomalies now event baselines)).
  { apply names_without_unusual_purchase. intros b a Hty Hb Hamt.
    destruct (Hmargin b a Hty Hamt Hb) as [Hapos Hle].
    destruct (Qlt_bool _ a) eqn:Hq; [|done]. apply Qlt_bool_iff in Hq. lra. }
  split; [exact Hrules|]. split.
  - intros b a Hty Hamt Hb. by destruct (Hmargin b a Hty Hamt Hb).
  - intros r. rewrite analyze_event_result.
    destruct (extract_features _ _); [|discriminate]. cbn zeta. by intros [= <-].
Qed.

Lemma X16_unusual_purchase_needs_history_witness :
  let features := fun (_ : gmap string Detector.Baseline) (_ : Event) => @Return unit tt in
  let no_model := fun (_ : Detector.Detector) (_ : Event) => @Raise Q "no model" in
  let earlier :=
    [Detector.Analyze 1700000000
       (mk_event "e1" "u1" "s1" "purchase" 1700000000000 (Some 10%Q));
     Detector.Analyze 1700000010
       (mk_event "e2" "u1" "s1" "purchase" 1700000010000 (Some 20%Q));
     Detector.Analyze 1700000020
       (mk_event "e3" "u1" "s1" "purchase" 1700000020000 (Some 30%Q))] in
  let d := Detector.run_ops features no_model earlier Detector.new_detector in
  let event := mk_event "e4" "u1" "s1" "purchase" 1700000030000 (Some (9999 # 100)) in
  earlier_purchases event d = [10%Q; 20%Q; 30%Q]
  ∧ (∃ r, (Detector.analyze_event features no_model 1700000030 event d).1 = Return r
          ∧ Forall (fun x => Detector.anomaly_name x ≠ "unusual_purchase")
                   (Detector.behavioral_anomalies r)).
Proof.
  intros features no_model earlier d event.
  assert (Hearlier : earlier_purchases event d = [10%Q; 20%Q; 30%Q])
    by (vm_compute; reflexivity).
  assert (H1 : user_id event ≠ "") by discriminate.
  assert (H2 : (length (earlier_purchases event d) <= 3)%nat)
    by (rewrite Hearlier; cbn; lia).
  assert (H3 : Forall (fun x => (0 < x)%Q) (earlier_purchases event d)).
  { rewrite Hearlier. repeat constructor. }
  assert (H4 : ∀ a, amount event = Some a → (0 < a)%Q).
  { intros a [= <-]. unfold Qlt. cbn. lia. }
  split; [exact Hearlier|]. eexists. split; [vm_compute; reflexivity|].
  refine (proj2 (proj2 (X16_unusual_purchase_needs_history features no_model 1700000030
                          event d H1 H2 H3 H4)) _ _).
  vm_compute. reflexivity.
Defined.

(** X17.  The [unusual_time] rule fires exactly when the UTC hour of the
    event's timestamp is below 6, with the float score 0.3; the hour always
    lies between 0 and 23, so the test [hour > 23] never adds a case. *)
Theorem X17_unusual_time_rule
    (now : Q) (event : Event) (baselines : gmap string Detector.Baseline) :
  let anomalies := Detector.detect_behavioral_anomalies now event baselines in
  let hour := Detector.hour_of (timestamp event) in
  0 ≤ hour < 24
  ∧ ((∃ a, a ∈ anomalies ∧ Detector.anomaly_name a = "unusual_time") ↔ hour < 6)
  ∧ (∀ a, a ∈ anomalies → Detector.anomaly_name a = "unusual_time" →
          Detector.score a = Detector.py 0.3).
Proof.
  intros anomalies hour. pose proof (hour_of_range (timestamp event)) as Hr. fold hour in Hr.
  split; [exact Hr|].
  assert (Hparts : ∃ others,
            Forall (fun x => Detector.anomaly_name x ≠ "unusual_time") others
            ∧ anomalies
              = others ++ (if (hour <? 6) || (23 <? hour)
                           then [ {| Detector.anomaly_name := "unusual_time";
                                     Detector.score := Detector.py 0.3;
                                     Detector.details :=
                                       [("hour"%string, Detector.py (inject_Z hour))] |} ]
                           else [])).
  { subst anomalies. unfold Detector.detect_behavioral_anomalies. fold hour.
    rewrite app_assoc. eexists. split; [|reflexivity].
    apply Forall_app_2.
    - destruct (baselines !! user_id event) as [b|]; [|constructor].
      destruct (_ <? _)%nat; repeat constructor. cbn. discriminate.
    - case_decide; [|constructor].
      destruct (Detector.amount_of event) as [a|]; [|constructor].
      apply Forall_app_2.
      + destruct (baselines !! user_id event) as [b|]; [|constructor].
        destruct (Qlt_bool _ _); repeat constructor. cbn. discriminate.
      + destruct (Qlt_bool _ _); repeat constructor. cbn. discriminate. }
  destruct Hparts as (others & Hothers & ->).
  assert (Hcond : (hour <? 6) || (23 <? hour) = bool_decide (hour < 6)).
  { destruct (Z.ltb_spec hour 6), (Z.ltb_spec 23 hour); cbn;
      (rewrite bool_decide_eq_true_2 by lia) || (rewrite bool_decide_eq_false_2 by lia);
      (done || lia). }
  rewrite Hcond. split.
  - split.
    + intros (a & Hin & Hname). apply elem_of_app in Hin as [Hin|Hin].
      * eapply Forall_forall in Hothers; [|exact Hin]. done.
      * case_bool_decide; [done|]. by apply elem_of_nil in Hin.
    + intros Hlt. rewrite bool_decide_eq_true_2 by done. eexists. split.
      * apply elem_of_app. right. apply list_elem_of_here.
      * reflexivity.
  - intros a Hin Hname. apply elem_of_app in Hin as [Hin|Hin].
    + eapply Forall_forall in Hothers; [|exact Hin]. done.
    + case_bool_decide; [|by apply elem_of_nil in Hin].
      apply list_elem_of_singleton in Hin. by subst a.
Qed.
(** ** Anomaly detector: what a run leaves in the detector *)

Section DetectorRuns.

Import Detector.

Context {Features : Type}.
Variable extract_features : gmap string Baseline → Event → Raised Features.
Variable decision_function : Detector → Event → Raised Q.

Lemma run_ops_snoc (ops : list Op) (op : Op) (d : Detector) :
  run_ops extract_features decision_function (ops ++ [op]) d
  = apply_op extract_features decision_function
      (run_ops extract_features decision_function ops d) op.
Proof. unfold run_ops. by rewrite fold_left_app. Qed.

Lemma outcomes_snoc (ops : list Op) (op : Op) (d : Detector) :
  outcomes extract_features decision_function (ops ++ [op]) d
  = outcomes extract_features decision_function ops d
    ++ match op with
       | Analyze now event =>
           [(analyze_event extract_features decision_function now event
               (run_ops extract_features decision_function ops d)).1]
       | Train _ => []
       end.
Proof.
  revert d. induction ops as [|o ops IH]; intros d.
  - destruct op; reflexivity.
  - destruct o as [now event|fit_ok]; cbn [app outcomes]; rewrite IH; reflexivity.
Qed.

Lemma returned_snoc (ops : list Op) (op : Op) (d : Detector) :
  returned extract_features decision_function (ops ++ [op]) d
  = returned extract_features decision_function ops d
    + match op with
      | Analyze now event =>
          if returns (analyze_event extract_features decision_function now event
                        (run_ops extract_features decision_function ops d)).1
          then 1 else 0
      | Train _ => 0
      end.
Proof.
  unfold returned. rewrite outcomes_snoc, List.filter_app, length_app.
  destruct op as [now event|fit_ok]; cbn [List.filter length]; [|lia].
  destruct (returns _); cbn [length]; lia.
Qed.

Lemma returned_nonneg (ops : list Op) (d : Detector) :
  0 ≤ returned extract_features decision_function ops d.
Proof. unfold returned. lia. Qed.

Lemma analysed_snoc (ops : list Op) (op : Op) :
  analysed (ops ++ [op])
  = analysed ops ++ match op with Analyze _ event => [event] | Train _ => [] end.
Proof.
  unfold analysed. rewrite flat_map_app. cbn [flat_map]. by rewrite app_nil_r.
Qed.

Lemma Forall_bounded_append {A} (P : A → Prop) (n : nat) (l : list A) (x : A) :
  Forall P l → P x → Forall P (bounded_append n l x).
Proof.
  intros Hl Hx. unfold bounded_append. apply Forall_drop, Forall_app_2; [done|].
  by constructor.
Qed.

Lemma analyze_event_baselines now event d :
  user_baselines (analyze_event extract_features decision_function now event d).2
  = update_user_baseline now event (user_baselines d).
Proof. unfold analyze_event. by destruct (extract_features _ _). Qed.

(** X18.  After any sequence of analyses and training attempts on a new
    detector, the feature buffer holds one vector per analysis that
    returned (none for one that raised), 10000 at most; the anomaly buffer
    holds at most 1000 analyses, each of them returned by an analysis of the
    run, with a combined score above 0.5 and a model version not above the
    current one; the model version exceeds 1 exactly when the model is
    trained, and then at least 100 analyses have returned. *)
Theorem X18_detector_buffers (ops : list Op) :
  let d := run_ops extract_features decision_function ops new_detector in
  let done := returned extract_features decision_function ops new_detector in
  feature_buffer d = Z.min 10000 done
  ∧ (length (anomaly_buffer d) <= 1000)%nat
  ∧ Z.of_nat (length (anomaly_buffer d)) ≤ done
  ∧ Forall (fun a => (0.5 < value (combined_anomaly_score a))%Q
                     ∧ (analysis_model_version a <= model_version d)%nat
                     ∧ Return a ∈ outcomes extract_features decision_function ops
                                    new_detector)
           (anomaly_buffer d)
  ∧ (is_trained d = true ↔ (1 < model_version d)%nat)
  ∧ (1 <= model_version d)%nat
  ∧ (is_trained d = true → 100 ≤ done).
Proof.
  induction ops as [|op ops IH] using rev_ind.
  - cbn zeta. unfold run_ops, returned.
    cbn [fold_left new_detector feature_buffer anomaly_buffer is_trained model_version
         outcomes List.filter length].
    split; [reflexivity|]. split; [lia|]. split; [lia|]. split; [constructor|].
    split; [split; [done|lia]|]. split; [lia|done].
  - cbn zeta in *. rewrite run_ops_snoc, returned_snoc, outcomes_snoc.
    pose proof (returned_nonneg ops new_detector) as Hn.
    set (d := run_ops extract_features decision_function ops new_detector) in *.
    set (n := returned extract_features decision_function ops new_detector) in *.
    set (outs := outcomes extract_features decision_function ops new_detector) in *.
    destruct IH as (Hf & Hlen & Hcnt & Hall & Htr & Hver & H100).
    assert (Hkeep : ∀ extra v, (model_version d <= v)%nat →
              Forall (fun a => (0.5 < value (combined_anomaly_score a))%Q
                               ∧ (analysis_model_version a <= v)%nat
                               ∧ Return a ∈ outs ++ extra) (anomaly_buffer d)).
    { intros extra v Hv. eapply Forall_impl; [exact Hall|]. cbn.
      intros a (? & ? & ?). split; [done|]. split; [lia|]. apply elem_of_app. by left. }
    destruct op as [now event|fit_ok].
    + cbn [apply_op]. unfold analyze_event.
      destruct (extract_features _ event) as [features|what]; cbn [fst snd returns].
      * cbn [with_features feature_buffer anomaly_buffer is_trained model_version
             user_baselines].
        match goal with |- context [Return ?x] => set (result := x) end.
        split; [lia|].
        match goal with
        | |- context [Qlt_bool 0.5 ?c] => destruct (Qlt_bool 0.5 c) eqn:Hq
        end.
        -- apply Qlt_bool_iff in Hq. rewrite bounded_append_length.
           split; [lia|]. split; [lia|]. split; [|split; [done|split; [done|]]].
           ++ apply Forall_bounded_append; [by apply Hkeep|].
              split; [exact Hq|]. split; [cbn; lia|].
              apply elem_of_app. right. apply list_elem_of_here.
           ++ intros Ht. specialize (H100 Ht). lia.
        -- split; [done|]. split; [lia|]. split; [by apply Hkeep|]. split; [done|].
           split; [done|]. intros Ht. specialize (H100 Ht). lia.
      * cbn [with_baseline feature_buffer anomaly_buffer is_trained model_version].
        split; [lia|]. split; [done|]. split; [lia|]. split; [by apply Hkeep|].
        split; [done|]. split; [done|]. intros Ht. specialize (H100 Ht). lia.
    + cbn [apply_op]. unfold train_model.
      destruct (feature_buffer d <? 100) eqn:Hfb.
      { split; [lia|]. split; [done|]. split; [lia|]. split; [by apply Hkeep|].
        split; [done|]. split; [done|]. intros Ht. specialize (H100 Ht). lia. }
      apply Z.ltb_ge in Hfb.
      destruct fit_ok.
      * cbn [feature_buffer anomaly_buffer is_trained model_version].
        split; [lia|]. split; [done|]. split; [lia|].
        split; [apply Hkeep; lia|]. split; [split; [lia|done]|]. split; [lia|lia].
      * split; [lia|]. split; [done|]. split; [lia|]. split; [by apply Hkeep|].
        split; [done|]. split; [done|]. intros Ht. specialize (H100 Ht). lia.
Qed.

Lemma purchase_amounts_snoc (u : string) (events : list Event) (e : Event) :
  purchase_amounts u (events ++ [e])
  = purchase_amounts u events
    ++ (if decide (user_id e = u ∧ event_type e = "purchase")
        then match amount_of e with Some a => [a] | None => [] end
        else []).
Proof.
  unfold purchase_amounts. rewrite omap_app. f_equal. cbn.
  case_decide; [|done]. by destruct (amount_of e).
Qed.

Lemma session_ids_snoc (u : string) (events : list Event) (e : Event) :
  session_ids u (events ++ [e])
  = if decide (user_id e = u ∧ session_id e ≠ "")
    then session_ids u events ∪ {[ session_id e ]}
    else session_ids u events.
Proof.
  unfold session_ids. rewrite omap_app, list_to_set_app_L. cbn.
  case_decide; cbn; by rewrite !(right_id_L ∅ (∪)).
Qed.

Lemma no_history (u : string) (events : list Event) :
  Forall (fun e => user_id e ≠ u) events →
  purchase_amounts u events = [] ∧ session_ids u events = ∅.
Proof.
  induction events as [|e events IH] using rev_ind; [done|].
  intros H. apply Forall_app in H as [H He]. apply Forall_cons in He as [He _].
  destruct (IH H) as [Hp Hs].
  rewrite purchase_amounts_snoc, session_ids_snoc, Hp, Hs.
  rewrite !decide_False by (intros [? ?]; done). done.
Qed.

Lemma train_model_baselines fit_ok d :
  user_baselines (train_model fit_ok d) = user_baselines d.
Proof. unfold train_model. by destruct (_ <? _), fit_ok. Qed.

(** X19.  The baseline of a user is never trimmed in its purchases and
    sessions: after any run on a new detector (whether its analyses returned
    or raised), a user has a baseline exactly when the id is non-empty and
    some analysed event carries it; the baseline's purchases are then the
    non-zero amounts of all the user's analysed purchases in order, its
    sessions all the user's non-empty session ids, [sessions_count] their
    number and [avg_purchase_amount] the mean of those purchases as
    [np.mean] returns it (the float 25.0 when there is none). *)
Theorem X19_baseline_history (ops : list Op) (u : string) :
  match user_baselines (run_ops extract_features decision_function ops new_detector) !! u with
  | Some b =>
      u ≠ ""
      ∧ purchases b = purchase_amounts u (analysed ops)
      ∧ sessions b = session_ids u (analysed ops)
      ∧ sessions_count b = size (session_ids u (analysed ops))
      ∧ user_average (avg_purchase_amount b)
        = match purchase_amounts u (analysed ops) with
          | [] => py 25
          | _ :: _ => np (mean (purchase_amounts u (analysed ops)))
          end
      ∧ ∃ e, e ∈ analysed ops ∧ user_id e = u
  | None => u = "" ∨ Forall (fun e => user_id e ≠ u) (analysed ops)
  end.
Proof.
  induction ops as [|op ops IH] using rev_ind.
  - cbn. rewrite lookup_empty. right. constructor.
  - rewrite run_ops_snoc, analysed_snoc.
    set (d := run_ops extract_features decision_function ops new_detector) in *.
    destruct op as [now event|fit_ok].
    2:{ cbn [apply_op]. rewrite train_model_baselines, app_nil_r. exact IH. }
    cbn [apply_op]. rewrite analyze_event_baselines.
    unfold update_user_baseline.
    destruct (decide (user_id event = "")) as [Hanon|Hid].
    + destruct (user_baselines d !! u) as [b|].
      * destruct IH as (Hu & Hp & Hs & Hc & Ha & e & He & Heu).
        rewrite purchase_amounts_snoc, session_ids_snoc.
        rewrite !decide_False by (intros [? ?]; congruence).
        rewrite app_nil_r. split; [done|]. split; [done|]. split; [done|].
        split; [done|]. split; [done|]. exists e. split; [|done].
        apply elem_of_app. by left.
      * destruct IH as [->|IH]; [by left|].
        destruct (decide (u = "")) as [->|Hu]; [by left|]. right.
        apply Forall_app_2; [done|]. constructor; [congruence|constructor].
    + destruct (decide (u = user_id event)) as [->|Hother].
      * rewrite lookup_insert_eq.
        cbn [purchases sessions sessions_count avg_purchase_amount].
        rewrite purchase_amounts_snoc, session_ids_snoc.
        assert (Hbefore :
                  purchases (default {| baseline_events := []; sessions := ∅;
                                        purchases := []; last_seen := now;
                                        avg_session_events := 0;
                                        avg_purchase_amount := no_purchases;
                                        sessions_count := 0 |}
                                     (user_baselines d !! user_id event))
                  = purchase_amounts (user_id event) (analysed ops)
                  ∧ sessions (default {| baseline_events := []; sessions := ∅;
                                         purchases := []; last_seen := now;
                                         avg_session_events := 0;
                                         avg_purchase_amount := no_purchases;
                                         sessions_count := 0 |}
                                      (user_baselines d !! user_id event))
                    = session_ids (user_id event) (analysed ops)).
        { destruct (user_baselines d !! user_id event) as [b|].
          - destruct IH as (_ & Hp & Hs & _). done.
          - destruct IH as [?|IH]; [done|].
            destruct (no_history _ _ IH) as [-> ->]. done. }
        destruct Hbefore as [-> ->].
        assert (Hp : (if decide (event_type event = "purchase")
                      then match amount_of event with
                           | Some a => purchase_amounts (user_id event) (analysed ops) ++ [a]
                           | None => purchase_amounts (user_id event) (analysed ops)
                           end
                      else purchase_amounts (user_id event) (analysed ops))
                     = purchase_amounts (user_id event) (analysed ops)
                       ++ (if decide (user_id event = user_id event
                                      ∧ event_type event = "purchase")
                           then match amount_of event with Some a => [a] | None => [] end
                           else [])).
        { destruct (decide (event_type event = "purchase")) as [Hty|Hty].
          - rewrite decide_True by done. destruct (amount_of event); [done|].
            by rewrite app_nil_r.
          - rewrite decide_False by (intros [? ?]; done). by rewrite app_nil_r. }
        rewrite Hp.
        assert (Hs : (if decide (session_id event = "")
                      then session_ids (user_id event) (analysed ops)
                      else session_ids (user_id event) (analysed ops)
                           ∪ {[ session_id event ]})
                     = (if decide (user_id event = user_id event ∧ session_id event ≠ "")
                        then session_ids (user_id event) (analysed ops)
                             ∪ {[ session_id event ]}
                        else session_ids (user_id event) (analysed ops))).
        { destruct (decide (session_id event = "")) as [Hsid|Hsid].
          - rewrite decide_False by (intros [? ?]; done). done.
          - rewrite decide_True by done. done. }
        rewrite Hs.
        split; [done|]. split; [done|]. split; [done|]. split; [done|].
        split; [by destruct (_ ++ _)|]. exists event. split; [|done].
        apply elem_of_app. right. apply list_elem_of_here.
      * rewrite lookup_insert_ne by done.
        destruct (user_baselines d !! u) as [b|].
        -- destruct IH as (Hu & Hp & Hs & Hc & Ha & e & He & Heu).
           rewrite purchase_amounts_snoc, session_ids_snoc.
           rewrite !decide_False by (intros [? ?]; congruence).
           rewrite app_nil_r. split; [done|]. split; [done|]. split; [done|].
           split; [done|]. split; [done|]. exists e. split; [|done].
           apply elem_of_app. by left.
        -- destruct IH as [->|IH]; [by left|]. right.
           apply Forall_app_2; [done|]. constructor; [congruence|constructor].
Qed.


End DetectorRuns.
(** ** Anomaly detector: a read of the service *)

Section DetectorReads.

Import Detector.

Context {Features : Type}.
Variable extract_features : gmap string Baseline → Event → Raised Features.
Variable decision_function : Detector → Event → Raised Q.

Lemma process_messages_snoc deliveries dl ds :
  process_messages extract_features decision_function (deliveries ++ [dl]) ds
  = process_message extract_features decision_function (delivered_at dl) (store_fails_at dl)
      (message dl) (process_messages extract_features decision_function deliveries ds).
Proof. unfold process_messages. by rewrite fold_left_app. Qed.

Lemma store_anomaly_acked fails_at analysis s :
  acked (store_anomaly fails_at analysis s) = acked s.
Proof. unfold store_anomaly. by destruct (orjson_dumps analysis). Qed.

(** X20.  In a read of the detector service, the acknowledged messages are
    those whose payload parses and whose analysis returns, in order,
    whatever the analysis found and whether or not the store writes
    failed; a message whose payload does not parse or whose analysis raises
    is not acknowledged; and the detector ends in the state reached by
    analysing the parsed events in order, the raising analyses included. *)
Theorem X20_read_acknowledged (deliveries : list Delivery) (d : Detector) (s : Store) :
  let r := process_messages extract_features decision_function deliveries (d, s) in
  let outs := outcomes extract_features decision_function (analyses_of deliveries) d in
  length outs = length (ids_of_well_formed deliveries)
  ∧ acked r.2
    = acked s
      ++ (List.filter (fun p => returns p.2) (zip (ids_of_well_formed deliveries) outs)).*1
  ∧ r.1 = run_ops extract_features decision_function (analyses_of deliveries) d.
Proof.
  induction deliveries as [|dl deliveries IH] using rev_ind.
  - cbn. by rewrite app_nil_r.
  - cbn zeta in *. rewrite process_messages_snoc.
    destruct (process_messages extract_features decision_function deliveries (d, s))
      as [d' s'].
    cbn [fst snd] in IH. destruct IH as (Hlen & Hack & ->).
    unfold ids_of_well_formed, analyses_of. rewrite !flat_map_app. cbn [flat_map].
    fold (ids_of_well_formed deliveries). fold (analyses_of deliveries).
    unfold process_message. destruct (data (message dl)) as [raw|original_event].
    + cbn [fst snd]. rewrite !app_nil_r. done.
    + rewrite !app_nil_r, run_ops_snoc, outcomes_snoc. cbn [apply_op fst snd].
      rewrite zip_with_app by (symmetry; exact Hlen).
      rewrite List.filter_app, fmap_app, app_assoc, <- Hack. cbn [zip_with List.filter snd].
      rewrite !length_app, Hlen. cbn [length].
      destruct (analyze_event extract_features decision_function (delivered_at dl)
                  original_event
                  (run_ops extract_features decision_function (analyses_of deliveries) d))
        as [[analysis|what] d''].
      * cbn [fst snd returns acked fmap list_fmap]. split; [done|]. split; [|done].
        destruct (is_anomaly analysis); [by rewrite store_anomaly_acked|done].
      * cbn [fst snd returns fmap list_fmap]. by rewrite app_nil_r.
Qed.

Lemma store_anomaly_sound fails_at analysis s :
  (0.7 < value (combined_anomaly_score analysis))%Q →
  ((∀ k a, hashes s !! k = Some a →
           k = anomaly_key a
           ∧ (0.7 < value (combined_anomaly_score a))%Q
           ∧ existsb is_numpy (numbers_of a) = false)
   ∧ (∀ k, is_Some (expiry s !! k) →
           expiry s !! k = Some 86400 ∧ is_Some (hashes s !! k))
   ∧ Forall (fun a => (0.7 < value (combined_anomaly_score a))%Q
                      ∧ existsb is_numpy (numbers_of a) = false
                      ∧ expiry s !! anomaly_key a = Some 86400) (anomaly_alerts s)) →
  let s' := store_anomaly fails_at analysis s in
  (∀ k a, hashes s' !! k = Some a →
          k = anomaly_key a
          ∧ (0.7 < value (combined_anomaly_score a))%Q
          ∧ existsb is_numpy (numbers_of a) = false)
  ∧ (∀ k, is_Some (expiry s' !! k) →
          expiry s' !! k = Some 86400 ∧ is_Some (hashes s' !! k))
  ∧ Forall (fun a => (0.7 < value (combined_anomaly_score a))%Q
                     ∧ existsb is_numpy (numbers_of a) = false
                     ∧ expiry s' !! anomaly_key a = Some 86400) (anomaly_alerts s').
Proof.
  intros Hscore Hinv s'. subst s'. unfold store_anomaly, orjson_dumps.
  destruct (existsb is_numpy (numbers_of analysis)) eqn:Hpy; [exact Hinv|].
  destruct Hinv as (Hh & He & Ha).
  fold (anomaly_key analysis).
  assert (Hins : ∀ k a, <[anomaly_key analysis := analysis]> (hashes s) !! k = Some a →
                        k = anomaly_key a
                        ∧ (0.7 < value (combined_anomaly_score a))%Q
                        ∧ existsb is_numpy (numbers_of a) = false).
  { intros k a. destruct (decide (k = anomaly_key analysis)) as [->|Hk].
    - rewrite lookup_insert_eq. by intros [= <-].
    - rewrite lookup_insert_ne by done. apply Hh. }
  assert (Hexp : ∀ k, is_Some (<[anomaly_key analysis := 86400]> (expiry s) !! k) →
                      <[anomaly_key analysis := 86400]> (expiry s) !! k = Some 86400
                      ∧ is_Some (<[anomaly_key analysis := analysis]> (hashes s) !! k)).
  { intros k. destruct (decide (k = anomaly_key analysis)) as [->|Hk].
    - rewrite !lookup_insert_eq. by eauto.
    - rewrite !lookup_insert_ne by done. apply He. }
  assert (Hkeep : ∀ k, is_Some (expiry s !! k) →
                      expiry s !! k = Some 86400
                      ∧ is_Some (<[anomaly_key analysis := analysis]> (hashes s) !! k)).
  { intros k Hk. destruct (He k Hk) as [? ?]. split; [done|].
    destruct (decide (k = anomaly_key analysis)) as [->|Hne].
    - rewrite lookup_insert_eq. by eauto.
    - by rewrite lookup_insert_ne. }
  assert (Hal : Forall (fun a => (0.7 < value (combined_anomaly_score a))%Q
                                 ∧ existsb is_numpy (numbers_of a) = false
                                 ∧ <[anomaly_key analysis := 86400]> (expiry s)
                                     !! anomaly_key a = Some 86400) (anomaly_alerts s)).
  { eapply Forall_impl; [exact Ha|]. cbn. intros a (? & ? & ?). split; [done|].
    split; [done|].
    destruct (decide (anomaly_key a = anomaly_key analysis)) as [->|Hne].
    - by rewrite lookup_insert_eq.
    - by rewrite lookup_insert_ne. }
  assert (Hnew : Forall (fun a => (0.7 < value (combined_anomaly_score a))%Q
                                  ∧ existsb is_numpy (numbers_of a) = false
                                  ∧ <[anomaly_key analysis := 86400]> (expiry s)
                                      !! anomaly_key a = Some 86400)
                        (anomaly_alerts s ++ [analysis])).
  { apply Forall_app_2; [exact Hal|]. constructor; [|constructor].
    split; [exact Hscore|]. split; [exact Hpy|]. by rewrite lookup_insert_eq. }
  destruct fails_at as [[|[|[|n]]]|]; cbn [Nat.ltb Nat.leb hashes expiry anomaly_alerts].
  - exact (conj Hh (conj He Ha)).
  - exact (conj Hins (conj Hkeep Ha)).
  - exact (conj Hins (conj Hexp Hal)).
  - exact (conj Hins (conj Hexp Hnew)).
  - exact (conj Hins (conj Hexp Hnew)).
Qed.

(** When [expire] raises, the hash just written stays without expiry and no
    alert is sent. *)
Lemma expire_failure_leaves_hash analysis s :
  existsb is_numpy (numbers_of analysis) = false →
  let s' := store_anomaly (Some 1%nat) analysis s in
  hashes s' !! anomaly_key analysis = Some analysis
  ∧ expiry s' = expiry s
  ∧ anomaly_alerts s' = anomaly_alerts s.
Proof.
  intros Hpy. unfold store_anomaly, orjson_dumps. rewrite Hpy. cbn.
  fold (anomaly_key analysis). by rewrite lookup_insert_eq.
Qed.

(** X21.  Whatever store writes fail during the reads, the store filled from
    empty keeps this shape: every hash sits under the key of the analysis it
    holds, whose combined score is above 0.7 and which holds no
    [numpy.float64]; every key with an expiry has the 24-hour expiry and a
    hash; and every alert on the stream has a score above 0.7, no
    [numpy.float64], and a key that carries the expiry.  (A hash without
    expiry can remain when [expire] fails.) *)
Theorem X21_stored_anomalies (deliveries : list Delivery) (d : Detector) :
  let s := (process_messages extract_features decision_function deliveries
              (d, empty_store)).2 in
  (∀ k a, hashes s !! k = Some a →
          k = anomaly_key a
          ∧ (0.7 < value (combined_anomaly_score a))%Q
          ∧ existsb is_numpy (numbers_of a) = false)
  ∧ (∀ k, is_Some (expiry s !! k) →
          expiry s !! k = Some 86400 ∧ is_Some (hashes s !! k))
  ∧ Forall (fun a => (0.7 < value (combined_anomaly_score a))%Q
                     ∧ existsb is_numpy (numbers_of a) = false
                     ∧ expiry s !! anomaly_key a = Some 86400) (anomaly_alerts s).
Proof.
  induction deliveries as [|dl deliveries IH] using rev_ind.
  - cbn. split; [intros k a; by rewrite lookup_empty|].
    split; [intros k; rewrite lookup_empty; by intros [? ?]|constructor].
  - cbn zeta in *. rewrite process_messages_snoc.
    destruct (process_messages extract_features decision_function deliveries
                (d, empty_store)) as [d' s'].
    cbn [snd] in IH. unfold process_message.
    destruct (data (message dl)) as [raw|original_event]; [exact IH|].
    cbn [fst snd].
    pose proof (returned_analysis extract_features decision_function (delivered_at dl)
                  original_event d') as Hret.
    destruct (analyze_event extract_features decision_function (delivered_at dl)
                original_event d') as [[analysis|what] d'']; [|exact IH].
    cbn [fst snd] in *. destruct (Hret analysis eq_refl) as (_ & Hflag & _).
    destruct (is_anomaly analysis); cbn [fst snd hashes expiry anomaly_alerts];
      [|exact IH].
    symmetry in Hflag. apply Qlt_bool_iff in Hflag.
    exact (store_anomaly_sound (store_fails_at dl) analysis s' Hflag IH).
Qed.

End DetectorReads.
